(** * gouuidv6: "Version 6" UUIDs -- a shallow embedding and its properties

    The Go package keeps a UUID as [[16]byte], builds it from a 60-bit
    timestamp, a 14-bit clock sequence and a 48-bit node, and renders it
    either as the dashed hexadecimal form or with an order-preserving
    base-64 alphabet.  Bytes and machine words are integers in [Z] with
    the wrap-around of the Go types written out; Go strings are byte
    sequences; the package-level variables are a record threaded through
    the calls that read or write them. *)

From Stdlib Require Import String Ascii.
From Stdlib Require Import ZArith List Lia Bool.
From coqutil Require Import Z.bitblast.
Import ListNotations.
Local Open Scope list_scope.
Local Open Scope Z_scope.

Declare Scope go_scope.
Infix "<<" := Z.shiftl (at level 40, left associativity) : go_scope.
Infix ">>" := Z.shiftr (at level 40, left associativity) : go_scope.
Infix ".&" := Z.land (at level 40, left associativity) : go_scope.
Infix ".|" := Z.lor (at level 50, left associativity) : go_scope.
Local Open Scope go_scope.

(** ** Machine integers *)

Definition uint8 (z : Z) : Z := z mod 2 ^ 8.
Definition uint16 (z : Z) : Z := z mod 2 ^ 16.
Definition uint32 (z : Z) : Z := z mod 2 ^ 32.
Definition uint64 (z : Z) : Z := z mod 2 ^ 64.
Definition int64 (z : Z) : Z := (z + 2 ^ 63) mod 2 ^ 64 - 2 ^ 63.

Definition is_byte (b : Z) : Prop := 0 <= b < 256.
Definition is_byteb (b : Z) : bool := (0 <=? b) && (b <? 256).

(** ** Outcomes of a call: a value, a returned [error], or a run-time panic *)

Inductive error : Type :=
| ErrEOF
| ErrUnexpectedEOF
| ErrUnexpectedNewline
| ErrExpectedInteger
| ErrInputDoesNotMatchFormat
| ErrSyntax
| ErrRange
| ErrIntegerOverflow
| ErrTooFewOperands
| ErrCorruptInput (offset : Z).

Inductive result (A : Type) : Type :=
| Ok (a : A)
| Err (e : error)
| Panic.
Arguments Ok {A} a.
Arguments Err {A} e.
Arguments Panic {A}.

Definition bind {A B} (r : result A) (k : A -> result B) : result B :=
  match r with
  | Ok a => k a
  | Err e => Err e
  | Panic => Panic
  end.

Notation "x <- r ;; k" := (bind r (fun x => k))
  (at level 61, r at next level, right associativity) : go_scope.

Definition is_Ok {A} (r : result A) : bool :=
  match r with Ok _ => true | _ => false end.
Definition is_Err {A} (r : result A) : bool :=
  match r with Err _ => true | _ => false end.
Definition no_panic {A} (r : result A) : Prop := r <> Panic.

(** ** Slices *)

(** [s[lo:hi]] and [s[lo:]] on an in-range window. *)
Definition slice {A} (lo hi : nat) (s : list A) : list A :=
  firstn (hi - lo) (skipn lo s).
Definition slice_from {A} (lo : nat) (s : list A) : list A := skipn lo s.

(** Writing [src] through the slice [dst[lo:]] of a backing array. *)
Definition store (dst : list Z) (lo : nat) (src : list Z) : list Z :=
  firstn lo dst ++ src ++ skipn (lo + length src) dst.

(** The builtin [copy(dst, src)]: the first [min (len dst) (len src)]
    elements are overwritten. *)
Definition copy (dst src : list Z) : list Z :=
  firstn (length dst) src ++ skipn (length src) dst.

Definition idx (s : list Z) (i : nat) : Z := nth i s 0.

(** ** encoding/binary, big endian

    The readers take the bytes they index with [idx]; the callers below
    guard the lengths where the Go bounds check can fail. *)

Definition Uint16 (b : list Z) : Z :=
  idx b 1 .| idx b 0 << 8.

Definition Uint32 (b : list Z) : Z :=
  idx b 3 .| idx b 2 << 8 .| idx b 1 << 16 .| idx b 0 << 24.

Definition Uint64 (b : list Z) : Z :=
  idx b 7 .| idx b 6 << 8 .| idx b 5 << 16 .| idx b 4 << 24 .|
  idx b 3 << 32 .| idx b 2 << 40 .| idx b 1 << 48 .| idx b 0 << 56.

Definition PutUint16 (v : Z) : list Z :=
  [uint8 (v >> 8); uint8 v].

Definition PutUint32 (v : Z) : list Z :=
  [uint8 (v >> 24); uint8 (v >> 16); uint8 (v >> 8); uint8 v].

Definition PutUint64 (v : Z) : list Z :=
  [uint8 (v >> 56); uint8 (v >> 48); uint8 (v >> 40); uint8 (v >> 32);
   uint8 (v >> 24); uint8 (v >> 16); uint8 (v >> 8); uint8 v].

(** ** bytes.Compare: lexicographic, [Lt]/[Eq]/[Gt] for -1/0/+1 *)

Fixpoint bytes_Compare (a b : list Z) : comparison :=
  match a, b with
  | [], [] => Eq
  | [], _ :: _ => Lt
  | _ :: _, [] => Gt
  | x :: a', y :: b' =>
      match x ?= y with
      | Eq => bytes_Compare a' b'
      | c => c
      end
  end.

Definition is_Lt (c : comparison) : bool :=
  match c with Lt => true | _ => false end.

(** ** The UUID type *)

Definition UUID : Type := list Z.

Definition wf_UUID (u : UUID) : Prop :=
  length u = 16%nat /\ Forall is_byte u.

Definition zero_UUID : UUID := repeat 0 16.

(** [func (u UUID) Compare(to UUID) bool] *)
Definition UUID_Compare (u to : UUID) : bool :=
  Uint64 (slice 0 8 u) <=? Uint64 (slice 0 8 to).

(** [func (s UUIDSlice) Less(i, j int) bool]; an index outside the slice
    panics. *)
Definition UUIDSlice_Less (s : list UUID) (i j : nat) : result bool :=
  match nth_error s i, nth_error s j with
  | Some a, Some b => Ok (Uint64 (slice 0 8 a) <? Uint64 (slice 0 8 b))
  | _, _ => Panic
  end.

(** [func (s UUIDB64Slice) Less(i, j int) bool] *)
Definition UUIDB64Slice_Less (s : list UUID) (i j : nat) : result bool :=
  match nth_error s i, nth_error s j with
  | Some a, Some b => Ok (is_Lt (bytes_Compare a b))
  | _, _ => Panic
  end.

(** [func ParseBytes(bs []byte) (UUID, error)]: [bs[8:]] panics on fewer
    than 8 bytes, and [Uint64] panics on a slice of fewer than 8. *)
Definition ParseBytes (bs : list Z) : result UUID :=
  let ret := zero_UUID in
  if (length bs <? 8)%nat then Panic
  else if (length (slice_from 8 bs) <? 8)%nat then Panic
  else
    let ret := store ret 8 (PutUint64 (Uint64 (slice_from 8 bs))) in
    let ret := store ret 0 (PutUint64 (Uint64 (slice 0 8 bs))) in
    Ok ret.

(** [func (u UUID) IsNil() bool] *)
Definition UUID_IsNil (u : UUID) : bool :=
  (Uint64 (slice 0 8 u) .| Uint64 (slice 8 16 u)) =? 0.

(** [func (u UUID) Node() uint64] *)
Definition UUID_Node (u : UUID) : Z :=
  let b := repeat 0 16 in
  let b := store b 2 (firstn (length b - 2) (slice_from 10 u)) in
  Uint64 b.

(** ** package time *)

(** An instant: seconds since the Unix epoch and nanoseconds within the
    second. *)
Record time_Time : Type := mkTime { unixSec : Z; nsec : Z }.

(** [time.Time{}], January 1, year 1, 00:00:00 UTC. *)
Definition time_zero : time_Time := mkTime (-62135596800) 0.

(** [time.Unix(sec, nsec)] *)
Definition time_Unix (sec nsec : Z) : time_Time :=
  if (nsec <? 0) || (nsec >=? 1000000000) then
    let n := Z.quot nsec 1000000000 in
    let sec := int64 (sec + n) in
    let nsec := int64 (nsec - int64 (n * 1000000000)) in
    if nsec <? 0 then mkTime (int64 (sec - 1)) (int64 (nsec + 1000000000))
    else mkTime sec nsec
  else mkTime sec nsec.

(** [t.UnixNano()]: an [int64], wrapping outside the years 1678..2262. *)
Definition UnixNano (t : time_Time) : Z :=
  int64 (unixSec t * 1000000000 + nsec t).

(** Nanoseconds from the Unix epoch to the instant, unbounded. *)
Definition nanos_since_epoch (t : time_Time) : Z :=
  unixSec t * 1000000000 + nsec t.

Definition tsoff : Z := 122192928000000000.

(** [func tstime(t time.Time) uint64] *)
Definition tstime (t : time_Time) : Z :=
  uint64 (tsoff + uint64 (Z.quot (UnixNano t) 100)).

(** [func (u UUID) Time() time.Time] *)
Definition UUID_Time (u : UUID) : time_Time :=
  if negb (((idx u 6 .& 0xF0) =? 0x60) && ((idx u 8 .& 0xC0) =? 0x80)) then
    time_zero
  else
    let hi := Uint64 (slice 0 8 u) in
    let t := ((hi >> 4) .& 0xFFFFFFFFFFFFF000) .| (0x0FFF .& hi) in
    let ut := int64 (int64 (uint64 (t - tsoff)) * 100) in
    time_Unix (Z.quot ut 1000000000) (Z.rem ut 1000000000).

(** ** The package-level generator state

    [newlock] serialises the read-modify-write of [lastts] and
    [clockseq]; the calls below are whole, one after another.  What
    [crypto/rand.Read] does in a call is an argument of that call:
    [Some b] fills the 8-byte buffer with [b], [None] is a failed read. *)

Record Generator : Type := mkGenerator {
  lastts : Z;
  clockseq : Z;
  node : Z;
  alwaysRandomizeNode : bool
}.

Definition rand_outcome : Type := option (list Z).

Definition wf_rand (r : rand_outcome) : Prop :=
  match r with
  | Some b => length b = 8%nat /\ Forall is_byte b
  | None => True
  end.

(** [func getRandomNode() uint64] *)
Definition getRandomNode (r : rand_outcome) : Z :=
  match r with
  | None => 0
  | Some b =>
      let randNode :=
        (Uint64 (slice 0 8 b) .& 0x0000FFFFFFFFFFFF) .| 0x0000010000000000 in
      randNode
  end.

(** [func getMacNode() uint64], over the hardware addresses of
    [net.Interfaces()]. *)
Fixpoint getMacNode (ifs : list (list Z)) : Z :=
  match ifs with
  | [] => 0
  | hw :: rest =>
      if (6 <=? length hw)%nat then
        uint64 (Uint16 (slice 0 2 hw) << 32) .| Uint32 (slice 2 6 hw)
      else getMacNode rest
  end.

(** [func RandomizeNode()] *)
Definition RandomizeNode (r : rand_outcome) (g : Generator) : Generator :=
  mkGenerator (lastts g) (clockseq g) (getRandomNode r) (alwaysRandomizeNode g).

(** [func AlwaysRandomizeNode()] *)
Definition AlwaysRandomizeNode (g : Generator) : Generator :=
  mkGenerator (lastts g) (clockseq g) (node g) true.

(** [func GetNode() uint64] *)
Definition GetNode (g : Generator) : Z := node g.

(** [func SetNode(nodeID uint64)] *)
Definition SetNode (nodeID : Z) (g : Generator) : Generator :=
  mkGenerator (lastts g) (clockseq g) nodeID false.

(** [func init()]: the zero values of the package variables, then the
    random clock sequence, the MAC node and [RandomizeNode]. *)
Definition init (r1 : rand_outcome) (ifs : list (list Z)) (r2 : rand_outcome)
  : Generator :=
  let clockseq0 :=
    match r1 with
    | Some b => Uint32 (slice 0 4 b)
    | None => 0
    end in
  let mn := getMacNode ifs in
  let node0 := if negb (mn =? 0) then mn else 0 in
  RandomizeNode r2 (mkGenerator 0 clockseq0 node0 false).

(** [func NewFromTime(t time.Time) UUID] *)
Definition NewFromTime (t : time_Time) (r : rand_outcome) (g : Generator)
  : UUID * Generator :=
  let tsval := tstime t in
  let clockseq1 :=
    if lastts g >=? tsval then uint32 (clockseq g + 1) else clockseq g in
  let g1 := mkGenerator tsval clockseq1 (node g) (alwaysRandomizeNode g) in
  let cs := clockseq1 in
  let ret := zero_UUID in
  let hi :=
    (uint64 (tsval << 4) .& 0xFFFFFFFFFFFF0000) .| (tsval .& 0x0FFF) .| 0x6000 in
  let lo := uint64 (0x8000 << 48) .| uint64 ((cs .& 0x3fff) << 48) in
  let lo :=
    if alwaysRandomizeNode g1 || (node g1 =? 0) then lo .| getRandomNode r
    else lo .| node g1 in
  let ret := store ret 0 (PutUint64 hi) in
  let ret := store ret 8 (PutUint64 lo) in
  (ret, g1).

(** Generator states the package can be in: after [init], after any of
    its exported operations. *)
Inductive reachable : Generator -> Prop :=
| reach_init r1 ifs r2 :
    wf_rand r1 -> Forall (Forall is_byte) ifs -> wf_rand r2 ->
    reachable (init r1 ifs r2)
| reach_NewFromTime t r g :
    wf_rand r -> reachable g -> reachable (snd (NewFromTime t r g))
| reach_RandomizeNode r g :
    wf_rand r -> reachable g -> reachable (RandomizeNode r g)
| reach_AlwaysRandomizeNode g :
    reachable g -> reachable (AlwaysRandomizeNode g)
| reach_SetNode n g :
    0 <= n < 2 ^ 64 -> reachable g -> reachable (SetNode n g).

(** A run of generation calls, one after another. *)
Fixpoint generate (calls : list (time_Time * rand_outcome)) (g : Generator)
  : list UUID * Generator :=
  match calls with
  | [] => ([], g)
  | (t, r) :: rest =>
      let (u, g1) := NewFromTime t r g in
      let (us, g2) := generate rest g1 in
      (u :: us, g2)
  end.

(** ** Go strings

    A Go string is its bytes.  The exported functions take and return
    [String.string]; inside, a string is the list of its byte values. *)

Definition bytes_of_string (s : String.string) : list Z :=
  map (fun c => Z.of_N (Ascii.N_of_ascii c)) (String.list_ascii_of_string s).

Definition string_of_bytes (l : list Z) : String.string :=
  String.string_of_list_ascii (map (fun b => Ascii.ascii_of_N (Z.to_N b)) l).

(** [s[i]] of a string constant. *)
Definition char_at (s : String.string) (i : Z) : Z :=
  idx (bytes_of_string s) (Z.to_nat i).

Definition hyphen : Z := 45.

(** ** fmt: printing a byte slice with [%x] *)

Definition ldigits : String.string := "0123456789abcdefx"%string.

(** [fmtSbx]: two digits per byte.  Each slice of a UUID printed below
    fills the width its verb asks for, so no padding is written. *)
Definition fmtSbx (b : list Z) : list Z :=
  flat_map (fun c => [char_at ldigits (c >> 4); char_at ldigits (c .& 0xF)]) b.

(** [func (u UUID) String() string], the bytes of
    [Sprintf("%08x-%04x-%04x-%04x-%012x", u[:4], u[4:6], u[6:8], u[8:10], u[10:])] *)
Definition UUID_String_bytes (u : UUID) : list Z :=
  fmtSbx (slice 0 4 u) ++ [hyphen] ++
  fmtSbx (slice 4 6 u) ++ [hyphen] ++
  fmtSbx (slice 6 8 u) ++ [hyphen] ++
  fmtSbx (slice 8 10 u) ++ [hyphen] ++
  fmtSbx (slice_from 10 u).

Definition UUID_String (u : UUID) : String.string :=
  string_of_bytes (UUID_String_bytes u).

(** ** unicode/utf8: the runes a scanner reads from a string *)

Definition RuneError : Z := 0xFFFD.

(** The [first] table: [0xF0] ASCII, [0xF1] invalid, otherwise the size in
    the low three bits and the index of the accept range above them. *)
Definition utf8_first (p0 : Z) : Z :=
  if p0 <? 0x80 then 0xF0
  else if p0 <? 0xC2 then 0xF1
  else if p0 <? 0xE0 then 0x02
  else if p0 =? 0xE0 then 0x13
  else if p0 <? 0xED then 0x03
  else if p0 =? 0xED then 0x23
  else if p0 <? 0xF0 then 0x03
  else if p0 =? 0xF0 then 0x34
  else if p0 <? 0xF4 then 0x04
  else if p0 =? 0xF4 then 0x44
  else 0xF1.

Definition acceptRanges (i : Z) : Z * Z :=
  if i =? 1 then (0xA0, 0xBF)
  else if i =? 2 then (0x80, 0x9F)
  else if i =? 3 then (0x90, 0xBF)
  else if i =? 4 then (0x80, 0x8F)
  else (0x80, 0xBF).

(** [utf8.DecodeRune] on a non-empty [p]: the rune and its width. *)
Definition DecodeRune (p : list Z) : Z * nat :=
  let n := length p in
  let p0 := idx p 0 in
  let x := utf8_first p0 in
  if x >=? 0xF0 then
    (if x =? 0xF1 then RuneError else p0, 1%nat)
  else
    let sz := Z.to_nat (x .& 7) in
    let accept := acceptRanges (x >> 4) in
    if (n <? sz)%nat then (RuneError, 1%nat)
    else
      let b1 := idx p 1 in
      if (b1 <? fst accept) || (snd accept <? b1) then (RuneError, 1%nat)
      else if (sz <=? 2)%nat then
        ((p0 .& 0x1F) << 6 .| (b1 .& 0x3F), 2%nat)
      else
        let b2 := idx p 2 in
        if (b2 <? 0x80) || (0xBF <? b2) then (RuneError, 1%nat)
        else if (sz <=? 3)%nat then
          ((p0 .& 0x0F) << 12 .| (b1 .& 0x3F) << 6 .| (b2 .& 0x3F), 3%nat)
        else
          let b3 := idx p 3 in
          if (b3 <? 0x80) || (0xBF <? b3) then (RuneError, 1%nat)
          else
            ((p0 .& 0x07) << 18 .| (b1 .& 0x3F) << 12 .|
             (b2 .& 0x3F) << 6 .| (b3 .& 0x3F), 4%nat).

(** Reading rune after rune; every step takes at least one byte, so the
    length of the input is fuel enough. *)
Fixpoint runes_from (fuel : nat) (p : list Z) : list Z :=
  match fuel with
  | O => []
  | S fuel' =>
      match p with
      | [] => []
      | _ :: _ =>
          let (r, size) := DecodeRune p in
          r :: runes_from fuel' (skipn size p)
      end
  end.

Definition runes (p : list Z) : list Z := runes_from (length p) p.

(** ** fmt: scanning with [Sscanf]

    The scanner state is the input that is left, as runes. *)

Definition space : list (Z * Z) :=
  [(0x0009, 0x000d); (0x0020, 0x0020); (0x0085, 0x0085); (0x00a0, 0x00a0);
   (0x1680, 0x1680); (0x2000, 0x200a); (0x2028, 0x2029); (0x202f, 0x202f);
   (0x205f, 0x205f); (0x3000, 0x3000)].

Fixpoint in_ranges (rx : Z) (tbl : list (Z * Z)) : bool :=
  match tbl with
  | [] => false
  | (lo, hi) :: rest =>
      if rx <? lo then false
      else if rx <=? hi then true
      else in_ranges rx rest
  end.

Definition isSpace (r : Z) : bool :=
  if r >=? 1 << 16 then false else in_ranges (uint16 r) space.

Definition newline : Z := 10.
Definition carriage_return : Z := 13.

(** [s.peek(ok)] *)
Definition peek (ok : list Z) (s : list Z) : bool :=
  match s with
  | [] => false
  | r :: _ => existsb (Z.eqb r) ok
  end.

(** [func (s *ss) SkipSpace()] with [nlIsSpace] false, as [Sscanf] sets it. *)
Fixpoint SkipSpace (s : list Z) : result (list Z) :=
  match s with
  | [] => Ok []
  | r :: s' =>
      if (r =? carriage_return) && peek [newline] s' then SkipSpace s'
      else if r =? newline then Err ErrUnexpectedNewline
      else if negb (isSpace r) then Ok (r :: s')
      else SkipSpace s'
  end.

(** [func (s *ss) notEOF()]: at the end of the input it panics with
    [io.EOF], which [errorHandler] turns into the returned error. *)
Definition notEOF (s : list Z) : result unit :=
  match s with
  | [] => Err ErrEOF
  | _ :: _ => Ok tt
  end.

Definition hexadecimalDigits : String.string := "0123456789aAbBcCdDeEfF"%string.

(** [indexRune(ok, r) >= 0] *)
Definition in_string (ok : String.string) (r : Z) : bool :=
  existsb (Z.eqb r) (bytes_of_string ok).

(** [for s.accept(digits) {}]: runes are taken while they are digits and
    the width of the verb is not used up. *)
Fixpoint accept_while (digits : String.string) (wid : nat) (s : list Z)
  : list Z * list Z :=
  match wid with
  | O => ([], s)
  | S wid' =>
      match s with
      | [] => ([], s)
      | r :: s' =>
          if in_string digits r then
            let (tok, rest) := accept_while digits wid' s' in (r :: tok, rest)
          else ([], s)
      end
  end.

(** [func (s *ss) scanNumber(digits string, haveDigits bool) string] with
    [haveDigits] false. *)
Definition scanNumber (digits : String.string) (wid : nat) (s : list Z)
  : result (list Z * list Z) :=
  _ <- notEOF s;;
  match accept_while digits wid s with
  | ([], _) => Err ErrExpectedInteger
  | (tok, rest) => Ok (tok, rest)
  end.

Definition lower (c : Z) : Z := c .| 0x20.

(** [strconv.ParseUint(tok, 16, 64)] *)
Fixpoint ParseUint_loop (tok : list Z) (n : Z) : result Z :=
  match tok with
  | [] => Ok n
  | c :: rest =>
      d <- (if (48 <=? c) && (c <=? 57) then Ok (c - 48)
            else if (97 <=? lower c) && (lower c <=? 122) then Ok (lower c - 97 + 10)
            else Err ErrSyntax);;
      if d >=? 16 then Err ErrSyntax
      else if n >=? 2 ^ 60 then Err ErrRange
      else
        let n := n * 16 in
        let n1 := uint64 (n + d) in
        if (n1 <? n) || (n1 >? 2 ^ 64 - 1) then Err ErrRange
        else ParseUint_loop rest n1
  end.

Definition ParseUint (tok : list Z) : result Z :=
  match tok with
  | [] => Err ErrSyntax
  | _ :: _ => ParseUint_loop tok 0
  end.

(** [func (s *ss) scanUint(verb rune, bitSize int) uint64] for the verb
    [x], reading at most [wid] runes.  The [SkipSpace] here takes nothing:
    the caller's has stopped at a rune that is not a space. *)
Definition scanUint (wid : nat) (bitSize : Z) (s : list Z)
  : result (Z * list Z) :=
  s <- SkipSpace s;;
  _ <- notEOF s;;
  p <- scanNumber hexadecimalDigits wid s;;
  i <- ParseUint (fst p);;
  let n := bitSize in
  let x := uint64 (i << (64 - n)) >> (64 - n) in
  if negb (x =? i) then Err ErrIntegerOverflow
  else Ok (i, snd p).

(** One verb [%<wid>x] of the format in [doScanf]. *)
Definition scan_verb (wid : nat) (bitSize : Z) (s : list Z)
  : result (Z * list Z) :=
  s <- SkipSpace s;;
  scanUint wid bitSize s.

(** [func (s *ss) advance(format string)] over one literal character. *)
Definition advance (fmtc : Z) (s : list Z) : result (list Z) :=
  match s with
  | [] => Err ErrUnexpectedEOF
  | inputc :: s' =>
      if negb (fmtc =? inputc) then Err ErrInputDoesNotMatchFormat
      else Ok s'
  end.

(** [func Parse(us string) (UUID, error)]:
    [Sscanf(us, "%08x-%04x-%04x-%04x-%012x", &v1, &v2, &v3, &v4, &v5)] with
    [v1 uint32], [v2, v3, v4 uint16], [v5 uint64], then the five stores. *)
Definition Parse_runes (s : list Z) : result UUID :=
  let ret := zero_UUID in
  p1 <- scan_verb 8 32 s;;
  s <- advance hyphen (snd p1);;
  p2 <- scan_verb 4 16 s;;
  s <- advance hyphen (snd p2);;
  p3 <- scan_verb 4 16 s;;
  s <- advance hyphen (snd p3);;
  p4 <- scan_verb 4 16 s;;
  s <- advance hyphen (snd p4);;
  p5 <- scan_verb 12 64 s;;
  let v1 := uint32 (fst p1) in
  let v2 := uint16 (fst p2) in
  let v3 := uint16 (fst p3) in
  let v4 := uint16 (fst p4) in
  let v5 := fst p5 in
  let ret := store ret 8 (PutUint64 v5) in
  let ret := store ret 8 (PutUint16 (uint16 v4)) in
  let ret := store ret 6 (PutUint16 (uint16 v3)) in
  let ret := store ret 4 (PutUint16 (uint16 v2)) in
  let ret := store ret 0 (PutUint32 (uint32 v1)) in
  Ok ret.

Definition Parse (us : String.string) : result UUID :=
  Parse_runes (runes (bytes_of_string us)).

(** ** encoding/base64 with [Base64UUIDAlphabet] and no padding *)

Definition Base64UUIDAlphabet : String.string :=
  "-0123456789ABCDEFGHIJKLMNOPQRSTUVWXYZ_abcdefghijklmnopqrstuvwxyz"%string.

(** [enc.encode[i]] *)
Definition enc_encode (i : Z) : Z := char_at Base64UUIDAlphabet i.

(** [enc.decodeMap[c]]: the index of [c] in the alphabet, [0xFF] for a
    byte that is not in it. *)
Fixpoint index_from (alphabet : list Z) (i : Z) (c : Z) : Z :=
  match alphabet with
  | [] => 0xFF
  | a :: rest => if c =? a then i else index_from rest (i + 1) c
  end.

Definition enc_decodeMap (c : Z) : Z :=
  index_from (bytes_of_string Base64UUIDAlphabet) 0 c.

(** [func (enc *Encoding) Encode(dst, src []byte)]: whole groups of three
    bytes, then the one or two bytes that remain, without padding. *)
Fixpoint Encode (src : list Z) : list Z :=
  match src with
  | b0 :: b1 :: b2 :: rest =>
      let val := b0 << 16 .| b1 << 8 .| b2 in
      enc_encode (val >> 18 .& 0x3F) :: enc_encode (val >> 12 .& 0x3F) ::
      enc_encode (val >> 6 .& 0x3F) :: enc_encode (val .& 0x3F) ::
      Encode rest
  | [b0; b1] =>
      let val := b0 << 16 .| b1 << 8 in
      [enc_encode (val >> 18 .& 0x3F); enc_encode (val >> 12 .& 0x3F);
       enc_encode (val >> 6 .& 0x3F)]
  | [b0] =>
      let val := b0 << 16 in
      [enc_encode (val >> 18 .& 0x3F); enc_encode (val >> 12 .& 0x3F)]
  | [] => []
  end.

(** The bytes [decodeQuantum] writes for the [dlen] six-bit values it has
    gathered in [dbuf]: [dlen - 1] of them. *)
Definition quantum_bytes (dbuf : list Z) : list Z :=
  let val := idx dbuf 0 << 18 .| idx dbuf 1 << 12 .| idx dbuf 2 << 6 .| idx dbuf 3 in
  firstn (length dbuf - 1) [uint8 (val >> 16); uint8 (val >> 8); uint8 (val >> 0)].

(** [func (enc *Encoding) Decode(dst, src []byte)], not strict: [si] is
    the offset of the next input byte, [dbuf] the six-bit values of the
    quantum being read.  Line breaks are skipped; any other byte outside
    the alphabet is corrupt input, and so is a quantum of one character. *)
Fixpoint Decode (src : list Z) (si : Z) (dbuf : list Z) : result (list Z) :=
  match src with
  | [] =>
      match dbuf with
      | [] => Ok []
      | [_] => Err (ErrCorruptInput (si - 1))
      | _ => Ok (quantum_bytes dbuf)
      end
  | c :: rest =>
      let out := enc_decodeMap c in
      if negb (out =? 0xFF) then
        let dbuf := dbuf ++ [out] in
        if (length dbuf =? 4)%nat then
          tail <- Decode rest (si + 1) [];;
          Ok (quantum_bytes dbuf ++ tail)
        else Decode rest (si + 1) dbuf
      else if (c =? newline) || (c =? carriage_return) then
        Decode rest (si + 1) dbuf
      else Err (ErrCorruptInput si)
  end.

Definition DecodeString (s : list Z) : result (list Z) := Decode s 0 [].

(** [func (u UUIDB64) String() string] *)
Definition UUIDB64_String (u : UUID) : String.string :=
  string_of_bytes (Encode u).

(** [func ParseB64(us string) (UUIDB64, error)] *)
Definition ParseB64 (us : String.string) : result UUID :=
  let ret := zero_UUID in
  b <- DecodeString (bytes_of_string us);;
  Ok (copy ret b).


(** ** Reading a list of digits as a number, most significant first *)

Definition digits_val (B : Z) (l : list Z) : Z :=
  fold_left (fun acc d => acc * B + d) l 0.

Definition be_val (l : list Z) : Z := digits_val 256 l.

Definition in_base (B : Z) (d : Z) : Prop := 0 <= d < B.

(** ** Instants, as the generator sees them *)

(** [t1] is not after [t2]. *)
Definition time_le (t1 t2 : time_Time) : Prop :=
  nanos_since_epoch t1 <= nanos_since_epoch t2.

(** The instants whose nanoseconds since the Unix epoch fit an [int64],
    the range in which [UnixNano] is defined. *)
Definition representable (t : time_Time) : Prop :=
  - 2 ^ 63 <= nanos_since_epoch t < 2 ^ 63.

(** ** The fields of an identifier *)

(** The high nibble of byte 6 and the top two bits of byte 8. *)
Definition version_nibble (u : UUID) : Z := idx u 6 / 2 ^ 4.
Definition variant_bits (u : UUID) : Z := idx u 8 / 2 ^ 6.

Definition conforming (u : UUID) : Prop :=
  version_nibble u = 6 /\ variant_bits u = 2.

(** The 60-bit timestamp of the first 8-byte word [hi]: its 48 high bits
    moved down by 4, its 12 low bits as they are. *)
Definition timestamp_of_word (hi : Z) : Z :=
  hi / 2 ^ 16 * 2 ^ 12 + hi mod 2 ^ 12.

(** ** Deciding a property on every index below a bound *)

Definition comparison_eqb (c d : comparison) : bool :=
  match c, d with
  | Eq, Eq | Lt, Lt | Gt, Gt => true
  | _, _ => false
  end.

(** ** The shapes of text that [Parse] is asked about *)

Definition is_ascii (b : Z) : Prop := 0 <= b < 128.

Definition is_hex (r : Z) : bool := in_string hexadecimalDigits r.

(** A space that [SkipSpace] passes over: any space but the line feed. *)
Definition is_blank (r : Z) : bool := isSpace r && negb (r =? newline).

Definition hex_runes : list Z := bytes_of_string hexadecimalDigits.

(** The value of a hexadecimal digit, either case. *)
Definition hex_digit_value (c : Z) : Z :=
  if c <=? 57 then c - 48
  else if c <=? 70 then c - 55
  else c - 87.

Definition hex_value (g : list Z) : Z :=
  digits_val 16 (map hex_digit_value g).

(** The input [SkipSpace] stops at: empty, or headed by a rune that is
    not a space. *)
Definition head_not_space (s : list Z) : Prop :=
  match s with
  | [] => True
  | r :: _ => isSpace r = false
  end.

(** Between one and [wid] hexadecimal digits. *)
Definition hex_group (wid : nat) (g : list Z) : Prop :=
  g <> [] /\ (length g <= wid)%nat /\ Forall (fun r => is_hex r = true) g.

(** Exactly [wid] hexadecimal digits. *)
Definition hex_field (wid : nat) (g : list Z) : Prop :=
  length g = wid /\ Forall (fun r => is_hex r = true) g.

(** [s] is blanks, then a group of at most [wid] digits, then [rest]. *)
Definition scan_field (wid : nat) (s rest : list Z) : Prop :=
  exists sp g,
    s = sp ++ g ++ rest /\ Forall (fun r => is_blank r = true) sp /\
    hex_group wid g.

(** What [Parse] takes: five groups of at most 8, 4, 4, 4 and 12 digits,
    each but the last followed at once by a hyphen, each after any
    blanks, and anything after the fifth. *)
Definition loose_shape (s : list Z) : Prop :=
  exists s1 s2 s3 s4 rest,
    scan_field 8 s (hyphen :: s1) /\
    scan_field 4 s1 (hyphen :: s2) /\
    scan_field 4 s2 (hyphen :: s3) /\
    scan_field 4 s3 (hyphen :: s4) /\
    scan_field 12 s4 rest.

(** The canonical shape: groups of exactly 8, 4, 4, 4 and 12 digits with
    hyphens between them and nothing else. *)
Definition exact_shape (s : list Z) : Prop :=
  exists g1 g2 g3 g4 g5,
    s = g1 ++ [hyphen] ++ g2 ++ [hyphen] ++ g3 ++ [hyphen] ++ g4 ++
        [hyphen] ++ g5 /\
    hex_field 8 g1 /\ hex_field 4 g2 /\ hex_field 4 g3 /\ hex_field 4 g4 /\
    hex_field 12 g5.

(** A lower-case hexadecimal digit. *)
Definition is_lower_hex (r : Z) : bool :=
  ((48 <=? r) && (r <=? 57)) || ((97 <=? r) && (r <=? 102)).

(** Exactly [wid] lower-case hexadecimal digits. *)
Definition lower_hex_field (wid : nat) (g : list Z) : Prop :=
  length g = wid /\ Forall (fun r => is_lower_hex r = true) g.

(** The canonical shape in lower case. *)
Definition canonical_shape (s : list Z) : Prop :=
  exists g1 g2 g3 g4 g5,
    s = g1 ++ [hyphen] ++ g2 ++ [hyphen] ++ g3 ++ [hyphen] ++ g4 ++
        [hyphen] ++ g5 /\
    lower_hex_field 8 g1 /\ lower_hex_field 4 g2 /\ lower_hex_field 4 g3 /\
    lower_hex_field 4 g4 /\ lower_hex_field 12 g5.

(** ** The adapters of [UUID]

    A call that assigns through its pointer receiver takes the receiver's
    value and returns the new one beside the error.  [Parse] and
    [ParseB64] return their zero-valued [ret] together with an error, and
    the callers below assign it. *)

Definition returned (r : result UUID) : UUID * option error :=
  match r with
  | Ok u => (u, None)
  | Err e => (zero_UUID, Some e)
  | Panic => (zero_UUID, None)
  end.

(** [func (u UUID) MarshalText() ([]byte, error)] *)
Definition UUID_MarshalText (u : UUID) : list Z * option error :=
  (bytes_of_string (UUID_String u), None).

(** [func (u *UUID) UnmarshalText(text []byte) (err error)] *)
Definition UUID_UnmarshalText (text : list Z) (u : UUID) : UUID * option error :=
  returned (Parse (string_of_bytes text)).

(** [func (u UUID) MarshalBinary() ([]byte, error)] *)
Definition UUID_MarshalBinary (u : UUID) : list Z * option error := (u, None).

(** [func (u *UUID) UnmarshalBinary(data []byte) error] *)
Definition UUID_UnmarshalBinary (data : list Z) (u : UUID) : UUID * option error :=
  (copy u data, None).

(** [func (u UUID) MarshalJSON() ([]byte, error)] *)
Definition UUID_MarshalJSON (u : UUID) : list Z * option error :=
  ([34] ++ bytes_of_string (UUID_String u) ++ [34], None).

(** [func (u UUID) Bytes() []byte], [HighBytes] and [LowBytes] *)
Definition UUID_Bytes (u : UUID) : list Z := u.
Definition UUID_HighBytes (u : UUID) : list Z := slice 0 8 u.
Definition UUID_LowBytes (u : UUID) : list Z := slice_from 8 u.

(** A [driver.Value], and any other value [Scan] can be handed: only
    its dynamic type matters below. *)
Inductive driver_Value : Type :=
| VNil
| VInt64 (i : Z)
| VFloat64
| VBool (b : bool)
| VBytes (b : list Z)
| VString (s : String.string)
| VTime (t : time_Time).

Inductive scan_error : Type :=
| ScanCannotConvert (v : driver_Value)
| ScanParse (e : error).

(** [func (u UUID) Value() (driver.Value, error)] *)
Definition UUID_Value (u : UUID) : driver_Value * option scan_error :=
  (VBytes u, None).

(** [func (u *UUID) Scan(value interface{}) error] *)
Definition UUID_Scan (value : driver_Value) (u : UUID) : UUID * option scan_error :=
  match value with
  | VBytes v => (copy u v, None)
  | _ => (u, Some (ScanCannotConvert value))
  end.

(** msgpack: [ExtensionType], [Len] and [MarshalBinaryTo] *)
Definition UUID_ExtensionType (u : UUID) : Z := 99.
Definition UUID_Len (u : UUID) : nat := length u.
Definition UUID_MarshalBinaryTo (b : list Z) (u : UUID) : list Z * option error :=
  (copy b u, None).

(** ** The adapters of [UUIDB64] *)

Definition UUIDB64_MarshalText (u : UUID) : list Z * option error :=
  (bytes_of_string (UUIDB64_String u), None).

Definition UUIDB64_UnmarshalText (text : list Z) (u : UUID) : UUID * option error :=
  returned (ParseB64 (string_of_bytes text)).

Definition UUIDB64_MarshalBinary (u : UUID) : list Z * option error := (u, None).

Definition UUIDB64_UnmarshalBinary (data : list Z) (u : UUID) : UUID * option error :=
  (copy u data, None).

Definition UUIDB64_MarshalJSON (u : UUID) : list Z * option error :=
  ([34] ++ bytes_of_string (UUIDB64_String u) ++ [34], None).

(** [func (u UUIDB64) Value() (driver.Value, error)] *)
Definition UUIDB64_Value (u : UUID) : driver_Value * option scan_error :=
  (VBytes (bytes_of_string (UUIDB64_String u)), None).

(** [func (u *UUIDB64) Scan(value interface{}) error]: the receiver is
    assigned only after a parse without error. *)
Definition UUIDB64_Scan (value : driver_Value) (u : UUID) : UUID * option scan_error :=
  match value with
  | VBytes v =>
      match ParseB64 (string_of_bytes v) with
      | Ok u2 => (u2, None)
      | Err e => (u, Some (ScanParse e))
      | Panic => (u, None)
      end
  | VString v =>
      match ParseB64 v with
      | Ok u2 => (u2, None)
      | Err e => (u, Some (ScanParse e))
      | Panic => (u, None)
      end
  | _ => (u, Some (ScanCannotConvert value))
  end.

Definition UUIDB64_Bytes (u : UUID) : list Z := u.
Definition UUIDB64_IsNil (u : UUID) : bool := UUID_IsNil u.
Definition UUIDB64_Time (u : UUID) : time_Time := UUID_Time u.

(** [func NewB64FromTime(t time.Time) UUIDB64] *)
Definition NewB64FromTime (t : time_Time) (r : rand_outcome) (g : Generator)
  : UUID * Generator :=
  NewFromTime t r g.

(** ** sort.Interface on the two slice types *)

Definition UUIDSlice_Len (s : list UUID) : nat := length s.

(** [s[i], s[j] = s[j], s[i]]; an index outside the slice panics. *)
Definition UUIDSlice_Swap (s : list UUID) (i j : nat) : result (list UUID) :=
  match nth_error s i, nth_error s j with
  | Some a, Some b =>
      let s1 := firstn i s ++ b :: skipn (S i) s in
      Ok (firstn j s1 ++ a :: skipn (S j) s1)
  | _, _ => Panic
  end.

(** ** The upstream revision of the package

    [Parse] scans into five [uint64]; [NewFromTime] always takes the
    stored node; [RandomizeNode] and [init] do not look at the error of
    [rand.Read], so what they are given is the buffer as the read left
    it. *)

Definition Parse_runes_upstream (s : list Z) : result UUID :=
  let ret := zero_UUID in
  p1 <- scan_verb 8 64 s;;
  s <- advance hyphen (snd p1);;
  p2 <- scan_verb 4 64 s;;
  s <- advance hyphen (snd p2);;
  p3 <- scan_verb 4 64 s;;
  s <- advance hyphen (snd p3);;
  p4 <- scan_verb 4 64 s;;
  s <- advance hyphen (snd p4);;
  p5 <- scan_verb 12 64 s;;
  let v1 := fst p1 in
  let v2 := fst p2 in
  let v3 := fst p3 in
  let v4 := fst p4 in
  let v5 := fst p5 in
  let ret := store ret 8 (PutUint64 v5) in
  let ret := store ret 8 (PutUint16 (uint16 v4)) in
  let ret := store ret 6 (PutUint16 (uint16 v3)) in
  let ret := store ret 4 (PutUint16 (uint16 v2)) in
  let ret := store ret 0 (PutUint32 (uint32 v1)) in
  Ok ret.

Definition Parse_upstream (us : String.string) : result UUID :=
  Parse_runes_upstream (runes (bytes_of_string us)).

Record Generator_upstream : Type := mkGenerator_upstream {
  lastts_upstream : Z;
  clockseq_upstream : Z;
  node_upstream : Z
}.

Definition NewFromTime_upstream (t : time_Time) (g : Generator_upstream)
  : UUID * Generator_upstream :=
  let tsval := tstime t in
  let clockseq1 :=
    if lastts_upstream g >=? tsval then uint32 (clockseq_upstream g + 1)
    else clockseq_upstream g in
  let g1 := mkGenerator_upstream tsval clockseq1 (node_upstream g) in
  let cs := clockseq1 in
  let ret := zero_UUID in
  let hi :=
    (uint64 (tsval << 4) .& 0xFFFFFFFFFFFF0000) .| (tsval .& 0x0FFF) .| 0x6000 in
  let lo :=
    uint64 (0x8000 << 48) .| uint64 ((cs .& 0x3fff) << 48) .| node_upstream g1 in
  let ret := store ret 0 (PutUint64 hi) in
  let ret := store ret 8 (PutUint64 lo) in
  (ret, g1).

Definition RandomizeNode_upstream (b : list Z) (g : Generator_upstream)
  : Generator_upstream :=
  mkGenerator_upstream (lastts_upstream g) (clockseq_upstream g)
    ((Uint64 (slice 0 8 b) .& 0x0000FFFFFFFFFFFF) .| 0x0000010000000000).

(** The first hardware address of at least 6 bytes sets the node and
    ends the loop. *)
Fixpoint mac_node_upstream (ifs : list (list Z)) (node0 : Z) : Z :=
  match ifs with
  | [] => node0
  | hw :: rest =>
      if (6 <=? length hw)%nat then
        uint64 (Uint16 (slice 0 2 hw) << 32) .| Uint32 (slice 2 6 hw)
      else mac_node_upstream rest node0
  end.

Definition init_upstream (b1 : list Z) (ifs : list (list Z)) (b2 : list Z)
  : Generator_upstream :=
  let clockseq0 := Uint32 (slice 0 4 b1) in
  let node0 := mac_node_upstream ifs 0 in
  let g := mkGenerator_upstream 0 clockseq0 node0 in
  if node0 =? 0 then RandomizeNode_upstream b2 g else g.

(** ** Shapes and orders used to state properties *)

(** The lower-case form of a hexadecimal digit. *)
Definition to_lower_hex (c : Z) : Z :=
  if (65 <=? c) && (c <=? 70) then c + 32 else c.

(** Every byte of [s] is in the base-64 alphabet. *)
Definition in_alphabet (c : Z) : bool := negb (enc_decodeMap c =? 0xFF).

(** The offset of the first byte of [s] that is neither in the alphabet
    nor a line break, counted from [i]. *)
Fixpoint first_corrupt (s : list Z) (i : Z) : option Z :=
  match s with
  | [] => None
  | c :: rest =>
      if in_alphabet c || (c =? newline) || (c =? carriage_return)
      then first_corrupt rest (i + 1)
      else Some i
  end.

(** The number of bytes of [s] that are in the alphabet. *)
Definition count_alphabet (s : list Z) : nat := length (filter in_alphabet s).

(** The state of the upstream revision that a state of this one stands
    for: the same clock and node, no always-randomize flag. *)
Definition to_upstream (g : Generator) : Generator_upstream :=
  mkGenerator_upstream (lastts g) (clockseq g) (node g).

(** * Properties *)

(** ** Bit operations as arithmetic *)

Lemma lor_lo_hi (lo hi k : Z) :
  0 <= k -> 0 <= lo < 2 ^ k -> lo .| hi * 2 ^ k = lo + hi * 2 ^ k.
Proof.
  intros Hk Hlo. apply Z.or_to_plus.
  rewrite <- (Z.mod_small lo (2 ^ k)) by lia.
  rewrite <- Z.shiftl_mul_pow2 by lia.
  Z.bitblast. subst l. rewrite (Z.testbit_neg_r hi) by lia.
  now rewrite andb_false_r.
Qed.

Lemma lor_hi_lo (lo hi k : Z) :
  0 <= k -> 0 <= lo < 2 ^ k -> hi * 2 ^ k .| lo = hi * 2 ^ k + lo.
Proof. intros. rewrite Z.lor_comm, lor_lo_hi by lia. lia. Qed.

Ltac lor_to_add :=
  repeat match goal with
         | |- context [?x .| ?a * 2 ^ ?k] => rewrite (lor_lo_hi x a k) by lia
         | |- context [?a * 2 ^ ?k .| ?x] => rewrite (lor_hi_lo x a k) by lia
         end.

Lemma is_byte_uint8 v : is_byte (uint8 v).
Proof. unfold is_byte, uint8. apply Z.mod_pos_bound. lia. Qed.

Lemma Forall_is_byte_PutUint64 v : Forall is_byte (PutUint64 v).
Proof. unfold PutUint64. repeat constructor; apply is_byte_uint8. Qed.

Lemma Forall_is_byte_PutUint32 v : Forall is_byte (PutUint32 v).
Proof. unfold PutUint32. repeat constructor; apply is_byte_uint8. Qed.

Lemma Forall_is_byte_PutUint16 v : Forall is_byte (PutUint16 v).
Proof. unfold PutUint16. repeat constructor; apply is_byte_uint8. Qed.

(** ** Digit lists and their values *)

Section Digits.
Variable B : Z.
Hypothesis B_pos : 1 < B.

Lemma digits_val_from acc l :
  fold_left (fun a d => a * B + d) l acc =
  acc * B ^ Z.of_nat (length l) + digits_val B l.
Proof.
  unfold digits_val. revert acc.
  induction l as [|d l IH]; intros acc; cbn [fold_left length].
  - cbn. lia.
  - rewrite IH, (IH (0 * B + d)), Nat2Z.inj_succ, Z.pow_succ_r by lia. lia.
Qed.

Lemma digits_val_cons d l :
  digits_val B (d :: l) = d * B ^ Z.of_nat (length l) + digits_val B l.
Proof.
  unfold digits_val at 1. cbn [fold_left]. rewrite digits_val_from. lia.
Qed.

Lemma digits_val_app l1 l2 :
  digits_val B (l1 ++ l2) =
  digits_val B l1 * B ^ Z.of_nat (length l2) + digits_val B l2.
Proof.
  unfold digits_val at 1 2. rewrite fold_left_app. apply digits_val_from.
Qed.

Lemma digits_val_bound l :
  Forall (in_base B) l -> 0 <= digits_val B l < B ^ Z.of_nat (length l).
Proof.
  induction 1 as [|d l Hd Hl IH].
  - cbn. lia.
  - rewrite digits_val_cons. cbn [length].
    rewrite Nat2Z.inj_succ, Z.pow_succ_r by lia.
    unfold in_base in Hd.
    assert (0 < B ^ Z.of_nat (length l)) by (apply Z.pow_pos_nonneg; lia).
    nia.
Qed.

(** Lexicographic order on digit lists of one length is the order of
    the numbers they denote. *)
Lemma bytes_Compare_digits a :
  forall b, length a = length b ->
  Forall (in_base B) a -> Forall (in_base B) b ->
  bytes_Compare a b = (digits_val B a ?= digits_val B b).
Proof.
  induction a as [|x a IH]; intros [|y b] Hlen Ha Hb;
    try discriminate Hlen.
  - reflexivity.
  - inversion Ha as [|? ? Hx Ha']; inversion Hb as [|? ? Hy Hb']; subst.
    cbn [bytes_Compare]. rewrite !digits_val_cons.
    injection Hlen as Hlen. rewrite <- Hlen.
    pose proof (digits_val_bound a Ha') as Ba.
    pose proof (digits_val_bound b Hb') as Bb.
    rewrite <- Hlen in Bb.
    set (P := B ^ Z.of_nat (length a)) in *.
    destruct (Z.compare_spec x y) as [-> | Hlt | Hgt].
    + rewrite (IH b) by assumption.
      destruct (Z.compare_spec (digits_val B a) (digits_val B b));
        symmetry; [apply Z.compare_eq_iff | apply Z.compare_lt_iff
                  | apply Z.compare_gt_iff]; lia.
    + symmetry. apply Z.compare_lt_iff. nia.
    + symmetry. apply Z.compare_gt_iff. nia.
Qed.
End Digits.

Lemma bytes_Compare_refl a : bytes_Compare a a = Eq.
Proof.
  induction a as [|x a IH]; cbn; [reflexivity|].
  now rewrite Z.compare_refl.
Qed.

Lemma bytes_Compare_eq a : forall b, bytes_Compare a b = Eq -> a = b.
Proof.
  induction a as [|x a IH]; intros [|y b]; cbn; try discriminate; auto.
  destruct (Z.compare_spec x y); try discriminate.
  intros H1. subst. f_equal. auto.
Qed.

Lemma bytes_Compare_app a1 :
  forall b1 a2 b2, length a1 = length b1 ->
  bytes_Compare (a1 ++ a2) (b1 ++ b2) =
  match bytes_Compare a1 b1 with
  | Eq => bytes_Compare a2 b2
  | c => c
  end.
Proof.
  induction a1 as [|x a1 IH]; intros [|y b1] a2 b2 Hlen;
    try discriminate Hlen; cbn [app bytes_Compare].
  - reflexivity.
  - destruct (x ?= y); auto.
Qed.

Lemma in_base_256 b : in_base 256 b <-> is_byte b.
Proof. reflexivity. Qed.

Lemma bytes_Compare_be_val a b :
  length a = length b -> Forall is_byte a -> Forall is_byte b ->
  bytes_Compare a b = (be_val a ?= be_val b).
Proof. intros. apply bytes_Compare_digits; auto; lia. Qed.

Lemma be_val_inj a b :
  length a = length b -> Forall is_byte a -> Forall is_byte b ->
  be_val a = be_val b -> a = b.
Proof.
  intros Hl Ha Hb Hv. apply bytes_Compare_eq.
  rewrite bytes_Compare_be_val, Hv by assumption. apply Z.compare_refl.
Qed.

(** ** Big-endian words *)

Lemma Uint64_be_val b0 b1 b2 b3 b4 b5 b6 b7 :
  Forall is_byte [b0; b1; b2; b3; b4; b5; b6; b7] ->
  Uint64 [b0; b1; b2; b3; b4; b5; b6; b7] =
  be_val [b0; b1; b2; b3; b4; b5; b6; b7].
Proof.
  intros H. repeat (apply Forall_cons_iff in H; destruct H as [? H]).
  unfold is_byte in *.
  unfold Uint64, idx, be_val, digits_val; cbn [nth fold_left].
  rewrite !Z.shiftl_mul_pow2 by lia.
  lor_to_add. lia.
Qed.

Lemma Uint32_be_val b0 b1 b2 b3 :
  Forall is_byte [b0; b1; b2; b3] ->
  Uint32 [b0; b1; b2; b3] = be_val [b0; b1; b2; b3].
Proof.
  intros H. repeat (apply Forall_cons_iff in H; destruct H as [? H]).
  unfold is_byte in *.
  unfold Uint32, idx, be_val, digits_val; cbn [nth fold_left].
  rewrite !Z.shiftl_mul_pow2 by lia.
  lor_to_add. lia.
Qed.

Lemma Uint16_be_val b0 b1 :
  Forall is_byte [b0; b1] -> Uint16 [b0; b1] = be_val [b0; b1].
Proof.
  intros H. repeat (apply Forall_cons_iff in H; destruct H as [? H]).
  unfold is_byte in *.
  unfold Uint16, idx, be_val, digits_val; cbn [nth fold_left].
  rewrite !Z.shiftl_mul_pow2 by lia.
  lor_to_add. lia.
Qed.

Lemma be_val_PutUint64 v : 0 <= v < 2 ^ 64 -> be_val (PutUint64 v) = v.
Proof.
  intros. unfold PutUint64, uint8, be_val, digits_val; cbn [fold_left].
  rewrite !Z.shiftr_div_pow2 by lia.
  Z.div_mod_to_equations; lia.
Qed.

Lemma be_val_PutUint32 v : 0 <= v < 2 ^ 32 -> be_val (PutUint32 v) = v.
Proof.
  intros. unfold PutUint32, uint8, be_val, digits_val; cbn [fold_left].
  rewrite !Z.shiftr_div_pow2 by lia.
  Z.div_mod_to_equations; lia.
Qed.

Lemma be_val_PutUint16 v : 0 <= v < 2 ^ 16 -> be_val (PutUint16 v) = v.
Proof.
  intros. unfold PutUint16, uint8, be_val, digits_val; cbn [fold_left].
  rewrite !Z.shiftr_div_pow2 by lia.
  Z.div_mod_to_equations; lia.
Qed.

Lemma be_val_bound l :
  Forall is_byte l -> 0 <= be_val l < 256 ^ Z.of_nat (length l).
Proof. intros. apply digits_val_bound; auto; lia. Qed.

(** A list of exactly [n] elements, opened into its elements. *)
Ltac open_list l H :=
  repeat (destruct l as [|? l]; [discriminate H|]);
  destruct l; [|discriminate H]; clear H.

Lemma PutUint64_Uint64 b :
  length b = 8%nat -> Forall is_byte b -> PutUint64 (Uint64 b) = b.
Proof.
  intros Hlen Hb. open_list b Hlen.
  apply be_val_inj; auto using Forall_is_byte_PutUint64.
  rewrite Uint64_be_val by assumption.
  apply be_val_PutUint64.
  pose proof (be_val_bound _ Hb) as Hr. cbn [length] in Hr. lia.
Qed.

Lemma Uint64_PutUint64 v : 0 <= v < 2 ^ 64 -> Uint64 (PutUint64 v) = v.
Proof.
  intros. unfold PutUint64.
  rewrite Uint64_be_val by apply Forall_is_byte_PutUint64.
  now apply be_val_PutUint64.
Qed.

Lemma Uint64_range b :
  length b = 8%nat -> Forall is_byte b -> 0 <= Uint64 b < 2 ^ 64.
Proof.
  intros Hlen Hb. open_list b Hlen.
  rewrite Uint64_be_val by assumption.
  pose proof (be_val_bound _ Hb) as Hr. cbn [length] in Hr. lia.
Qed.

Lemma bytes_Compare_PutUint64 x y :
  0 <= x < 2 ^ 64 -> 0 <= y < 2 ^ 64 ->
  bytes_Compare (PutUint64 x) (PutUint64 y) = (x ?= y).
Proof.
  intros. rewrite bytes_Compare_be_val
    by auto using Forall_is_byte_PutUint64.
  now rewrite !be_val_PutUint64.
Qed.
(** ** ParseBytes *)

Lemma Forall_firstn {A} (P : A -> Prop) n l : Forall P l -> Forall P (firstn n l).
Proof.
  intros H. rewrite <- (firstn_skipn n l) in H.
  now apply Forall_app in H.
Qed.

Lemma Forall_skipn {A} (P : A -> Prop) n l : Forall P l -> Forall P (skipn n l).
Proof.
  intros H. rewrite <- (firstn_skipn n l) in H.
  now apply Forall_app in H.
Qed.

Lemma Uint64_firstn l : Uint64 l = Uint64 (firstn 8 l).
Proof.
  unfold Uint64, idx.
  do 8 (destruct l as [|? l]; [reflexivity|]). reflexivity.
Qed.

Lemma ParseBytes_ge_16 bs :
  Forall is_byte bs -> (16 <= length bs)%nat ->
  ParseBytes bs = Ok (firstn 16 bs).
Proof.
  intros Hb Hlen. unfold ParseBytes, slice_from, slice.
  destruct (Nat.ltb_spec (length bs) 8); [lia|].
  destruct (Nat.ltb_spec (length (skipn 8 bs)) 8) as [Hs|_];
    [rewrite length_skipn in Hs; lia|].
  rewrite (Uint64_firstn (skipn 8 bs)).
  change (skipn 0 bs) with bs.
  rewrite !PutUint64_Uint64.
  - f_equal.
    do 16 (destruct bs as [|? bs]; [cbn in Hlen; lia|]). reflexivity.
  - rewrite length_firstn. lia.
  - apply Forall_firstn. exact Hb.
  - rewrite length_firstn, length_skipn. lia.
  - apply Forall_firstn, Forall_skipn. exact Hb.
Qed.

Lemma ParseBytes_lt_16 bs : (length bs < 16)%nat -> ParseBytes bs = Panic.
Proof.
  intros Hlen. unfold ParseBytes, slice_from.
  destruct (Nat.ltb_spec (length bs) 8); [reflexivity|].
  destruct (Nat.ltb_spec (length (skipn 8 bs)) 8) as [_|Hs]; [reflexivity|].
  rewrite length_skipn in Hs. lia.
Qed.

(** C6, as the specification has it, fails: a slice of 17 bytes is not
    rejected, its first 16 bytes come back with a nil error. *)
Lemma ParseBytes_long_input_accepted :
  let bs := [1; 2; 3; 4; 5; 6; 7; 8; 9; 10; 11; 12; 13; 14; 15; 16; 17] in
  length bs <> 16%nat /\
  ParseBytes bs = Ok [1; 2; 3; 4; 5; 6; 7; 8; 9; 10; 11; 12; 13; 14; 15; 16] /\
  forall e, ParseBytes bs <> Err e.
Proof. cbv zeta. split; [|split]; [cbn; lia | reflexivity | discriminate]. Qed.

(** C6, amended: ParseBytes makes no length check and never returns an
    error.  Sixteen bytes come back verbatim; of a longer slice the first
    sixteen bytes come back; on a shorter slice the call panics. *)
Theorem ParseBytes_no_length_check (bs : list Z) :
  Forall is_byte bs ->
  ParseBytes bs = (if (16 <=? length bs)%nat then Ok (firstn 16 bs) else Panic) /\
  (length bs = 16%nat -> ParseBytes bs = Ok bs) /\
  (forall e, ParseBytes bs <> Err e).
Proof.
  intros Hb.
  assert (E : ParseBytes bs =
              if (16 <=? length bs)%nat then Ok (firstn 16 bs) else Panic).
  { destruct (Nat.leb_spec 16 (length bs)).
    - now apply ParseBytes_ge_16.
    - now apply ParseBytes_lt_16. }
  split; [exact E|split].
  - intros Hlen. rewrite E, Hlen. cbn [Nat.leb].
    now rewrite <- Hlen, firstn_all.
  - intros e. rewrite E. destruct (16 <=? length bs)%nat; discriminate.
Qed.

Lemma ParseBytes_no_length_check_witness :
  let bs := [30; 192; 69; 14; 90; 100; 108; 160; 128; 252; 171; 214; 165;
             205; 182; 22] in
  Forall is_byte bs /\ ParseBytes bs = Ok bs.
Proof.
  cbv zeta. split.
  - repeat constructor; unfold is_byte; lia.
  - apply (ParseBytes_no_length_check
             [30; 192; 69; 14; 90; 100; 108; 160; 128; 252; 171; 214; 165;
              205; 182; 22]).
    + repeat constructor; unfold is_byte; lia.
    + reflexivity.
Defined.

(** ** The comparators *)

Lemma wf_UUID_slice_0_8 u :
  wf_UUID u -> length (slice 0 8 u) = 8%nat /\ Forall is_byte (slice 0 8 u).
Proof.
  intros [Hlen Hb]. unfold slice. change (skipn 0 u) with u. split.
  - rewrite length_firstn. lia.
  - now apply Forall_firstn.
Qed.

Lemma wf_UUID_slice_8_16 u :
  wf_UUID u -> length (slice 8 16 u) = 8%nat /\ Forall is_byte (slice 8 16 u).
Proof.
  intros [Hlen Hb]. unfold slice. split.
  - rewrite length_firstn, length_skipn. lia.
  - now apply Forall_firstn, Forall_skipn.
Qed.

Lemma wf_UUID_halves u :
  wf_UUID u -> u = slice 0 8 u ++ slice 8 16 u.
Proof.
  intros [Hlen Hb]. open_list u Hlen. reflexivity.
Qed.

Lemma Uint64_compare_slices a b :
  length a = 8%nat -> Forall is_byte a ->
  length b = 8%nat -> Forall is_byte b ->
  (Uint64 a ?= Uint64 b) = bytes_Compare a b.
Proof.
  intros La Ha Lb Hb.
  rewrite bytes_Compare_be_val by (assumption || congruence).
  open_list a La. open_list b Lb.
  now rewrite !Uint64_be_val.
Qed.

(** C3, as the specification has it, fails: [Compare] does not order by
    all 16 bytes.  The two identifiers below differ in their last byte
    only; [Compare] holds in both directions, the order of the whole
    value is strict. *)
Lemma Compare_ignores_low_bytes :
  let a := [0; 0; 0; 0; 0; 0; 0; 0; 0; 0; 0; 0; 0; 0; 0; 1] in
  let b := [0; 0; 0; 0; 0; 0; 0; 0; 0; 0; 0; 0; 0; 0; 0; 0] in
  UUID_Compare a b = true /\ UUID_Compare b a = true /\
  bytes_Compare a b = Gt.
Proof. cbv zeta. repeat split. Qed.

(** C3, amended: [UUID.Compare] orders by the first 8 bytes only (the
    timestamp word, with [<=]), as does [UUIDSlice.Less] (with [<]); the
    order over all 16 bytes is [UUIDB64Slice.Less].  They are distinct
    operations: identifiers that share their first 8 bytes are
    [Compare]-related both ways and never [UUIDSlice.Less], whatever the
    order of the whole values. *)
Theorem comparators_full_and_timestamp_word (s : list UUID) (i j : nat) (a b : UUID) :
  nth_error s i = Some a -> nth_error s j = Some b ->
  wf_UUID a -> wf_UUID b ->
  (UUID_Compare a b = true <->
     bytes_Compare (slice 0 8 a) (slice 0 8 b) <> Gt) /\
  UUIDSlice_Less s i j =
     Ok (is_Lt (bytes_Compare (slice 0 8 a) (slice 0 8 b))) /\
  UUIDB64Slice_Less s i j = Ok (be_val a <? be_val b) /\
  (slice 0 8 a = slice 0 8 b ->
     UUID_Compare a b = true /\ UUID_Compare b a = true /\
     UUIDSlice_Less s i j = Ok false /\
     UUIDB64Slice_Less s i j =
       Ok (is_Lt (bytes_Compare (slice 8 16 a) (slice 8 16 b)))).
Proof.
  intros Hi Hj Ha Hb.
  destruct (wf_UUID_slice_0_8 a Ha) as [La Ba].
  destruct (wf_UUID_slice_0_8 b Hb) as [Lb Bb].
  pose proof (Uint64_compare_slices _ _ La Ba Lb Bb) as Hc.
  assert (Hfull : is_Lt (bytes_Compare a b) = (be_val a <? be_val b)).
  { destruct Ha as [Hla Hba], Hb as [Hlb Hbb].
    rewrite bytes_Compare_be_val by (assumption || congruence).
    unfold Z.ltb. now destruct (be_val a ?= be_val b). }
  unfold UUID_Compare, UUIDSlice_Less, UUIDB64Slice_Less.
  rewrite Hi, Hj, <- Hc.
  split; [|split; [|split]].
  - rewrite Z.leb_le. symmetry. apply Z.compare_le_iff.
  - reflexivity.
  - now rewrite Hfull.
  - intros H. rewrite H, Z.leb_refl, Z.ltb_irrefl.
    split; [reflexivity|split; [reflexivity|split; [reflexivity|]]].
    f_equal.
    rewrite (wf_UUID_halves a Ha) at 1. rewrite (wf_UUID_halves b Hb) at 1.
    rewrite bytes_Compare_app by congruence.
    rewrite H. now rewrite bytes_Compare_refl.
Qed.

Lemma comparators_full_and_timestamp_word_witness :
  let a := [0; 0; 0; 0; 0; 0; 0; 0; 0; 0; 0; 0; 0; 0; 0; 1] in
  let b := [0; 0; 0; 0; 0; 0; 0; 0; 0; 0; 0; 0; 0; 0; 0; 0] in
  UUID_Compare a b = true /\ UUID_Compare b a = true /\
  UUIDSlice_Less [a; b] 1 0 = Ok false /\
  UUIDB64Slice_Less [a; b] 1 0 = Ok true.
Proof.
  cbv zeta.
  pose proof (comparators_full_and_timestamp_word
    [[0; 0; 0; 0; 0; 0; 0; 0; 0; 0; 0; 0; 0; 0; 0; 1];
     [0; 0; 0; 0; 0; 0; 0; 0; 0; 0; 0; 0; 0; 0; 0; 0]] 1 0
    [0; 0; 0; 0; 0; 0; 0; 0; 0; 0; 0; 0; 0; 0; 0; 0]
    [0; 0; 0; 0; 0; 0; 0; 0; 0; 0; 0; 0; 0; 0; 0; 1]
    eq_refl eq_refl) as H.
  destruct H as (_ & _ & _ & H).
  - split; [reflexivity|]. repeat constructor; unfold is_byte; lia.
  - split; [reflexivity|]. repeat constructor; unfold is_byte; lia.
  - destruct (H eq_refl) as (H1 & H2 & H3 & H4).
    repeat split; assumption.
Defined.

(** ** Node *)

(** C9: the sample identifier parses, and its node is 188938393073174, the
    big-endian value of bytes 10 to 15. *)
Theorem Parse_sample_node :
  exists u,
    Parse "1ec0450e-5a64-6ca0-80fc-abd6a5cdb616" = Ok u /\
    UUID_Node u = 188938393073174 /\
    be_val (slice 10 16 u) = 188938393073174.
Proof.
  exists [30; 192; 69; 14; 90; 100; 108; 160; 128; 252; 171; 214; 165; 205;
          182; 22].
  repeat split; vm_compute; reflexivity.
Qed.
(** ** The generator *)

Lemma land_ones_mod a k (c : Z) :
  0 <= k -> c = Z.ones k -> a .& c = a mod 2 ^ k.
Proof. intros Hk ->. now apply Z.land_ones. Qed.

Lemma land_0xFFF a : a .& 0x0FFF = a mod 2 ^ 12.
Proof. now apply (land_ones_mod a 12). Qed.

Lemma land_0x3fff a : a .& 0x3fff = a mod 2 ^ 14.
Proof. now apply (land_ones_mod a 14). Qed.

Lemma land_48 a : a .& 0x0000FFFFFFFFFFFF = a mod 2 ^ 48.
Proof. now apply (land_ones_mod a 48). Qed.

Lemma testbit_high x n i :
  0 <= x < 2 ^ n -> 0 <= n <= i -> Z.testbit x i = false.
Proof.
  intros Hx Hn. rewrite <- (Z.mod_small x (2 ^ n)) by lia.
  apply Z.mod_pow2_bits_high. lia.
Qed.

Lemma land_shifted_ones x n k :
  0 <= k -> 0 <= n -> 0 <= x < 2 ^ (n + k) ->
  x .& (Z.ones n << k) = x / 2 ^ k * 2 ^ k.
Proof.
  intros Hk Hn Hx.
  rewrite <- Z.shiftl_mul_pow2, <- Z.shiftr_div_pow2 by lia.
  apply Z.bits_inj'. intros i Hi.
  rewrite Z.land_spec, !Z.shiftl_spec by lia.
  destruct (Z.lt_ge_cases i k) as [Hlt|Hge].
  - rewrite !(Z.testbit_neg_r _ (i - k)) by lia. apply andb_false_r.
  - rewrite Z.shiftr_spec by lia.
    replace (i - k + k) with i by lia.
    rewrite Z.testbit_ones_nonneg by lia.
    destruct (Z.ltb_spec (i - k) n).
    + apply andb_true_r.
    + rewrite (testbit_high x (n + k) i) by lia. reflexivity.
Qed.

Lemma land_high48 x :
  0 <= x < 2 ^ 64 -> x .& 0xFFFFFFFFFFFF0000 = x / 2 ^ 16 * 2 ^ 16.
Proof. intros. now apply (land_shifted_ones x 48 16). Qed.

Lemma land_high52 x :
  0 <= x < 2 ^ 64 -> x .& 0xFFFFFFFFFFFFF000 = x / 2 ^ 12 * 2 ^ 12.
Proof. intros. now apply (land_shifted_ones x 52 12). Qed.

Lemma land_0xF0 b : is_byte b -> b .& 0xF0 = b / 2 ^ 4 * 2 ^ 4.
Proof. intros. now apply (land_shifted_ones b 4 4). Qed.

Lemma land_0xC0 b : is_byte b -> b .& 0xC0 = b / 2 ^ 6 * 2 ^ 6.
Proof. intros. now apply (land_shifted_ones b 2 6). Qed.

(** The timestamp word of a new identifier: the 48 high bits of the
    timestamp, the version, the 12 low bits. *)
Lemma hi_word_arith ts :
  0 <= ts < 2 ^ 60 ->
  (uint64 (ts << 4) .& 0xFFFFFFFFFFFF0000) .| (ts .& 0x0FFF) .| 0x6000 =
  ts / 2 ^ 12 * 2 ^ 16 + 6 * 2 ^ 12 + ts mod 2 ^ 12.
Proof.
  intros Hts. unfold uint64.
  rewrite Z.shiftl_mul_pow2 by lia.
  rewrite Z.mod_small by lia.
  rewrite land_high48 by lia. rewrite land_0xFFF.
  replace (ts * 2 ^ 4 / 2 ^ 16) with (ts / 2 ^ 12)
    by (Z.div_mod_to_equations; lia).
  assert (0 <= ts mod 2 ^ 12 < 2 ^ 12) by (apply Z.mod_pos_bound; lia).
  rewrite lor_hi_lo by lia.
  rewrite Z.lor_comm.
  change 0x6000 with (6 * 2 ^ 12).
  replace (ts / 2 ^ 12 * 2 ^ 16 + ts mod 2 ^ 12)
    with (ts mod 2 ^ 12 + (ts / 2 ^ 12 * 2 ^ 4) * 2 ^ 12) by lia.
  set (q := ts / 2 ^ 12 * 2 ^ 4).
  rewrite <- (lor_lo_hi _ q 12) by lia.
  rewrite Z.lor_assoc, (Z.lor_comm (6 * 2 ^ 12)).
  rewrite <- Z.lor_assoc.
  assert (Hq : 6 * 2 ^ 12 .| q * 2 ^ 12 = (6 + q) * 2 ^ 12).
  { rewrite <- !Z.shiftl_mul_pow2 by lia. rewrite <- Z.shiftl_lor.
    f_equal. unfold q. rewrite Z.lor_comm.
    change 6 with 6 at 1. rewrite lor_hi_lo by lia. lia. }
  rewrite Hq, lor_lo_hi by lia. unfold q. lia.
Qed.

Lemma lor_bound a b n :
  0 <= n -> 0 <= a < 2 ^ n -> 0 <= b < 2 ^ n -> 0 <= a .| b < 2 ^ n.
Proof.
  intros Hn Ha Hb. split; [apply Z.lor_nonneg; lia|].
  destruct (Z.eq_dec a 0) as [->|Ha0]; [rewrite Z.lor_0_l; lia|].
  destruct (Z.eq_dec b 0) as [->|Hb0]; [rewrite Z.lor_0_r; lia|].
  assert (0 < a .| b).
  { assert (0 <= a .| b) by (apply Z.lor_nonneg; lia).
    assert (a .| b <> 0) by (rewrite Z.lor_eq_0_iff; tauto). lia. }
  apply Z.log2_lt_pow2; [assumption|].
  rewrite Z.log2_lor by lia.
  apply Z.max_lub_lt; apply Z.log2_lt_pow2; lia.
Qed.

Lemma getRandomNode_range r : 0 <= getRandomNode r < 2 ^ 48.
Proof.
  destruct r as [b|]; cbn [getRandomNode]; [|lia].
  rewrite land_48. apply lor_bound; [lia| |lia].
  apply Z.mod_pos_bound. lia.
Qed.

Lemma UnixNano_range t : - 2 ^ 63 <= UnixNano t < 2 ^ 63.
Proof.
  unfold UnixNano, int64.
  pose proof (Z.mod_pos_bound
    (unixSec t * 1000000000 + nsec t + 2 ^ 63) (2 ^ 64)) as H.
  lia.
Qed.

Lemma tstime_eq t : tstime t = tsoff + Z.quot (UnixNano t) 100.
Proof.
  pose proof (UnixNano_range t) as Hr.
  unfold tstime, uint64, tsoff. rewrite Zplus_mod_idemp_r.
  apply Z.mod_small.
  pose proof (Z.quot_rem' (UnixNano t) 100) as E.
  pose proof (Z.rem_bound_abs (UnixNano t) 100) as Hb.
  lia.
Qed.

Lemma tstime_range t : 0 < tstime t < 2 ^ 58.
Proof.
  rewrite tstime_eq. pose proof (UnixNano_range t) as Hr.
  pose proof (Z.quot_rem' (UnixNano t) 100) as E.
  pose proof (Z.rem_bound_abs (UnixNano t) 100) as Hb.
  unfold tsoff. lia.
Qed.
(** The word of bytes 8 to 15 when the node has 48 bits: variant [10],
    14 bits of clock sequence, node. *)
Lemma lo_word_arith cs n :
  0 <= n < 2 ^ 48 ->
  uint64 (0x8000 << 48) .| uint64 ((cs .& 0x3fff) << 48) .| n =
  2 ^ 63 + cs mod 2 ^ 14 * 2 ^ 48 + n.
Proof.
  intros Hn. rewrite land_0x3fff.
  assert (Hc : 0 <= cs mod 2 ^ 14 < 2 ^ 14) by (apply Z.mod_pos_bound; lia).
  set (c := cs mod 2 ^ 14) in *.
  change (uint64 (0x8000 << 48)) with (2 ^ 15 << 48).
  unfold uint64. rewrite (Z.shiftl_mul_pow2 c) by lia.
  rewrite (Z.mod_small (c * 2 ^ 48)) by lia.
  rewrite <- (Z.shiftl_mul_pow2 c) by lia.
  rewrite <- Z.shiftl_lor.
  replace (2 ^ 15 .| c) with (2 ^ 15 + c)
    by (symmetry; apply (lor_hi_lo c 1 15); lia).
  rewrite !Z.shiftl_mul_pow2 by lia.
  rewrite (lor_hi_lo n (2 ^ 15 + c) 48) by lia. lia.
Qed.

(** The node a call of [NewFromTime] puts into the identifier. *)
Lemma NewFromTime_unfold t r g :
  NewFromTime t r g =
  (PutUint64 ((uint64 (tstime t << 4) .& 0xFFFFFFFFFFFF0000) .|
              (tstime t .& 0x0FFF) .| 0x6000) ++
   PutUint64
     (let cs := if lastts g >=? tstime t then uint32 (clockseq g + 1)
                else clockseq g in
      let lo := uint64 (0x8000 << 48) .| uint64 ((cs .& 0x3fff) << 48) in
      if alwaysRandomizeNode g || (node g =? 0) then lo .| getRandomNode r
      else lo .| node g),
   mkGenerator (tstime t)
     (if lastts g >=? tstime t then uint32 (clockseq g + 1) else clockseq g)
     (node g) (alwaysRandomizeNode g)).
Proof. reflexivity. Qed.

Lemma hi_word_range t :
  0x6000 <= (uint64 (tstime t << 4) .& 0xFFFFFFFFFFFF0000) .|
            (tstime t .& 0x0FFF) .| 0x6000 < 2 ^ 64.
Proof.
  pose proof (tstime_range t) as Ht.
  rewrite hi_word_arith by lia.
  Z.div_mod_to_equations; lia.
Qed.

Lemma idx_app_l (a b : list Z) i : (i < length a)%nat -> idx (a ++ b) i = idx a i.
Proof. intros. unfold idx. now apply app_nth1. Qed.

Lemma idx_app_r (a b : list Z) i :
  (length a <= i)%nat -> idx (a ++ b) i = idx b (i - length a).
Proof. intros. unfold idx. now apply app_nth2. Qed.

(** Every generated identifier carries version 6 in the high nibble of
    byte 6 and is not nil, whatever the generator state. *)
Lemma NewFromTime_version_and_not_nil t r g :
  let u := fst (NewFromTime t r g) in
  idx u 6 .& 0xF0 = 0x60 /\ UUID_IsNil u = false /\ length u = 16%nat.
Proof.
  cbv zeta. rewrite NewFromTime_unfold. cbn [fst].
  pose proof (hi_word_range t) as Hr.
  pose proof (tstime_range t) as Ht.
  set (hi := (uint64 (tstime t << 4) .& 0xFFFFFFFFFFFF0000) .|
             (tstime t .& 0x0FFF) .| 0x6000) in *.
  match goal with |- context [PutUint64 hi ++ PutUint64 ?l] => set (lo := l) end.
  split; [|split].
  - rewrite idx_app_l by (cbn; lia).
    unfold PutUint64, idx; cbn [nth].
    rewrite land_0xF0 by apply is_byte_uint8.
    unfold uint8. rewrite Z.shiftr_div_pow2 by lia.
    subst hi. rewrite hi_word_arith by lia.
    Z.div_mod_to_equations; lia.
  - unfold UUID_IsNil.
    change (slice 0 8 (PutUint64 hi ++ PutUint64 lo)) with (PutUint64 hi).
    rewrite Uint64_PutUint64 by lia.
    apply Z.eqb_neq. rewrite Z.lor_eq_0_iff. lia.
  - reflexivity.
Qed.

(** With a node of 48 bits the variant bits of byte 8 are [10]. *)
Lemma NewFromTime_variant t r g :
  0 <= node g < 2 ^ 48 ->
  idx (fst (NewFromTime t r g)) 8 .& 0xC0 = 0x80.
Proof.
  intros Hn. rewrite NewFromTime_unfold. cbn [fst].
  rewrite idx_app_r by (cbn; lia).
  change (length (PutUint64 ?x)) with 8%nat. cbn [Nat.sub].
  unfold PutUint64, idx; cbn [nth]. cbv zeta.
  rewrite land_0xC0 by apply is_byte_uint8.
  pose proof (getRandomNode_range r) as Hr.
  set (cs := if lastts g >=? tstime t then uint32 (clockseq g + 1)
             else clockseq g).
  destruct (alwaysRandomizeNode g || (node g =? 0));
    rewrite lo_word_arith by lia;
    unfold uint8; rewrite Z.shiftr_div_pow2 by lia;
    Z.div_mod_to_equations; lia.
Qed.

Lemma UUID_Node_of_words h lo :
  length h = 8%nat -> 0 <= lo < 2 ^ 64 ->
  UUID_Node (h ++ PutUint64 lo) = lo mod 2 ^ 48.
Proof.
  intros Hh Hlo. open_list h Hh.
  unfold UUID_Node, slice_from. cbn [app skipn repeat length Nat.sub].
  unfold PutUint64. cbn [firstn store length Nat.add skipn app repeat].
  rewrite Uint64_firstn. cbn [firstn].
  rewrite Uint64_be_val
    by (repeat constructor; try apply is_byte_uint8; unfold is_byte; lia).
  unfold be_val, digits_val, uint8; cbn [fold_left].
  rewrite !Z.shiftr_div_pow2 by lia.
  Z.div_mod_to_equations; lia.
Qed.

Lemma NewFromTime_zero_node t r g :
  node g = 0 ->
  UUID_Node (fst (NewFromTime t r g)) = getRandomNode r /\
  node (snd (NewFromTime t r g)) = 0 /\
  alwaysRandomizeNode (snd (NewFromTime t r g)) = alwaysRandomizeNode g.
Proof.
  intros Hn. rewrite NewFromTime_unfold. cbn [fst snd node alwaysRandomizeNode].
  split; [|split; [assumption|reflexivity]].
  rewrite Hn. cbn [Z.eqb]. rewrite orb_true_r. cbv zeta.
  pose proof (getRandomNode_range r) as Hr.
  rewrite lo_word_arith by lia.
  set (cs := if lastts g >=? tstime t then uint32 (clockseq g + 1)
             else clockseq g).
  assert (0 <= cs mod 2 ^ 14 < 2 ^ 14) by (apply Z.mod_pos_bound; lia).
  rewrite UUID_Node_of_words by (reflexivity || lia).
  Z.div_mod_to_equations; lia.
Qed.
Lemma reachable_node_range g : reachable g -> 0 <= node g < 2 ^ 64.
Proof.
  induction 1 as [r1 ifs r2 _ _ _ | t r g _ _ IH | r g _ _ IH | g _ IH
                 | n g Hn _ IH].
  - unfold init, RandomizeNode; cbn [node].
    pose proof (getRandomNode_range r2). lia.
  - rewrite NewFromTime_unfold. exact IH.
  - unfold RandomizeNode; cbn [node].
    pose proof (getRandomNode_range r). lia.
  - exact IH.
  - exact Hn.
Qed.

Lemma UnixNano_representable t :
  representable t -> UnixNano t = nanos_since_epoch t.
Proof.
  unfold representable, UnixNano, nanos_since_epoch, int64. intros H.
  rewrite Z.mod_small by lia. lia.
Qed.

Lemma tstime_mono t1 t2 :
  representable t1 -> representable t2 -> time_le t1 t2 ->
  tstime t1 <= tstime t2.
Proof.
  intros H1 H2 Hle. rewrite !tstime_eq, !UnixNano_representable by assumption.
  apply Z.add_le_mono_l. apply Z.quot_le_mono; [lia|exact Hle].
Qed.

Lemma bytes_Compare_words h1 l1 h2 l2 :
  0 <= h1 < 2 ^ 64 -> 0 <= h2 < 2 ^ 64 ->
  bytes_Compare (PutUint64 h1 ++ PutUint64 l1) (PutUint64 h2 ++ PutUint64 l2) =
  match h1 ?= h2 with
  | Eq => bytes_Compare (PutUint64 l1) (PutUint64 l2)
  | c => c
  end.
Proof.
  intros. rewrite bytes_Compare_app by reflexivity.
  now rewrite bytes_Compare_PutUint64.
Qed.

(** C2, as the specification has it, fails: two calls in one 100 ns tick
    whose clock sequence goes from [0x3fff] to [0x4000] return
    identifiers in descending order, the 14-bit field wrapping to 0. *)
Lemma NewFromTime_clock_sequence_wraps :
  let g := init (Some [0; 0; 0x3f; 0xff; 0; 0; 0; 0]) []
                (Some [0; 0; 0; 0; 0; 0; 0; 7]) in
  let t := mkTime 1600000000 0 in
  let u1 := fst (NewFromTime t None g) in
  let g1 := snd (NewFromTime t None g) in
  let u2 := fst (NewFromTime t None g1) in
  reachable g /\ time_le t t /\
  slice 8 10 u1 = [0xbf; 0xff] /\ slice 8 10 u2 = [0x80; 0x00] /\
  bytes_Compare u1 u2 = Gt.
Proof.
  cbv zeta. split; [|split; [|split; [|split]]].
  - apply reach_init; cbn; repeat split; repeat constructor;
      unfold is_byte; lia.
  - unfold time_le. lia.
  - vm_compute. reflexivity.
  - vm_compute. reflexivity.
  - vm_compute. reflexivity.
Qed.

(** C2, amended: for instants [t1 <= t2] in the range of [UnixNano] and
    two calls one after the other from a reachable state, the first
    identifier is below the second in the order of all 16 bytes when the
    instants fall into different 100 ns ticks, or else when the 14-bit
    clock sequence does not wrap between the calls and the stored node
    has 48 bits. *)
Theorem NewFromTime_monotone (g : Generator) (t1 t2 : time_Time)
    (r1 r2 : rand_outcome) :
  reachable g ->
  representable t1 -> representable t2 -> time_le t1 t2 ->
  let u1 := fst (NewFromTime t1 r1 g) in
  let g1 := snd (NewFromTime t1 r1 g) in
  let u2 := fst (NewFromTime t2 r2 g1) in
  tstime t1 < tstime t2 \/
  (clockseq g1 .& 0x3fff <> 0x3fff /\ node g < 2 ^ 48) ->
  bytes_Compare u1 u2 = Lt /\ bytes_Compare u1 u2 <> Gt.
Proof.
  intros Hreach Hr1 Hr2 Hle. cbv zeta. intros Hcase.
  enough (E : bytes_Compare (fst (NewFromTime t1 r1 g))
                (fst (NewFromTime t2 r2 (snd (NewFromTime t1 r1 g)))) = Lt)
    by (rewrite E; split; [reflexivity|discriminate]).
  pose proof (tstime_mono _ _ Hr1 Hr2 Hle) as Hmono.
  pose proof (tstime_range t1) as Ht1.
  pose proof (tstime_range t2) as Ht2.
  pose proof (hi_word_range t1) as Hh1.
  pose proof (hi_word_range t2) as Hh2.
  pose proof (reachable_node_range g Hreach) as Hnode.
  rewrite (NewFromTime_unfold t2), (NewFromTime_unfold t1) in *.
  cbn [fst snd lastts clockseq node alwaysRandomizeNode] in *.
  rewrite bytes_Compare_words by lia.
  destruct (Z.eq_dec (tstime t1) (tstime t2)) as [Heq|Hne].
  - (* one tick: the clock sequence decides *)
    destruct Hcase as [Hlt|[Hcs Hn48]]; [lia|].
    rewrite <- Heq, Z.compare_refl.
    replace (tstime t1 >=? tstime t1) with true by (symmetry; apply Z.geb_le; lia).
    set (cs1 := if lastts g >=? tstime t1 then uint32 (clockseq g + 1)
                else clockseq g) in *.
    cbv zeta.
    rewrite land_0x3fff in Hcs.
    assert (Hc1 : 0 <= cs1 mod 2 ^ 14 < 2 ^ 14) by (apply Z.mod_pos_bound; lia).
    assert (Hc2 : uint32 (cs1 + 1) mod 2 ^ 14 = cs1 mod 2 ^ 14 + 1).
    { unfold uint32. Z.div_mod_to_equations; lia. }
    pose proof (getRandomNode_range r1) as Hg1.
    pose proof (getRandomNode_range r2) as Hg2.
    destruct (alwaysRandomizeNode g || (node g =? 0));
      rewrite !lo_word_arith by lia;
      rewrite bytes_Compare_PutUint64 by lia;
      apply Z.compare_lt_iff; rewrite Hc2; nia.
  - (* a later tick: the timestamp word decides *)
    assert (Hlt : tstime t1 < tstime t2) by lia.
    rewrite !hi_word_arith by lia.
    replace (_ ?= _) with Lt; [reflexivity|].
    symmetry. apply Z.compare_lt_iff.
    Z.div_mod_to_equations; lia.
Qed.

Lemma NewFromTime_monotone_witness :
  let g := init (Some [0; 0; 0; 1; 0; 0; 0; 0]) []
                (Some [0; 0; 0; 0; 0; 0; 0; 7]) in
  let t := mkTime 1600000000 0 in
  bytes_Compare (fst (NewFromTime t None g))
                (fst (NewFromTime t None (snd (NewFromTime t None g)))) = Lt.
Proof.
  cbv zeta.
  apply (NewFromTime_monotone
           (init (Some [0; 0; 0; 1; 0; 0; 0; 0]) []
                 (Some [0; 0; 0; 0; 0; 0; 0; 7]))
           (mkTime 1600000000 0) (mkTime 1600000000 0) None None).
  - apply reach_init; cbn; repeat split; repeat constructor;
      unfold is_byte; lia.
  - unfold representable, nanos_since_epoch; cbn; lia.
  - unfold representable, nanos_since_epoch; cbn; lia.
  - unfold time_le; lia.
  - right. split; [vm_compute; discriminate | vm_compute; reflexivity].
Defined.
(** C5: where the code departs from the claim.  [SetNode] stores all 64
    bits of its argument, and [NewFromTime] ors the stored node into the
    word that holds the variant and the clock sequence.  After
    [SetNode(0x4000000000000000)] the top two bits of byte 8 are [11], and
    [Time] takes the identifier for one that is not version 6. *)
Theorem NewFromTime_variant_after_SetNode :
  let g := SetNode 0x4000000000000000 (init None [] None) in
  let u := fst (NewFromTime (mkTime 1600000000 0) None g) in
  reachable g /\
  UUID_String u = "1eaf5bc5-fe94-6000-c000-000000000000"%string /\
  idx u 8 .& 0xC0 = 0xC0 /\
  idx u 6 .& 0xF0 = 0x60 /\
  UUID_IsNil u = false /\
  UUID_Time u = time_zero.
Proof.
  cbv zeta. split.
  - apply reach_SetNode; [lia|]. apply reach_init; cbn; auto.
  - repeat split; vm_compute; reflexivity.
Qed.

Lemma generate_zero_node calls :
  forall g, node g = 0 ->
  map UUID_Node (fst (generate calls g)) =
    map (fun c => getRandomNode (snd c)) calls /\
  node (snd (generate calls g)) = 0.
Proof.
  induction calls as [|[t r] calls IH]; intros g Hn; cbn [generate].
  - now split.
  - destruct (NewFromTime_zero_node t r g Hn) as (Hu & Hn1 & _).
    destruct (NewFromTime t r g) as [u g1]. cbn [fst snd] in *.
    destruct (IH g1 Hn1) as [Hus Hn2].
    destruct (generate calls g1) as [us g2]. cbn [fst snd map] in *.
    now rewrite Hu, Hus.
Qed.

(** C10: with a stored node of zero, [NewFromTime] draws the node of the
    identifier from the random source in that call, also with
    always-randomize off, and leaves the stored node at zero; so after
    [SetNode(0)] every identifier carries the node drawn in its own call.
    A drawn node has 48 bits with the multicast bit (bit 40) set and the
    other bits taken from the random bytes; a failed read gives zero. *)
Theorem zero_node_draws_random_node (g : Generator) (t : time_Time)
    (r : rand_outcome) :
  node g = 0 ->
  (UUID_Node (fst (NewFromTime t r g)) = getRandomNode r /\
   node (snd (NewFromTime t r g)) = 0 /\
   alwaysRandomizeNode (snd (NewFromTime t r g)) = alwaysRandomizeNode g) /\
  (forall (g' : Generator) (calls : list (time_Time * rand_outcome)),
     let g0 := SetNode 0 g' in
     alwaysRandomizeNode g0 = false /\ GetNode g0 = 0 /\
     map UUID_Node (fst (generate calls g0)) =
       map (fun c => getRandomNode (snd c)) calls /\
     GetNode (snd (generate calls g0)) = 0) /\
  (getRandomNode None = 0 /\
   forall b,
     0 <= getRandomNode (Some b) < 2 ^ 48 /\
     Z.testbit (getRandomNode (Some b)) 40 = true /\
     forall i, 0 <= i < 48 -> i <> 40 ->
       Z.testbit (getRandomNode (Some b)) i = Z.testbit (Uint64 (slice 0 8 b)) i).
Proof.
  intros Hn. split; [|split].
  - now apply NewFromTime_zero_node.
  - intros g' calls. cbv zeta.
    destruct (generate_zero_node calls (SetNode 0 g') eq_refl) as [H1 H2].
    repeat split; assumption.
  - split; [reflexivity|]. intros b. split; [apply getRandomNode_range|].
    cbn [getRandomNode].
    change 0x0000FFFFFFFFFFFF with (Z.ones 48).
    change 0x0000010000000000 with (1 << 40).
    split.
    + rewrite Z.lor_spec, Z.shiftl_spec by lia. cbn. apply orb_true_r.
    + intros i Hi Hne.
      rewrite Z.lor_spec, Z.land_spec, Z.shiftl_spec by lia.
      rewrite Z.testbit_ones_nonneg by lia.
      replace (i <? 48) with true by (symmetry; apply Z.ltb_lt; lia).
      rewrite andb_true_r.
      destruct (Z.lt_ge_cases i 40).
      * rewrite (Z.testbit_neg_r 1) by lia. apply orb_false_r.
      * replace (Z.testbit 1 (i - 40)) with false; [apply orb_false_r|].
        symmetry. apply (testbit_high 1 1); lia.
Qed.

Lemma zero_node_draws_random_node_witness :
  let g := SetNode 0 (init None [] None) in
  let r := Some [0x12; 0x34; 0xab; 0xcd; 0xef; 0x01; 0x23; 0x45] in
  UUID_Node (fst (NewFromTime (mkTime 1600000000 0) r g)) = 0xabcdef012345.
Proof.
  cbv zeta.
  destruct (zero_node_draws_random_node
              (SetNode 0 (init None [] None)) (mkTime 1600000000 0)
              (Some [0x12; 0x34; 0xab; 0xcd; 0xef; 0x01; 0x23; 0x45])
              eq_refl) as [[H _] _].
  rewrite H. reflexivity.
Defined.
(** ** Time *)

Lemma int64_small z : - 2 ^ 63 <= z < 2 ^ 63 -> int64 z = z.
Proof. intros. unfold int64. rewrite Z.mod_small by lia. lia. Qed.

Lemma time_Unix_nanos sec ns :
  - 2 ^ 62 <= sec < 2 ^ 62 -> - 1000000000 < ns < 1000000000 ->
  nanos_since_epoch (time_Unix sec ns) = sec * 1000000000 + ns /\
  0 <= nsec (time_Unix sec ns) < 1000000000.
Proof.
  intros Hs Hn. unfold time_Unix.
  destruct (Z.ltb_spec ns 0) as [Hneg|Hpos]; cbn [orb].
  - replace (Z.quot ns 1000000000) with 0
      by (symmetry; apply Z.quot_small_iff; [lia|]; rewrite Z.abs_neq; lia).
    cbn [Z.mul]. rewrite Z.add_0_r, Z.sub_0_r.
    rewrite !(int64_small sec), !(int64_small ns) by lia.
    replace (ns <? 0) with true by (symmetry; apply Z.ltb_lt; lia).
    rewrite !int64_small by lia.
    unfold nanos_since_epoch; cbn [unixSec nsec]. lia.
  - destruct (Z.geb_spec ns 1000000000); [lia|].
    unfold nanos_since_epoch; cbn [unixSec nsec]. lia.
Qed.

Lemma timestamp_word_arith hi :
  0 <= hi < 2 ^ 64 ->
  ((hi >> 4) .& 0xFFFFFFFFFFFFF000) .| (0x0FFF .& hi) = timestamp_of_word hi.
Proof.
  intros Hh. unfold timestamp_of_word.
  rewrite Z.shiftr_div_pow2 by lia.
  rewrite land_high52 by (Z.div_mod_to_equations; lia).
  rewrite (Z.land_comm 0x0FFF), land_0xFFF.
  assert (0 <= hi mod 2 ^ 12 < 2 ^ 12) by (apply Z.mod_pos_bound; lia).
  rewrite lor_hi_lo by lia.
  Z.div_mod_to_equations; lia.
Qed.

Lemma idx_is_byte u i : Forall is_byte u -> is_byte (idx u i).
Proof.
  intros Hu. unfold idx.
  destruct (Nat.lt_ge_cases i (length u)).
  - rewrite Forall_forall in Hu. apply Hu. now apply nth_In.
  - rewrite nth_overflow by assumption. unfold is_byte. lia.
Qed.

Lemma conforming_check u :
  Forall is_byte u ->
  ((idx u 6 .& 0xF0) =? 0x60) && ((idx u 8 .& 0xC0) =? 0x80) = true <->
  conforming u.
Proof.
  intros Hu. unfold conforming, version_nibble, variant_bits.
  pose proof (idx_is_byte u 6 Hu) as H6.
  pose proof (idx_is_byte u 8 Hu) as H8.
  rewrite land_0xF0, land_0xC0 by assumption.
  rewrite andb_true_iff, !Z.eqb_eq. lia.
Qed.

(** C8, as the specification has it, fails: the conversion to
    nanoseconds is an [int64] product, and it wraps for a timestamp far
    from 1970.  The identifier below is version 6 with variant [10] and
    the largest timestamp; its instant would come 103072857660684697500
    ns after the Unix epoch, and [Time] returns one before the epoch. *)
Lemma UUID_Time_wraps_on_late_timestamp :
  let u := [255; 255; 255; 255; 255; 255; 0x6f; 255;
            0x80; 0; 0; 0; 0; 0; 0; 0] in
  wf_UUID u /\ conforming u /\
  (timestamp_of_word (be_val (slice 0 8 u)) - tsoff) * 100 =
    103072857660684697500 /\
  nanos_since_epoch (UUID_Time u) = -7607606781572612196 /\
  nanos_since_epoch (UUID_Time u) <>
    (timestamp_of_word (be_val (slice 0 8 u)) - tsoff) * 100.
Proof.
  cbv zeta. split; [|split; [|split; [|split]]].
  - split; [reflexivity|]. repeat constructor; unfold is_byte; lia.
  - split; reflexivity.
  - reflexivity.
  - vm_compute. reflexivity.
  - vm_compute. discriminate.
Qed.

(** C8, amended: [Time] returns the zero instant, not an error, for an
    identifier whose version nibble is not 6 or whose variant bits are
    not [10].  For every conforming identifier, with the timestamp being
    the 48 high bits of the first word moved down by 4 and its 12 low
    bits, it returns the instant whose nanoseconds from the Unix epoch
    are the timestamp less the offset 122192928000000000, times 100,
    wrapped to an [int64]: a value of the [int64] range that differs from
    the product by a multiple of [2^64].  That is the product itself when
    the product fits an [int64], and is not the product when it does
    not. *)
Theorem UUID_Time_spec (u : UUID) :
  wf_UUID u ->
  (~ conforming u -> UUID_Time u = time_zero) /\
  (conforming u ->
   let ts := timestamp_of_word (be_val (slice 0 8 u)) in
   let ns := (ts - 122192928000000000) * 100 in
   nanos_since_epoch (UUID_Time u) = int64 ns /\
   - 2 ^ 63 <= nanos_since_epoch (UUID_Time u) < 2 ^ 63 /\
   (ns - nanos_since_epoch (UUID_Time u)) mod 2 ^ 64 = 0 /\
   0 <= nsec (UUID_Time u) < 1000000000 /\
   (- 2 ^ 63 <= ns < 2 ^ 63 -> nanos_since_epoch (UUID_Time u) = ns) /\
   (~ - 2 ^ 63 <= ns < 2 ^ 63 -> nanos_since_epoch (UUID_Time u) <> ns)).
Proof.
  intros Hwf. pose proof Hwf as [Hlen Hb].
  pose proof (conforming_check u Hb) as Hc.
  unfold UUID_Time. split.
  - intros Hn.
    destruct (((idx u 6 .& 0xF0) =? 0x60) && ((idx u 8 .& 0xC0) =? 0x80));
      [exfalso; apply Hn, Hc; reflexivity | reflexivity].
  - intros Hconf. cbv zeta.
    replace (((idx u 6 .& 0xF0) =? 0x60) && ((idx u 8 .& 0xC0) =? 0x80))
      with true by (symmetry; now apply Hc).
    cbn [negb].
    destruct (wf_UUID_slice_0_8 u Hwf) as [L8 B8].
    pose proof (Uint64_range _ L8 B8) as Hhi.
    rewrite timestamp_word_arith by assumption.
    assert (E : Uint64 (slice 0 8 u) = be_val (slice 0 8 u)).
    { remember (slice 0 8 u) as h eqn:Eh. clear Eh.
      open_list h L8. now apply Uint64_be_val. }
    rewrite E in *.
    set (ts := timestamp_of_word (be_val (slice 0 8 u))) in *.
    assert (Hts : 0 <= ts < 2 ^ 60).
    { unfold ts, timestamp_of_word. Z.div_mod_to_equations; lia. }
    assert (E1 : int64 (uint64 (ts - tsoff)) = ts - tsoff).
    { unfold int64, uint64, tsoff. Z.div_mod_to_equations; lia. }
    rewrite E1. unfold tsoff in *.
    set (ns := (ts - 122192928000000000) * 100) in *.
    assert (Hut : - 2 ^ 63 <= int64 ns < 2 ^ 63 /\
                  (ns - int64 ns) mod 2 ^ 64 = 0).
    { unfold int64. clearbody ns. Z.div_mod_to_equations; lia. }
    destruct Hut as [Hut Hcong].
    set (ut := int64 ns) in *.
    pose proof (Z.quot_rem' ut 1000000000) as Hq.
    pose proof (Z.rem_bound_abs ut 1000000000) as Hr.
    assert (Hsec : - 2 ^ 62 <= Z.quot ut 1000000000 < 2 ^ 62).
    { clearbody ut. Z.to_euclidean_division_equations. lia. }
    destruct (time_Unix_nanos (Z.quot ut 1000000000) (Z.rem ut 1000000000))
      as [Hn Hs]; [exact Hsec|lia|].
    assert (En : nanos_since_epoch
                   (time_Unix (Z.quot ut 1000000000) (Z.rem ut 1000000000)) = ut)
      by lia.
    rewrite En.
    split; [reflexivity|]. split; [exact Hut|]. split; [exact Hcong|].
    split; [exact Hs|]. split.
    + intros Hrange. unfold ut. now apply int64_small.
    + intros Hout Heq. apply Hout. rewrite <- Heq. exact Hut.
Qed.

Lemma UUID_Time_spec_witness :
  let u := [30; 192; 69; 14; 90; 100; 108; 160; 128; 252; 171; 214; 165;
            205; 182; 22] in
  nanos_since_epoch (UUID_Time u) = 1629750603841859200.
Proof.
  cbv zeta.
  destruct (UUID_Time_spec
              [30; 192; 69; 14; 90; 100; 108; 160; 128; 252; 171; 214; 165;
               205; 182; 22]) as [_ H].
  - split; [reflexivity|]. repeat constructor; unfold is_byte; lia.
  - destruct H as (_ & _ & _ & _ & H & _).
    + split; reflexivity.
    + rewrite H; [reflexivity|].
      vm_compute. split; [discriminate|reflexivity].
Defined.
(** ** The base-64 codec *)

Lemma forallb_below n (p : Z -> bool) :
  forallb p (map Z.of_nat (seq 0 n)) = true ->
  forall i, 0 <= i < Z.of_nat n -> p i = true.
Proof.
  intros H i Hi. rewrite forallb_forall in H. apply H.
  apply in_map_iff. exists (Z.to_nat i). split; [lia|].
  apply in_seq. lia.
Qed.

Lemma comparison_eqb_eq c d : comparison_eqb c d = true -> c = d.
Proof. destruct c, d; (reflexivity || discriminate). Qed.

(** The alphabet is in ascending byte order. *)
Lemma enc_encode_compare i j :
  0 <= i < 64 -> 0 <= j < 64 ->
  (enc_encode i ?= enc_encode j) = (i ?= j).
Proof.
  intros Hi Hj. apply comparison_eqb_eq.
  revert j Hj.
  apply (forallb_below 64
           (fun j => comparison_eqb (enc_encode i ?= enc_encode j) (i ?= j))).
  revert i Hi.
  apply (forallb_below 64
           (fun i => forallb
              (fun j => comparison_eqb (enc_encode i ?= enc_encode j) (i ?= j))
              (map Z.of_nat (seq 0 64)))).
  vm_compute. reflexivity.
Qed.

Lemma enc_encode_props i :
  0 <= i < 64 ->
  enc_decodeMap (enc_encode i) = i /\ 0 < enc_encode i < 128 /\
  enc_encode i <> newline /\ enc_encode i <> carriage_return.
Proof.
  intros Hi.
  assert (H : (enc_decodeMap (enc_encode i) =? i) &&
              ((0 <? enc_encode i) && (enc_encode i <? 128)) &&
              (negb (enc_encode i =? newline) &&
               negb (enc_encode i =? carriage_return)) = true).
  { revert i Hi. apply (forallb_below 64). vm_compute. reflexivity. }
  rewrite !andb_true_iff, !negb_true_iff, Z.eqb_eq, !Z.eqb_neq, !Z.ltb_lt in H.
  tauto.
Qed.

Lemma sextet_arith v k :
  0 <= k -> (v >> k) .& 0x3F = v / 2 ^ k mod 2 ^ 6.
Proof.
  intros Hk. rewrite Z.shiftr_div_pow2 by lia.
  now apply (land_ones_mod _ 6).
Qed.

Lemma sextet_arith_0 v : v .& 0x3F = v mod 2 ^ 6.
Proof. now apply (land_ones_mod _ 6). Qed.

Lemma sextet_range v k : 0 <= v / 2 ^ k mod 2 ^ 6 < 64.
Proof. apply Z.mod_pos_bound. lia. Qed.

Lemma sextet_range_0 v : 0 <= v mod 2 ^ 6 < 64.
Proof. apply Z.mod_pos_bound. lia. Qed.

(** The group value of three, two and one bytes. *)
Lemma group3_arith a b c :
  is_byte a -> is_byte b -> is_byte c ->
  a << 16 .| b << 8 .| c = a * 2 ^ 16 + b * 2 ^ 8 + c.
Proof.
  unfold is_byte. intros. rewrite !Z.shiftl_mul_pow2 by lia.
  rewrite (lor_hi_lo (b * 2 ^ 8) a 16) by lia.
  replace (a * 2 ^ 16 + b * 2 ^ 8) with ((a * 2 ^ 8 + b) * 2 ^ 8) by lia.
  rewrite lor_hi_lo by lia. lia.
Qed.

Lemma group2_arith a b :
  is_byte a -> is_byte b -> a << 16 .| b << 8 = a * 2 ^ 16 + b * 2 ^ 8.
Proof.
  unfold is_byte. intros. rewrite !Z.shiftl_mul_pow2 by lia.
  rewrite (lor_hi_lo (b * 2 ^ 8) a 16) by lia. lia.
Qed.

Lemma list_ind3 {A} (P : list A -> Prop) :
  P [] -> (forall a, P [a]) -> (forall a b, P [a; b]) ->
  (forall a b c l, P l -> P (a :: b :: c :: l)) ->
  forall l, P l.
Proof.
  intros H0 H1 H2 H3 l.
  enough (H : P l /\ (forall a, P (a :: l)) /\ (forall a b, P (a :: b :: l)))
    by apply H.
  induction l as [|x l (IH0 & IH1 & IH2)].
  - auto.
  - split; [apply IH1|split; [intros; apply IH2|]].
    intros a b. apply H3. exact IH0.
Qed.

Ltac solve_Forall :=
  repeat (apply Forall_cons; [assumption|]); apply Forall_nil.

Ltac sextets_to_arith :=
  rewrite ?group3_arith, ?group2_arith by assumption;
  rewrite ?sextet_arith, ?sextet_arith_0 by lia;
  rewrite ?Z.shiftl_mul_pow2 by lia.

(** Encoding keeps the order: whole groups first. *)
Lemma Encode_compare a :
  forall b, length a = length b -> Forall is_byte a -> Forall is_byte b ->
  bytes_Compare (Encode a) (Encode b) = bytes_Compare a b.
Proof.
  induction a as [|a0|a0 a1|a0 a1 a2 ra IH] using list_ind3;
    intros b Hlen Ha Hb.
  - destruct b; [reflexivity|discriminate].
  - destruct b as [|b0 [|]]; try discriminate Hlen.
    apply Forall_cons_iff in Ha, Hb. destruct Ha as [Ha0 _], Hb as [Hb0 _].
    cbn [Encode bytes_Compare]. sextets_to_arith.
    rewrite !enc_encode_compare by apply sextet_range.
    change (match ?s0 ?= ?t0 with
            | Eq => match ?s1 ?= ?t1 with Eq => Eq | c => c end
            | c => c end)
      with (bytes_Compare [s0; s1] [t0; t1]).
    rewrite (bytes_Compare_digits 64)
      by (reflexivity || lia || (repeat constructor; apply sextet_range)).
    unfold digits_val; cbn [fold_left]. unfold is_byte in *.
    destruct (Z.compare_spec a0 b0);
      [apply Z.compare_eq_iff | apply Z.compare_lt_iff | apply Z.compare_gt_iff];
      Z.div_mod_to_equations; lia.
  - destruct b as [|b0 [|b1 [|]]]; try discriminate Hlen.
    repeat (apply Forall_cons_iff in Ha; destruct Ha as [? Ha]).
    repeat (apply Forall_cons_iff in Hb; destruct Hb as [? Hb]).
    cbn [Encode]. cbv zeta. sextets_to_arith.
    cbn [bytes_Compare].
    rewrite !enc_encode_compare by apply sextet_range.
    change (match ?s0 ?= ?t0 with
            | Eq => match ?s1 ?= ?t1 with
                    | Eq => match ?s2 ?= ?t2 with Eq => Eq | c => c end
                    | c => c end
            | c => c end)
      with (bytes_Compare [s0; s1; s2] [t0; t1; t2]).
    rewrite (bytes_Compare_digits 64)
      by (reflexivity || lia || (repeat constructor; apply sextet_range)).
    change (match a0 ?= b0 with
            | Eq => match a1 ?= b1 with Eq => Eq | c => c end
            | c => c end)
      with (bytes_Compare [a0; a1] [b0; b1]).
    rewrite (bytes_Compare_digits 256)
      by (reflexivity || lia || solve_Forall).
    unfold digits_val; cbn [fold_left]. unfold is_byte in *.
    destruct (Z.compare_spec (((0 * 256 + a0) * 256) + a1)
                             (((0 * 256 + b0) * 256) + b1));
      [apply Z.compare_eq_iff | apply Z.compare_lt_iff | apply Z.compare_gt_iff];
      Z.div_mod_to_equations; lia.
  - destruct b as [|b0 [|b1 [|b2 rb]]]; try discriminate Hlen.
    injection Hlen as Hlen.
    apply Forall_cons_iff in Ha; destruct Ha as [Ha0 Ha].
    apply Forall_cons_iff in Ha; destruct Ha as [Ha1 Ha].
    apply Forall_cons_iff in Ha; destruct Ha as [Ha2 Ha].
    apply Forall_cons_iff in Hb; destruct Hb as [Hb0 Hb].
    apply Forall_cons_iff in Hb; destruct Hb as [Hb1 Hb].
    apply Forall_cons_iff in Hb; destruct Hb as [Hb2 Hb].
    remember (bytes_Compare (a0 :: a1 :: a2 :: ra) (b0 :: b1 :: b2 :: rb))
      as rhs eqn:Erhs.
    change (bytes_Compare (a0 :: a1 :: a2 :: ra) (b0 :: b1 :: b2 :: rb))
      with (bytes_Compare ([a0; a1; a2] ++ ra) ([b0; b1; b2] ++ rb)) in Erhs.
    rewrite bytes_Compare_app in Erhs by reflexivity.
    rewrite <- (IH rb Hlen Ha Hb) in Erhs.
    rewrite (bytes_Compare_digits 256 ltac:(lia) [_; _; _] [_; _; _]) in Erhs
      by (reflexivity || lia || solve_Forall).
    cbn [Encode]. cbv zeta. sextets_to_arith.
    cbn [bytes_Compare].
    rewrite !enc_encode_compare by (apply sextet_range || apply sextet_range_0).
    set (va := a0 * 2 ^ 16 + a1 * 2 ^ 8 + a2).
    set (vb := b0 * 2 ^ 16 + b1 * 2 ^ 8 + b2).
    set (ea := Encode ra). set (eb := Encode rb).
    change (match ?s0 ?= ?t0 with
            | Eq => match ?s1 ?= ?t1 with
                    | Eq => match ?s2 ?= ?t2 with
                            | Eq => match ?s3 ?= ?t3 with
                                    | Eq => bytes_Compare ea eb
                                    | c => c end
                            | c => c end
                    | c => c end
            | c => c end)
      with (bytes_Compare ([s0; s1; s2; s3] ++ ea) ([t0; t1; t2; t3] ++ eb)).
    rewrite bytes_Compare_app by reflexivity.
    rewrite (bytes_Compare_digits 64 ltac:(lia) [_; _; _; _] [_; _; _; _])
      by (reflexivity || lia ||
          (repeat constructor; apply sextet_range || apply sextet_range_0)).
    subst rhs.
    replace (digits_val 64 [va / 2 ^ 18 mod 2 ^ 6; va / 2 ^ 12 mod 2 ^ 6;
                            va / 2 ^ 6 mod 2 ^ 6; va mod 2 ^ 6]) with va.
    2:{ unfold digits_val; cbn [fold_left]. unfold va, is_byte in *.
        Z.div_mod_to_equations; lia. }
    replace (digits_val 64 [vb / 2 ^ 18 mod 2 ^ 6; vb / 2 ^ 12 mod 2 ^ 6;
                            vb / 2 ^ 6 mod 2 ^ 6; vb mod 2 ^ 6]) with vb.
    2:{ unfold digits_val; cbn [fold_left]. unfold vb, is_byte in *.
        Z.div_mod_to_equations; lia. }
    replace (digits_val 256 [a0; a1; a2]) with va
      by (unfold digits_val, va; cbn [fold_left]; lia).
    replace (digits_val 256 [b0; b1; b2]) with vb
      by (unfold digits_val, vb; cbn [fold_left]; lia).
    reflexivity.
Qed.
Lemma enc_encode_is_byte i : 0 <= i < 64 -> is_byte (enc_encode i).
Proof.
  intros Hi. destruct (enc_encode_props i Hi) as (_ & H & _).
  unfold is_byte. lia.
Qed.

Lemma Encode_is_byte a : Forall is_byte (Encode a).
Proof.
  induction a as [|a0|a0 a1|a0 a1 a2 ra IH] using list_ind3;
    cbn [Encode]; cbv zeta; rewrite ?sextet_arith, ?sextet_arith_0 by lia;
    repeat (apply Forall_cons;
            [apply enc_encode_is_byte;
             (apply sextet_range || apply sextet_range_0)|]);
    (assumption || apply Forall_nil).
Qed.

(** ** Strings and their bytes *)

Lemma N_of_ascii_of_byte b :
  is_byte b -> Z.of_N (N_of_ascii (ascii_of_N (Z.to_N b))) = b.
Proof.
  intros Hb. unfold is_byte in Hb.
  rewrite N_ascii_embedding by lia. lia.
Qed.

Lemma bytes_of_string_of_bytes l :
  Forall is_byte l -> bytes_of_string (string_of_bytes l) = l.
Proof.
  unfold bytes_of_string, string_of_bytes. intros Hl.
  rewrite list_ascii_of_string_of_list_ascii, map_map.
  induction Hl as [|b l Hb _ IH]; cbn [map]; [reflexivity|].
  now rewrite N_of_ascii_of_byte, IH.
Qed.

Lemma String_compare_bytes x :
  forall y, Forall is_byte x -> Forall is_byte y ->
  String.compare (string_of_bytes x) (string_of_bytes y) = bytes_Compare x y.
Proof.
  unfold string_of_bytes.
  induction x as [|a x IH]; intros [|b y] Hx Hy; cbn; try reflexivity.
  apply Forall_cons_iff in Hx, Hy. destruct Hx as [Ha Hx], Hy as [Hb Hy].
  unfold is_byte in *.
  unfold Ascii.compare. rewrite !N_ascii_embedding by lia.
  rewrite Z2N.inj_compare by lia.
  destruct (a ?= b); try reflexivity.
  apply IH; assumption.
Qed.

(** C1: the compact form of an identifier compares, as a string, the way
    the 16 raw bytes do; in particular one identifier is below another
    in byte order exactly when its string is below the other's. *)
Theorem UUIDB64_String_order (a b : UUID) :
  wf_UUID a -> wf_UUID b ->
  String.compare (UUIDB64_String a) (UUIDB64_String b) = bytes_Compare a b /\
  (bytes_Compare a b = Lt <->
   String.ltb (UUIDB64_String a) (UUIDB64_String b) = true) /\
  (UUIDB64_String a = UUIDB64_String b <-> a = b).
Proof.
  intros [La Ba] [Lb Bb].
  assert (E : String.compare (UUIDB64_String a) (UUIDB64_String b) =
              bytes_Compare a b).
  { unfold UUIDB64_String.
    rewrite String_compare_bytes by apply Encode_is_byte.
    apply Encode_compare; congruence. }
  split; [exact E|split].
  - unfold String.ltb. rewrite E.
    destruct (bytes_Compare a b); split; congruence.
  - split.
    + intros H. apply bytes_Compare_eq. rewrite <- E, H.
      destruct (String.compare (UUIDB64_String b) (UUIDB64_String b)) eqn:C;
        try reflexivity;
        pose proof (String.compare_antisym (UUIDB64_String b) (UUIDB64_String b)) as A;
        rewrite C in A; discriminate A.
    + now intros ->.
Qed.

Lemma UUIDB64_String_order_witness :
  let a := [30; 192; 69; 14; 90; 100; 108; 160; 128; 252; 171; 214; 165;
            205; 182; 22] in
  let b := [30; 192; 69; 14; 90; 100; 108; 160; 128; 252; 171; 214; 165;
            205; 182; 23] in
  String.compare (UUIDB64_String a) (UUIDB64_String b) = Lt.
Proof.
  cbv zeta.
  destruct (UUIDB64_String_order
    [30; 192; 69; 14; 90; 100; 108; 160; 128; 252; 171; 214; 165; 205; 182; 22]
    [30; 192; 69; 14; 90; 100; 108; 160; 128; 252; 171; 214; 165; 205; 182; 23])
    as [H _].
  - split; [reflexivity|]. repeat constructor; unfold is_byte; lia.
  - split; [reflexivity|]. repeat constructor; unfold is_byte; lia.
  - rewrite H. reflexivity.
Defined.
(** ** Decoding what was encoded *)

Lemma Decode_valid s rest si dbuf :
  0 <= s < 64 ->
  Decode (enc_encode s :: rest) si dbuf =
  if (length (dbuf ++ [s]) =? 4)%nat then
    tail <- Decode rest (si + 1) [];; Ok (quantum_bytes (dbuf ++ [s]) ++ tail)
  else Decode rest (si + 1) (dbuf ++ [s]).
Proof.
  intros Hs. cbn [Decode]. cbv zeta.
  destruct (enc_encode_props s Hs) as (-> & _).
  replace (s =? 0xFF) with false by (symmetry; apply Z.eqb_neq; lia).
  reflexivity.
Qed.

Lemma quantum_bytes_4 a b c :
  is_byte a -> is_byte b -> is_byte c ->
  let v := a * 2 ^ 16 + b * 2 ^ 8 + c in
  quantum_bytes [v / 2 ^ 18 mod 2 ^ 6; v / 2 ^ 12 mod 2 ^ 6;
                 v / 2 ^ 6 mod 2 ^ 6; v mod 2 ^ 6] = [a; b; c].
Proof.
  unfold is_byte. intros Ha Hb Hc. cbv zeta.
  set (v := a * 2 ^ 16 + b * 2 ^ 8 + c).
  unfold quantum_bytes, idx; cbn [nth length Nat.sub firstn].
  pose proof (sextet_range v 18). pose proof (sextet_range v 12).
  pose proof (sextet_range v 6). pose proof (sextet_range_0 v).
  rewrite !Z.shiftl_mul_pow2 by lia.
  rewrite (lor_hi_lo (v / 2 ^ 12 mod 2 ^ 6 * 2 ^ 12)) by lia.
  replace (v / 2 ^ 18 mod 2 ^ 6 * 2 ^ 18 + v / 2 ^ 12 mod 2 ^ 6 * 2 ^ 12)
    with ((v / 2 ^ 18 mod 2 ^ 6 * 2 ^ 6 + v / 2 ^ 12 mod 2 ^ 6) * 2 ^ 12) by lia.
  rewrite (lor_hi_lo (v / 2 ^ 6 mod 2 ^ 6 * 2 ^ 6)) by lia.
  replace ((v / 2 ^ 18 mod 2 ^ 6 * 2 ^ 6 + v / 2 ^ 12 mod 2 ^ 6) * 2 ^ 12 +
           v / 2 ^ 6 mod 2 ^ 6 * 2 ^ 6)
    with (((v / 2 ^ 18 mod 2 ^ 6 * 2 ^ 6 + v / 2 ^ 12 mod 2 ^ 6) * 2 ^ 6 +
           v / 2 ^ 6 mod 2 ^ 6) * 2 ^ 6) by lia.
  rewrite lor_hi_lo by lia.
  unfold uint8. rewrite !Z.shiftr_div_pow2 by lia.
  repeat f_equal; unfold v; Z.div_mod_to_equations; lia.
Qed.

Lemma quantum_bytes_3 a b :
  is_byte a -> is_byte b ->
  let v := a * 2 ^ 16 + b * 2 ^ 8 in
  quantum_bytes [v / 2 ^ 18 mod 2 ^ 6; v / 2 ^ 12 mod 2 ^ 6;
                 v / 2 ^ 6 mod 2 ^ 6] = [a; b].
Proof.
  unfold is_byte. intros Ha Hb. cbv zeta.
  set (v := a * 2 ^ 16 + b * 2 ^ 8).
  unfold quantum_bytes, idx; cbn [nth length Nat.sub firstn].
  pose proof (sextet_range v 18). pose proof (sextet_range v 12).
  pose proof (sextet_range v 6).
  rewrite !Z.shiftl_mul_pow2 by lia. rewrite Z.lor_0_r.
  rewrite (lor_hi_lo (v / 2 ^ 12 mod 2 ^ 6 * 2 ^ 12)) by lia.
  replace (v / 2 ^ 18 mod 2 ^ 6 * 2 ^ 18 + v / 2 ^ 12 mod 2 ^ 6 * 2 ^ 12)
    with ((v / 2 ^ 18 mod 2 ^ 6 * 2 ^ 6 + v / 2 ^ 12 mod 2 ^ 6) * 2 ^ 12) by lia.
  rewrite (lor_hi_lo (v / 2 ^ 6 mod 2 ^ 6 * 2 ^ 6)) by lia.
  unfold uint8. rewrite !Z.shiftr_div_pow2 by lia.
  repeat f_equal; unfold v; Z.div_mod_to_equations; lia.
Qed.

Lemma quantum_bytes_2 a :
  is_byte a ->
  let v := a * 2 ^ 16 in
  quantum_bytes [v / 2 ^ 18 mod 2 ^ 6; v / 2 ^ 12 mod 2 ^ 6] = [a].
Proof.
  unfold is_byte. intros Ha. cbv zeta.
  set (v := a * 2 ^ 16).
  unfold quantum_bytes, idx; cbn [nth length Nat.sub firstn].
  pose proof (sextet_range v 18). pose proof (sextet_range v 12).
  rewrite !Z.shiftl_mul_pow2 by lia. rewrite !Z.lor_0_r.
  rewrite (lor_hi_lo (v / 2 ^ 12 mod 2 ^ 6 * 2 ^ 12)) by lia.
  unfold uint8. rewrite !Z.shiftr_div_pow2 by lia.
  repeat f_equal; unfold v; Z.div_mod_to_equations; lia.
Qed.

Lemma Decode_Encode u :
  Forall is_byte u -> forall si, Decode (Encode u) si [] = Ok u.
Proof.
  induction u as [|a|a b|a b c u IH] using list_ind3; intros Hu si.
  - reflexivity.
  - apply Forall_cons_iff in Hu. destruct Hu as [Ha _].
    cbn [Encode]. cbv zeta. sextets_to_arith.
    rewrite !Decode_valid by apply sextet_range.
    cbn [app length Nat.eqb Decode].
    now rewrite (quantum_bytes_2 a Ha).
  - apply Forall_cons_iff in Hu. destruct Hu as [Ha Hu].
    apply Forall_cons_iff in Hu. destruct Hu as [Hb _].
    cbn [Encode]. cbv zeta. sextets_to_arith.
    rewrite !Decode_valid by apply sextet_range.
    cbn [app length Nat.eqb Decode].
    now rewrite (quantum_bytes_3 a b Ha Hb).
  - apply Forall_cons_iff in Hu. destruct Hu as [Ha Hu].
    apply Forall_cons_iff in Hu. destruct Hu as [Hb Hu].
    apply Forall_cons_iff in Hu. destruct Hu as [Hc Hu].
    cbn [Encode]. cbv zeta. sextets_to_arith.
    rewrite !Decode_valid by (apply sextet_range || apply sextet_range_0).
    cbn [app length Nat.eqb].
    rewrite (IH Hu). cbn [bind].
    now rewrite (quantum_bytes_4 a b c Ha Hb Hc).
Qed.

Lemma ParseB64_String u : wf_UUID u -> ParseB64 (UUIDB64_String u) = Ok u.
Proof.
  intros [Hlen Hb]. unfold ParseB64, UUIDB64_String, DecodeString.
  rewrite bytes_of_string_of_bytes by apply Encode_is_byte.
  rewrite Decode_Encode by assumption. cbn [bind]. f_equal.
  unfold copy, zero_UUID. rewrite repeat_length, Hlen.
  rewrite <- Hlen at 1. rewrite firstn_all.
  cbn [repeat skipn]. now rewrite app_nil_r.
Qed.
(** ** Scanning *)

Lemma is_hex_In r : is_hex r = true <-> In r hex_runes.
Proof.
  unfold is_hex, in_string, hex_runes. rewrite existsb_exists. split.
  - intros (x & Hx & E). apply Z.eqb_eq in E. now subst.
  - intros H. exists r. split; [assumption|apply Z.eqb_refl].
Qed.

Lemma hex_runes_props :
  Forall (fun r =>
    isSpace r = false /\ r <> newline /\ r <> carriage_return /\
    r <> hyphen /\ 0 <= r < 128 /\
    0 <= hex_digit_value r < 16 /\
    (if (48 <=? r) && (r <=? 57) then hex_digit_value r = r - 48
     else (97 <=? lower r) && (lower r <=? 122) = true /\
          hex_digit_value r = lower r - 97 + 10)) hex_runes.
Proof.
  unfold hex_runes. vm_compute bytes_of_string.
  repeat (apply Forall_cons;
          [repeat split; try (vm_compute; congruence); vm_compute; reflexivity|]).
  apply Forall_nil.
Qed.

Lemma is_hex_props r :
  is_hex r = true ->
  isSpace r = false /\ r <> newline /\ r <> carriage_return /\
  r <> hyphen /\ 0 <= r < 128 /\
  0 <= hex_digit_value r < 16 /\
  (if (48 <=? r) && (r <=? 57) then hex_digit_value r = r - 48
   else (97 <=? lower r) && (lower r <=? 122) = true /\
        hex_digit_value r = lower r - 97 + 10).
Proof.
  intros H. apply is_hex_In in H.
  pose proof hex_runes_props as P. rewrite Forall_forall in P.
  now apply P.
Qed.
Lemma isSpace_newline : isSpace newline = true.
Proof. reflexivity. Qed.

Lemma isSpace_carriage_return : isSpace carriage_return = true.
Proof. reflexivity. Qed.

Lemma SkipSpace_stop s : head_not_space s -> SkipSpace s = Ok s.
Proof.
  destruct s as [|r s]; [reflexivity|]. cbn [head_not_space SkipSpace].
  intros H.
  destruct (Z.eqb_spec r carriage_return) as [->|_];
    [rewrite isSpace_carriage_return in H; discriminate|].
  destruct (Z.eqb_spec r newline) as [->|_];
    [rewrite isSpace_newline in H; discriminate|].
  cbn [andb]. now rewrite H.
Qed.

Lemma SkipSpace_blank r s :
  is_blank r = true -> SkipSpace (r :: s) = SkipSpace s.
Proof.
  unfold is_blank. rewrite andb_true_iff, negb_true_iff.
  intros [Hs Hn]. cbn [SkipSpace]. rewrite Hn, Hs. cbn [negb].
  now destruct ((r =? carriage_return) && peek [newline] s).
Qed.

Lemma SkipSpace_blanks sp s :
  Forall (fun r => is_blank r = true) sp -> SkipSpace (sp ++ s) = SkipSpace s.
Proof.
  induction 1 as [|r sp Hr _ IH]; [reflexivity|].
  cbn [app]. now rewrite SkipSpace_blank.
Qed.

(** What [SkipSpace] returns: the input less its leading blanks. *)
Lemma SkipSpace_Ok s :
  forall s', SkipSpace s = Ok s' ->
  exists sp, s = sp ++ s' /\ Forall (fun r => is_blank r = true) sp /\
             head_not_space s'.
Proof.
  induction s as [|r s IH]; intros s' H.
  - cbn in H. injection H as <-. exists []. repeat split. constructor.
  - destruct (is_blank r) eqn:Hb.
    + rewrite SkipSpace_blank in H by assumption.
      destruct (IH s' H) as (sp & -> & Hsp & Hh).
      exists (r :: sp). repeat split; auto.
    + cbn [SkipSpace] in H. unfold is_blank in Hb.
      destruct (Z.eqb_spec r carriage_return) as [->|Hcr];
        [discriminate Hb|].
      cbn [andb] in H.
      destruct (Z.eqb_spec r newline) as [->|Hnl]; [discriminate H|].
      rewrite andb_false_iff in Hb.
      destruct Hb as [Hb|Hb]; [|discriminate Hb].
      rewrite Hb in H. cbn [negb] in H. injection H as <-.
      exists []. repeat split; [constructor|exact Hb].
Qed.

Lemma accept_while_app wid : forall g rest,
  Forall (fun r => is_hex r = true) g -> (length g <= wid)%nat ->
  (length g = wid \/ match rest with [] => True | r :: _ => is_hex r = false end) ->
  accept_while hexadecimalDigits wid (g ++ rest) = (g, rest).
Proof.
  induction wid as [|wid IH]; intros g rest Hg Hlen Hend.
  - destruct g; [reflexivity|cbn in Hlen; lia].
  - destruct g as [|r g].
    + cbn [app]. destruct Hend as [Hend|Hend]; [discriminate Hend|].
      destruct rest as [|r rest]; [reflexivity|].
      cbn [accept_while]. fold (is_hex r). now rewrite Hend.
    + apply Forall_cons_iff in Hg. destruct Hg as [Hr Hg].
      cbn [app accept_while]. fold (is_hex r). rewrite Hr.
      rewrite IH; [reflexivity|assumption|cbn in Hlen; lia|].
      destruct Hend as [Hend|Hend]; [left; cbn in Hend; lia|now right].
Qed.

(** What [accept_while] returns: a group of digits and what follows. *)
Lemma accept_while_spec wid : forall s tok rest,
  accept_while hexadecimalDigits wid s = (tok, rest) ->
  s = tok ++ rest /\ Forall (fun r => is_hex r = true) tok /\
  (length tok <= wid)%nat.
Proof.
  induction wid as [|wid IH]; intros s tok rest H.
  - cbn in H. injection H as <- <-. repeat split; auto.
  - destruct s as [|r s]; cbn [accept_while] in H.
    + injection H as <- <-. repeat split; auto. cbn; lia.
    + fold (is_hex r) in H. destruct (is_hex r) eqn:Hr.
      * destruct (accept_while hexadecimalDigits wid s) as [tok' rest'] eqn:E.
        injection H as <- <-.
        destruct (IH s tok' rest' E) as (-> & Ht & Hl).
        repeat split; [constructor; assumption|cbn; lia].
      * injection H as <- <-. repeat split; auto. cbn; lia.
Qed.

Lemma hex_value_snoc g r :
  hex_value (g ++ [r]) = hex_value g * 16 + hex_digit_value r.
Proof.
  unfold hex_value. rewrite map_app, digits_val_app by lia.
  cbn [map length]. unfold digits_val at 2. cbn [fold_left]. lia.
Qed.

Lemma hex_value_bound g :
  Forall (fun r => is_hex r = true) g ->
  0 <= hex_value g < 16 ^ Z.of_nat (length g).
Proof.
  intros Hg. unfold hex_value.
  rewrite <- (length_map hex_digit_value g).
  apply digits_val_bound; [lia|].
  apply Forall_map. eapply Forall_impl; [|exact Hg].
  intros r Hr. apply is_hex_props in Hr. unfold in_base. tauto.
Qed.

(** [ParseUint] reads a token of at most 16 hexadecimal digits as its
    value. *)
Lemma ParseUint_loop_hex tok : forall pre,
  Forall (fun r => is_hex r = true) pre ->
  Forall (fun r => is_hex r = true) tok ->
  (length pre + length tok <= 16)%nat ->
  ParseUint_loop tok (hex_value pre) = Ok (hex_value (pre ++ tok)).
Proof.
  induction tok as [|c tok IH]; intros pre Hpre Htok Hlen.
  - now rewrite app_nil_r.
  - apply Forall_cons_iff in Htok. destruct Htok as [Hc Htok].
    cbn [length] in Hlen.
    pose proof (hex_value_bound pre Hpre) as Bpre.
    assert (Bpre' : 0 <= hex_value pre < 16 ^ 15).
    { split; [lia|]. eapply Z.lt_le_trans; [apply Bpre|].
      apply Z.pow_le_mono_r; lia. }
    destruct (is_hex_props c Hc) as (_ & _ & _ & _ & _ & Hd & Hv).
    cbn [ParseUint_loop].
    assert (E : (if (48 <=? c) && (c <=? 57) then Ok (c - 48)
                 else if (97 <=? lower c) && (lower c <=? 122)
                      then Ok (lower c - 97 + 10) else Err ErrSyntax) =
                Ok (hex_digit_value c)).
    { destruct ((48 <=? c) && (c <=? 57)); [now rewrite Hv|].
      destruct Hv as [-> ->]. reflexivity. }
    rewrite E. cbn [bind].
    replace (hex_digit_value c >=? 16) with false
      by (symmetry; rewrite Z.geb_leb; apply Z.leb_gt; lia).
    replace (hex_value pre >=? 2 ^ 60) with false
      by (symmetry; rewrite Z.geb_leb; apply Z.leb_gt; lia).
    unfold uint64. rewrite Z.mod_small by lia.
    replace ((hex_value pre * 16 + hex_digit_value c <? hex_value pre * 16)
             || (hex_value pre * 16 + hex_digit_value c >? 2 ^ 64 - 1))
      with false.
    2:{ symmetry. apply orb_false_iff. split; [apply Z.ltb_ge; lia|].
        rewrite Z.gtb_ltb. apply Z.ltb_ge.
        assert (16 ^ 15 * 16 = 2 ^ 64) by reflexivity. lia. }
    rewrite <- hex_value_snoc.
    rewrite (IH (pre ++ [c])).
    + now rewrite <- app_assoc.
    + apply Forall_app. split; [assumption|]. now constructor.
    + assumption.
    + rewrite length_app. cbn [length]. lia.
Qed.

Lemma ParseUint_hex tok :
  tok <> [] -> Forall (fun r => is_hex r = true) tok ->
  (length tok <= 16)%nat -> ParseUint tok = Ok (hex_value tok).
Proof.
  intros Hne Htok Hlen. unfold ParseUint.
  destruct tok as [|c tok]; [contradiction|].
  apply (ParseUint_loop_hex (c :: tok) []); auto.
Qed.
Lemma accept_while_max wid : forall s tok rest,
  accept_while hexadecimalDigits wid s = (tok, rest) ->
  length tok = wid \/
  match rest with [] => True | r :: _ => is_hex r = false end.
Proof.
  induction wid as [|wid IH]; intros s tok rest H.
  - cbn in H. injection H as <- <-. now left.
  - destruct s as [|r s]; cbn [accept_while] in H.
    + injection H as <- <-. now right.
    + fold (is_hex r) in H. destruct (is_hex r) eqn:Hr.
      * destruct (accept_while hexadecimalDigits wid s) as [tok' rest'] eqn:E.
        injection H as <- <-.
        destruct (IH s tok' rest' E) as [Hl|Hm]; [left; cbn; lia|now right].
      * injection H as <- <-. now right.
Qed.

Lemma hex_group_head wid g rest :
  hex_group wid g -> head_not_space (g ++ rest).
Proof.
  intros (Hne & _ & Hg). destruct g as [|r g]; [contradiction|].
  apply Forall_cons_iff in Hg. destruct Hg as [Hr _].
  cbn. now apply is_hex_props in Hr.
Qed.

Lemma overflow_check_passes i n :
  0 < n <= 64 -> 0 <= i < 2 ^ n ->
  (uint64 (i << (64 - n)) >> (64 - n) =? i) = true.
Proof.
  intros Hn Hi. apply Z.eqb_eq. unfold uint64.
  rewrite Z.shiftl_mul_pow2, Z.shiftr_div_pow2 by lia.
  assert (0 < 2 ^ (64 - n)) by (apply Z.pow_pos_nonneg; lia).
  assert (E : 2 ^ n * 2 ^ (64 - n) = 2 ^ 64).
  { rewrite <- Z.pow_add_r by lia. f_equal. lia. }
  rewrite Z.mod_small by nia.
  apply Z.div_mul. lia.
Qed.

(** A verb on a well-shaped field: the blanks go, the digits are read as
    their value, the rest stays. *)
Lemma scan_verb_field wid bitSize sp g rest :
  (wid <= 16)%nat -> 4 * Z.of_nat wid <= bitSize <= 64 ->
  Forall (fun r => is_blank r = true) sp -> hex_group wid g ->
  (length g = wid \/ match rest with [] => True | r :: _ => is_hex r = false end) ->
  scan_verb wid bitSize (sp ++ g ++ rest) = Ok (hex_value g, rest).
Proof.
  intros Hw Hbits Hsp Hg Hend.
  pose proof (hex_group_head wid g rest Hg) as Hhead.
  destruct Hg as (Hne & Hlen & Hhex).
  unfold scan_verb, scanUint.
  rewrite SkipSpace_blanks by assumption.
  rewrite SkipSpace_stop by assumption. cbn [bind].
  rewrite SkipSpace_stop by assumption. cbn [bind].
  unfold scanNumber.
  assert (Hnotnil : notEOF (g ++ rest) = Ok tt)
    by (destruct g; [contradiction|reflexivity]).
  rewrite Hnotnil. cbn [bind].
  rewrite accept_while_app by assumption.
  destruct g as [|r g]; [contradiction|]. cbn [bind fst snd].
  rewrite ParseUint_hex by (assumption || lia). cbn [bind].
  pose proof (hex_value_bound (r :: g) Hhex) as Hb.
  assert (Hpow : 16 ^ Z.of_nat (length (r :: g)) <= 2 ^ bitSize).
  { change 16 with (2 ^ 4). rewrite <- Z.pow_mul_r by lia.
    apply Z.pow_le_mono_r; lia. }
  rewrite overflow_check_passes by (cbn [length] in *; lia).
  reflexivity.
Qed.

Lemma scan_verb_field_any wid bitSize sp g rest :
  (wid <= 16)%nat -> 4 * Z.of_nat wid <= bitSize <= 64 ->
  Forall (fun r => is_blank r = true) sp -> hex_group wid g ->
  exists v rest', scan_verb wid bitSize (sp ++ g ++ rest) = Ok (v, rest').
Proof.
  intros Hw Hbits Hsp Hg.
  destruct (accept_while hexadecimalDigits wid (g ++ rest)) as [tok rest']
    eqn:E.
  destruct (accept_while_spec _ _ _ _ E) as (Es & Htok & Hlen).
  pose proof (accept_while_max _ _ _ _ E) as Hmax.
  assert (Hne : tok <> []).
  { destruct Hg as (Hne & Hl & Hhex). destruct g as [|r g]; [contradiction|].
    apply Forall_cons_iff in Hhex. destruct Hhex as [Hr _].
    destruct wid as [|wid]; [cbn in Hl; lia|].
    cbn [app accept_while] in E. fold (is_hex r) in E. rewrite Hr in E.
    destruct (accept_while hexadecimalDigits wid (g ++ rest)).
    injection E as <- _. discriminate. }
  exists (hex_value tok), rest'. rewrite Es.
  apply scan_verb_field; auto. repeat split; assumption.
Qed.

(** What a verb has read when it returns. *)
Lemma scan_verb_Ok wid bitSize s v rest :
  scan_verb wid bitSize s = Ok (v, rest) -> scan_field wid s rest.
Proof.
  unfold scan_verb, scanUint. intros H.
  destruct (SkipSpace s) as [s1| |] eqn:E1; try discriminate H.
  destruct (SkipSpace_Ok s s1 E1) as (sp & -> & Hsp & Hhead).
  cbn [bind] in H. rewrite SkipSpace_stop in H by assumption.
  cbn [bind] in H.
  destruct (notEOF s1) as [[]| |]; try discriminate H. cbn [bind] in H.
  unfold scanNumber in H.
  destruct (notEOF s1) as [[]| |]; try discriminate H. cbn [bind] in H.
  destruct (accept_while hexadecimalDigits wid s1) as [tok rest'] eqn:E.
  destruct (accept_while_spec _ _ _ _ E) as (-> & Htok & Hlen).
  destruct tok as [|r tok]; [discriminate H|]. cbn [bind fst snd] in H.
  destruct (ParseUint (r :: tok)) as [i| |]; try discriminate H.
  cbn [bind] in H.
  destruct (negb _); [discriminate H|]. injection H as _ <-.
  exists sp, (r :: tok). repeat split; auto. discriminate.
Qed.

Lemma advance_Ok c s s' : advance c s = Ok s' -> s = c :: s'.
Proof.
  destruct s as [|r s]; cbn; [discriminate|].
  destruct (Z.eqb_spec c r) as [->|]; cbn; [|discriminate].
  now intros [= <-].
Qed.

Lemma advance_hyphen s : advance hyphen (hyphen :: s) = Ok s.
Proof. reflexivity. Qed.

Lemma hyphen_not_hex : is_hex hyphen = false.
Proof. reflexivity. Qed.

(** [Parse] returns an identifier exactly on the inputs of the loose
    shape. *)
Lemma Parse_runes_Ok_iff s :
  (exists u, Parse_runes s = Ok u) <-> loose_shape s.
Proof.
  split.
  - intros [u H]. unfold Parse_runes in H.
    destruct (scan_verb 8 32 s) as [[v1 r1]| |] eqn:E1; try discriminate H.
    cbn [bind fst snd] in H.
    destruct (advance hyphen r1) as [s1| |] eqn:A1; try discriminate H.
    apply advance_Ok in A1. subst r1. cbn [bind] in H.
    destruct (scan_verb 4 16 s1) as [[v2 r2]| |] eqn:E2; try discriminate H.
    cbn [bind fst snd] in H.
    destruct (advance hyphen r2) as [s2| |] eqn:A2; try discriminate H.
    apply advance_Ok in A2. subst r2. cbn [bind] in H.
    destruct (scan_verb 4 16 s2) as [[v3 r3]| |] eqn:E3; try discriminate H.
    cbn [bind fst snd] in H.
    destruct (advance hyphen r3) as [s3| |] eqn:A3; try discriminate H.
    apply advance_Ok in A3. subst r3. cbn [bind] in H.
    destruct (scan_verb 4 16 s3) as [[v4 r4]| |] eqn:E4; try discriminate H.
    cbn [bind fst snd] in H.
    destruct (advance hyphen r4) as [s4| |] eqn:A4; try discriminate H.
    apply advance_Ok in A4. subst r4. cbn [bind] in H.
    destruct (scan_verb 12 64 s4) as [[v5 r5]| |] eqn:E5; try discriminate H.
    exists s1, s2, s3, s4, r5.
    repeat split; eapply scan_verb_Ok; eassumption.
  - intros (s1 & s2 & s3 & s4 & rest & F1 & F2 & F3 & F4 & F5).
    destruct F1 as (sp1 & g1 & -> & B1 & G1).
    destruct F2 as (sp2 & g2 & -> & B2 & G2).
    destruct F3 as (sp3 & g3 & -> & B3 & G3).
    destruct F4 as (sp4 & g4 & -> & B4 & G4).
    destruct F5 as (sp5 & g5 & -> & B5 & G5).
    unfold Parse_runes.
    rewrite (scan_verb_field 8 32) by (auto; lia || (right; reflexivity)).
    cbn [bind fst snd]. rewrite advance_hyphen. cbn [bind].
    rewrite (scan_verb_field 4 16) by (auto; lia || (right; reflexivity)).
    cbn [bind fst snd]. rewrite advance_hyphen. cbn [bind].
    rewrite (scan_verb_field 4 16) by (auto; lia || (right; reflexivity)).
    cbn [bind fst snd]. rewrite advance_hyphen. cbn [bind].
    rewrite (scan_verb_field 4 16) by (auto; lia || (right; reflexivity)).
    cbn [bind fst snd]. rewrite advance_hyphen. cbn [bind].
    destruct (scan_verb_field_any 12 64 sp5 g5 rest) as (v5 & r5 & ->);
      auto; try lia.
    cbn [bind]. eexists. reflexivity.
Qed.
(** ** No scan panics *)

Lemma bind_no_panic {A B} (r : result A) (k : A -> result B) :
  no_panic r -> (forall a, no_panic (k a)) -> no_panic (bind r k).
Proof.
  unfold no_panic. destruct r; cbn [bind]; intros Hr Hk;
    [apply Hk|discriminate|contradiction].
Qed.

Lemma SkipSpace_no_panic s : no_panic (SkipSpace s).
Proof.
  induction s as [|r s IH]; cbn [SkipSpace]; [discriminate|].
  destruct ((r =? carriage_return) && peek [newline] s); [assumption|].
  destruct (r =? newline); [discriminate|].
  destruct (negb (isSpace r)); [discriminate|assumption].
Qed.

Lemma ParseUint_loop_no_panic tok : forall n, no_panic (ParseUint_loop tok n).
Proof.
  induction tok as [|c tok IH]; intros n; cbn [ParseUint_loop];
    [discriminate|].
  apply bind_no_panic.
  - destruct ((48 <=? c) && (c <=? 57)); [discriminate|].
    destruct ((97 <=? lower c) && (lower c <=? 122)); discriminate.
  - intros d. destruct (d >=? 16); [discriminate|].
    destruct (n >=? 2 ^ 60); [discriminate|].
    destruct (_ || _); [discriminate|apply IH].
Qed.

Lemma scan_verb_no_panic wid bitSize s : no_panic (scan_verb wid bitSize s).
Proof.
  unfold scan_verb, scanUint, scanNumber.
  apply bind_no_panic; [apply SkipSpace_no_panic|intros s1].
  apply bind_no_panic; [apply SkipSpace_no_panic|intros s2].
  apply bind_no_panic; [destruct s2; discriminate|intros _].
  apply bind_no_panic.
  - apply bind_no_panic; [destruct s2; discriminate|intros _].
    destruct (accept_while hexadecimalDigits wid s2) as [[|] ?]; discriminate.
  - intros p. apply bind_no_panic.
    + unfold ParseUint. destruct (fst p); [discriminate|].
      apply ParseUint_loop_no_panic.
    + intros i. destruct (negb _); discriminate.
Qed.

Lemma advance_no_panic c s : no_panic (advance c s).
Proof.
  destruct s as [|r s]; cbn; [discriminate|].
  destruct (negb (c =? r)); discriminate.
Qed.

Lemma Parse_runes_no_panic s : no_panic (Parse_runes s).
Proof.
  unfold Parse_runes.
  repeat (apply bind_no_panic;
          [apply scan_verb_no_panic || apply advance_no_panic|intros ?]).
  discriminate.
Qed.

Lemma Parse_runes_Err s :
  ~ loose_shape s -> exists e, Parse_runes s = Err e.
Proof.
  intros Hn. destruct (Parse_runes s) as [u|e|] eqn:E.
  - exfalso. apply Hn. apply Parse_runes_Ok_iff. now exists u.
  - now exists e.
  - exfalso. now apply (Parse_runes_no_panic s).
Qed.

(** ** Runes of ASCII text *)

Lemma DecodeRune_ascii b p : is_ascii b -> DecodeRune (b :: p) = (b, 1%nat).
Proof.
  unfold is_ascii. intros Hb. unfold DecodeRune, utf8_first, idx. cbn [nth].
  replace (b <? 0x80) with true by (symmetry; apply Z.ltb_lt; lia).
  reflexivity.
Qed.

Lemma runes_from_ascii p : forall fuel,
  Forall is_ascii p -> (length p <= fuel)%nat -> runes_from fuel p = p.
Proof.
  induction p as [|b p IH]; intros fuel Hp Hf.
  - destruct fuel; reflexivity.
  - destruct fuel as [|fuel]; [cbn in Hf; lia|].
    apply Forall_cons_iff in Hp. destruct Hp as [Hb Hp].
    cbn [runes_from]. rewrite DecodeRune_ascii by assumption.
    cbn [skipn]. f_equal. apply IH; [assumption|cbn in Hf; lia].
Qed.

Lemma runes_ascii p : Forall is_ascii p -> runes p = p.
Proof. intros. now apply runes_from_ascii. Qed.

Lemma is_hex_ascii g :
  Forall (fun r => is_hex r = true) g -> Forall is_ascii g.
Proof.
  apply Forall_impl. intros r Hr. apply is_hex_props in Hr.
  unfold is_ascii. tauto.
Qed.

(** ** The canonical form *)

Lemma hex_field_group wid g : (0 < wid)%nat -> hex_field wid g -> hex_group wid g.
Proof.
  intros Hw [Hl Hg]. repeat split; [|lia|assumption].
  intros ->. cbn in Hl. lia.
Qed.

Lemma exact_shape_loose s : exact_shape s -> loose_shape s.
Proof.
  intros (g1 & g2 & g3 & g4 & g5 & -> & F1 & F2 & F3 & F4 & F5).
  exists (g2 ++ [hyphen] ++ g3 ++ [hyphen] ++ g4 ++ [hyphen] ++ g5),
         (g3 ++ [hyphen] ++ g4 ++ [hyphen] ++ g5),
         (g4 ++ [hyphen] ++ g5), g5, [].
  assert (Hf : forall wid g rest, (0 < wid)%nat -> hex_field wid g ->
                scan_field wid (g ++ rest) rest).
  { intros wid g rest Hw Hg. exists [], g.
    split; [reflexivity|split; [constructor|now apply hex_field_group]]. }
  split; [|split; [|split; [|split]]]; try (apply Hf; [lia|assumption]).
  rewrite <- (app_nil_r g5) at 1. apply Hf; [lia|assumption].
Qed.

Lemma exact_shape_ascii s : exact_shape s -> Forall is_ascii s.
Proof.
  intros (g1 & g2 & g3 & g4 & g5 & -> & F1 & F2 & F3 & F4 & F5).
  assert (Hh : Forall is_ascii [hyphen])
    by (repeat constructor; unfold is_ascii, hyphen; lia).
  repeat (apply Forall_app; split);
    try assumption; apply is_hex_ascii;
    match goal with H : hex_field _ ?g |- Forall _ ?g => apply H end.
Qed.
Lemma ldigits_props d :
  0 <= d < 16 ->
  is_hex (char_at ldigits d) = true /\
  hex_digit_value (char_at ldigits d) = d.
Proof.
  intros Hd.
  assert (H : is_hex (char_at ldigits d) &&
              (hex_digit_value (char_at ldigits d) =? d) = true).
  { revert d Hd. apply (forallb_below 16). vm_compute. reflexivity. }
  rewrite andb_true_iff, Z.eqb_eq in H. exact H.
Qed.

Lemma nibbles_arith c :
  is_byte c -> c >> 4 = c / 16 /\ c .& 0xF = c mod 16.
Proof.
  intros Hc. split.
  - now rewrite Z.shiftr_div_pow2 by lia.
  - now apply (land_ones_mod c 4).
Qed.

Lemma hex_value_app g h :
  hex_value (g ++ h) = hex_value g * 16 ^ Z.of_nat (length h) + hex_value h.
Proof.
  unfold hex_value. rewrite map_app, digits_val_app by lia.
  now rewrite length_map.
Qed.

(** Printing bytes with [%x] gives two digits a byte, and the digits read
    back to the big-endian value of the bytes. *)
Lemma fmtSbx_hex bs :
  Forall is_byte bs ->
  Forall (fun r => is_hex r = true) (fmtSbx bs) /\
  length (fmtSbx bs) = (2 * length bs)%nat /\
  hex_value (fmtSbx bs) = be_val bs.
Proof.
  induction 1 as [|c bs Hc Hbs (IH1 & IH2 & IH3)].
  - repeat split. constructor.
  - change (fmtSbx (c :: bs))
      with ([char_at ldigits (c >> 4); char_at ldigits (c .& 0xF)] ++ fmtSbx bs).
    destruct (nibbles_arith c Hc) as [-> ->].
    unfold is_byte in Hc.
    assert (H1 : 0 <= c / 16 < 16) by (Z.div_mod_to_equations; lia).
    assert (H2 : 0 <= c mod 16 < 16) by (apply Z.mod_pos_bound; lia).
    destruct (ldigits_props _ H1) as [Hh1 Hv1].
    destruct (ldigits_props _ H2) as [Hh2 Hv2].
    split; [|split].
    + repeat (apply Forall_cons; [assumption|]). exact IH1.
    + rewrite length_app, IH2. cbn [length]. lia.
    + rewrite hex_value_app, IH3, IH2.
      unfold hex_value at 1. cbn [map]. rewrite Hv1, Hv2.
      unfold digits_val at 1. cbn [fold_left].
      unfold be_val. rewrite digits_val_cons by lia.
      replace (Z.of_nat (2 * length bs)) with (2 * Z.of_nat (length bs)) by lia.
      rewrite Z.pow_mul_r by lia. change (16 ^ 2) with 256.
      Z.div_mod_to_equations; nia.
Qed.
(** [Parse] on the canonical shape: each group is read as its value and
    stored in its bytes. *)
Lemma Parse_runes_exact g1 g2 g3 g4 g5 :
  hex_field 8 g1 -> hex_field 4 g2 -> hex_field 4 g3 -> hex_field 4 g4 ->
  hex_field 12 g5 ->
  Parse_runes (g1 ++ [hyphen] ++ g2 ++ [hyphen] ++ g3 ++ [hyphen] ++ g4 ++
               [hyphen] ++ g5) =
  Ok (store (store (store (store (store zero_UUID 8 (PutUint64 (hex_value g5)))
        8 (PutUint16 (uint16 (uint16 (hex_value g4)))))
        6 (PutUint16 (uint16 (uint16 (hex_value g3)))))
        4 (PutUint16 (uint16 (uint16 (hex_value g2)))))
        0 (PutUint32 (uint32 (uint32 (hex_value g1))))).
Proof.
  intros F1 F2 F3 F4 F5.
  assert (Hs : forall wid bitSize g rest,
             (0 < wid <= 16)%nat -> 4 * Z.of_nat wid <= bitSize <= 64 ->
             hex_field wid g ->
             (match rest with [] => True | r :: _ => is_hex r = false end) ->
             scan_verb wid bitSize (g ++ rest) = Ok (hex_value g, rest)).
  { intros wid bitSize g rest Hw Hb Hg Hr.
    apply (scan_verb_field wid bitSize [] g rest); auto; try lia.
    apply hex_field_group; [lia|assumption]. }
  unfold Parse_runes. cbn [app].
  rewrite (Hs 8%nat 32) by (assumption || lia || reflexivity).
  cbn [bind fst snd]. rewrite advance_hyphen. cbn [bind].
  rewrite (Hs 4%nat 16) by (assumption || lia || reflexivity).
  cbn [bind fst snd]. rewrite advance_hyphen. cbn [bind].
  rewrite (Hs 4%nat 16) by (assumption || lia || reflexivity).
  cbn [bind fst snd]. rewrite advance_hyphen. cbn [bind].
  rewrite (Hs 4%nat 16) by (assumption || lia || reflexivity).
  cbn [bind fst snd]. rewrite advance_hyphen. cbn [bind].
  replace (scan_verb 12 64 g5) with (scan_verb 12 64 (g5 ++ []))
    by now rewrite app_nil_r.
  rewrite (Hs 12%nat 64) by (assumption || lia || exact I).
  reflexivity.
Qed.

Lemma fmtSbx_field bs n :
  Forall is_byte bs -> length bs = n -> hex_field (2 * n) (fmtSbx bs).
Proof.
  intros Hb <-. destruct (fmtSbx_hex bs Hb) as (H1 & H2 & _). now split.
Qed.

Lemma PutUint32_be_val bs :
  length bs = 4%nat -> Forall is_byte bs ->
  PutUint32 (uint32 (uint32 (be_val bs))) = bs.
Proof.
  intros Hl Hb. pose proof (be_val_bound bs Hb) as Hr. rewrite Hl in Hr.
  change (256 ^ Z.of_nat 4) with (2 ^ 32) in Hr.
  unfold uint32. rewrite Z.mod_mod by lia. rewrite Z.mod_small by lia.
  apply be_val_inj; auto using Forall_is_byte_PutUint32.
  apply be_val_PutUint32. lia.
Qed.

Lemma PutUint16_be_val bs :
  length bs = 2%nat -> Forall is_byte bs ->
  PutUint16 (uint16 (uint16 (be_val bs))) = bs.
Proof.
  intros Hl Hb. pose proof (be_val_bound bs Hb) as Hr. rewrite Hl in Hr.
  change (256 ^ Z.of_nat 2) with (2 ^ 16) in Hr.
  unfold uint16. rewrite Z.mod_mod by lia. rewrite Z.mod_small by lia.
  apply be_val_inj; auto using Forall_is_byte_PutUint16.
  apply be_val_PutUint16. lia.
Qed.

Lemma PutUint64_be_val_6 bs :
  length bs = 6%nat -> Forall is_byte bs ->
  PutUint64 (be_val bs) = 0 :: 0 :: bs.
Proof.
  intros Hl Hb. pose proof (be_val_bound bs Hb) as Hr. rewrite Hl in Hr.
  change (256 ^ Z.of_nat 6) with (2 ^ 48) in Hr.
  apply be_val_inj.
  - cbn. now rewrite Hl.
  - apply Forall_is_byte_PutUint64.
  - repeat (apply Forall_cons; [unfold is_byte; lia|]). exact Hb.
  - rewrite be_val_PutUint64 by lia.
    unfold be_val. rewrite !digits_val_cons by lia. lia.
Qed.

Lemma UUID_String_bytes_is_byte u :
  wf_UUID u -> Forall is_ascii (UUID_String_bytes u).
Proof.
  intros [Hl Hb]. unfold UUID_String_bytes.
  assert (Hh : Forall is_ascii [hyphen])
    by (repeat constructor; unfold is_ascii, hyphen; lia).
  assert (Hf : forall bs, Forall is_byte bs -> Forall is_ascii (fmtSbx bs)).
  { intros bs Hbs. apply is_hex_ascii. now apply fmtSbx_hex. }
  unfold slice, slice_from.
  repeat (apply Forall_app; split); try assumption; apply Hf;
    repeat (apply Forall_firstn || apply Forall_skipn); assumption.
Qed.

Lemma is_ascii_is_byte l : Forall is_ascii l -> Forall is_byte l.
Proof. apply Forall_impl. unfold is_ascii, is_byte. intros; lia. Qed.

Lemma Parse_String u : wf_UUID u -> Parse (UUID_String u) = Ok u.
Proof.
  intros Hwf. pose proof (UUID_String_bytes_is_byte u Hwf) as Hascii.
  unfold Parse, UUID_String.
  rewrite bytes_of_string_of_bytes by now apply is_ascii_is_byte.
  rewrite runes_ascii by assumption.
  destruct Hwf as [Hl Hb]. open_list u Hl.
  repeat (apply Forall_cons_iff in Hb; destruct Hb as [? Hb]).
  unfold UUID_String_bytes, slice, slice_from.
  cbn [skipn firstn Nat.sub].
  rewrite Parse_runes_exact
    by (apply (fmtSbx_field _ 4) || apply (fmtSbx_field _ 2) ||
        apply (fmtSbx_field _ 6); [solve_Forall|reflexivity]).
  repeat match goal with
         | |- context [hex_value (fmtSbx ?bs)] =>
             replace (hex_value (fmtSbx bs)) with (be_val bs)
               by (symmetry; apply fmtSbx_hex; solve_Forall)
         end.
  rewrite PutUint32_be_val, !PutUint16_be_val, PutUint64_be_val_6
    by (reflexivity || solve_Forall).
  reflexivity.
Qed.

(** C4: parsing the canonical form of an identifier gives the identifier
    back, and so does parsing its compact form; the nil identifier is one
    of them. *)
Theorem Parse_String_round_trip (u : UUID) :
  wf_UUID u ->
  Parse (UUID_String u) = Ok u /\ ParseB64 (UUIDB64_String u) = Ok u.
Proof.
  intros Hwf. split; [now apply Parse_String|now apply ParseB64_String].
Qed.

Lemma Parse_String_round_trip_witness :
  wf_UUID zero_UUID /\ UUID_IsNil zero_UUID = true /\
  Parse (UUID_String zero_UUID) = Ok zero_UUID /\
  ParseB64 (UUIDB64_String zero_UUID) = Ok zero_UUID.
Proof.
  assert (Hwf : wf_UUID zero_UUID).
  { split; [reflexivity|]. repeat constructor; unfold is_byte; lia. }
  split; [exact Hwf|]. split; [reflexivity|].
  apply (Parse_String_round_trip zero_UUID Hwf).
Defined.
Lemma exact_shape_length s : exact_shape s -> length s = 36%nat.
Proof.
  intros (g1 & g2 & g3 & g4 & g5 & -> & [L1 _] & [L2 _] & [L3 _] & [L4 _] &
          [L5 _]).
  rewrite !length_app. cbn [length]. lia.
Qed.

(** C7, as the specification has it, fails: [Sscanf] takes a width as a
    maximum, skips blanks before a verb and does not look past the last
    verb.  Groups that are too short, a blank before a group and text
    after the 36th character are all accepted. *)
Lemma Parse_accepts_malformed_text :
  (~ exact_shape (bytes_of_string "1-2-3-4-5") /\
   Parse "1-2-3-4-5" = Ok [0; 0; 0; 1; 0; 2; 0; 3; 0; 4; 0; 0; 0; 0; 0; 5]) /\
  (~ exact_shape (bytes_of_string "1ec0450e-5a64-6ca0-80fc-abd6a5cdb616zzz") /\
   Parse "1ec0450e-5a64-6ca0-80fc-abd6a5cdb616zzz" =
     Ok [30; 192; 69; 14; 90; 100; 108; 160; 128; 252; 171; 214; 165; 205;
         182; 22]) /\
  (~ exact_shape (bytes_of_string " 1ec0450e- 5a64-6ca0-80fc-abd6a5cdb616") /\
   Parse " 1ec0450e- 5a64-6ca0-80fc-abd6a5cdb616" =
     Ok [30; 192; 69; 14; 90; 100; 108; 160; 128; 252; 171; 214; 165; 205;
         182; 22]).
Proof.
  repeat split;
    try (intros H; apply exact_shape_length in H; vm_compute in H;
         discriminate H);
    vm_compute; reflexivity.
Qed.

(** C7, amended: [Parse] succeeds on every string of exactly five
    hyphen-delimited hexadecimal groups of widths 8/4/4/4/12, in either
    case.  It succeeds exactly on the text of the looser shape that the
    scanner takes: five groups of at least one and at most 8, 4, 4, 4 and
    12 hexadecimal digits, each but the last followed at once by a hyphen,
    each after any number of blanks, with anything after the fifth group.
    On every other text it returns an error. *)
Theorem Parse_shape (us : String.string) :
  (exact_shape (bytes_of_string us) -> exists u, Parse us = Ok u) /\
  ((exists u, Parse us = Ok u) <-> loose_shape (runes (bytes_of_string us))) /\
  (~ loose_shape (runes (bytes_of_string us)) -> exists e, Parse us = Err e).
Proof.
  unfold Parse. split; [|split].
  - intros H. apply Parse_runes_Ok_iff.
    rewrite runes_ascii by now apply exact_shape_ascii.
    now apply exact_shape_loose.
  - apply Parse_runes_Ok_iff.
  - apply Parse_runes_Err.
Qed.

(** Both cases of the hexadecimal digits, and the errors the claim lists. *)
Example Parse_samples :
  Parse "1EC0450E-5A64-6CA0-80FC-ABD6A5CDB616" =
    Parse "1ec0450e-5a64-6ca0-80fc-abd6a5cdb616" /\
  Parse "1ec0450e5-5a64-6ca0-80fc-abd6a5cdb616" = Err ErrInputDoesNotMatchFormat /\
  Parse "1ec0450g-5a64-6ca0-80fc-abd6a5cdb616" = Err ErrInputDoesNotMatchFormat /\
  Parse "1ec0450e_5a64-6ca0-80fc-abd6a5cdb616" = Err ErrInputDoesNotMatchFormat /\
  Parse "1ec0450e-5a64-6ca0-80fc-" = Err ErrEOF /\
  Parse "1ec0450e-5a64-6ca0-80fc" = Err ErrUnexpectedEOF /\
  Parse "-1ec0450e-5a64-6ca0-80fc-abd6a5cdb616" = Err ErrExpectedInteger /\
  Parse EmptyString = Err ErrEOF.
Proof. repeat split; vm_compute; reflexivity. Qed.
(** * Further properties of the package *)

(** ** The nil identifier *)

Lemma be_val_zero_iff l :
  Forall is_byte l -> (be_val l = 0 <-> l = repeat 0 (length l)).
Proof.
  intros Hl. split.
  - intros Hv. apply be_val_inj; auto.
    + now rewrite repeat_length.
    + clear. induction (length l); cbn; constructor; auto.
      unfold is_byte. lia.
    + rewrite Hv. clear. unfold be_val.
      induction (length l) as [|n IH]; [reflexivity|].
      cbn [repeat]. rewrite digits_val_cons by lia. rewrite <- IH. lia.
  - intros ->. clear. unfold be_val.
    induction (length l) as [|n IH]; [reflexivity|].
    cbn [repeat]. rewrite digits_val_cons by lia. rewrite IH. lia.
Qed.

Lemma Uint64_is_be_val b :
  length b = 8%nat -> Forall is_byte b -> Uint64 b = be_val b.
Proof. intros Hl Hb. open_list b Hl. now apply Uint64_be_val. Qed.

(** X1: [IsNil] holds of the all-zero identifier and of no other. *)
Theorem UUID_IsNil_iff_zero (u : UUID) :
  wf_UUID u -> (UUID_IsNil u = true <-> u = zero_UUID).
Proof.
  intros Hwf.
  destruct (wf_UUID_slice_0_8 u Hwf) as [L1 B1].
  destruct (wf_UUID_slice_8_16 u Hwf) as [L2 B2].
  unfold UUID_IsNil. rewrite Z.eqb_eq, Z.lor_eq_0_iff.
  rewrite !Uint64_is_be_val by assumption.
  rewrite !be_val_zero_iff by assumption. rewrite L1, L2.
  split.
  - intros [H1 H2]. rewrite (wf_UUID_halves u Hwf), H1, H2. reflexivity.
  - intros ->. split; reflexivity.
Qed.

Lemma UUID_IsNil_iff_zero_witness :
  UUID_IsNil zero_UUID = true /\
  UUID_IsNil [0; 0; 0; 0; 0; 0; 0; 0; 0; 0; 0; 0; 0; 0; 0; 1] = false.
Proof.
  split.
  - apply (UUID_IsNil_iff_zero zero_UUID); [|reflexivity].
    split; [reflexivity|]. repeat constructor; unfold is_byte; lia.
  - reflexivity.
Defined.

(** ** The node of a generated identifier *)

Lemma NewFromTime_stored_node t r g :
  0 < node g < 2 ^ 48 -> alwaysRandomizeNode g = false ->
  UUID_Node (fst (NewFromTime t r g)) = node g.
Proof.
  intros Hn Hf. rewrite NewFromTime_unfold. cbn [fst].
  rewrite Hf. cbn [orb].
  replace (node g =? 0) with false by (symmetry; apply Z.eqb_neq; lia).
  cbv zeta. rewrite lo_word_arith by lia.
  set (cs := if lastts g >=? tstime t then uint32 (clockseq g + 1)
             else clockseq g).
  assert (0 <= cs mod 2 ^ 14 < 2 ^ 14) by (apply Z.mod_pos_bound; lia).
  rewrite UUID_Node_of_words by (reflexivity || lia).
  Z.div_mod_to_equations; lia.
Qed.

Lemma NewFromTime_keeps_node t r g :
  node (snd (NewFromTime t r g)) = node g /\
  alwaysRandomizeNode (snd (NewFromTime t r g)) = alwaysRandomizeNode g.
Proof. rewrite NewFromTime_unfold. split; reflexivity. Qed.

Lemma generate_stored_node calls :
  forall g, 0 < node g < 2 ^ 48 -> alwaysRandomizeNode g = false ->
  Forall (fun u => UUID_Node u = node g) (fst (generate calls g)) /\
  node (snd (generate calls g)) = node g /\
  alwaysRandomizeNode (snd (generate calls g)) = false.
Proof.
  induction calls as [|[t r] calls IH]; intros g Hn Hf; cbn [generate].
  - repeat split; [constructor|assumption].
  - pose proof (NewFromTime_stored_node t r g Hn Hf) as Hu.
    destruct (NewFromTime_keeps_node t r g) as [Hn1 Hf1].
    destruct (NewFromTime t r g) as [u g1]. cbn [fst snd] in *.
    destruct (IH g1) as (Hus & Hn2 & Hf2); [lia|congruence|].
    destruct (generate calls g1) as [us g2]. cbn [fst snd] in *.
    rewrite Hn1 in *. repeat split; [constructor|..]; assumption.
Qed.

(** X2: after [SetNode(n)] with a non-zero node of 48 bits, every
    identifier generated carries [n] as its node and [GetNode] returns
    [n], whether or not always-randomize was on before. *)
Theorem SetNode_pins_node (n : Z) (g : Generator)
    (calls : list (time_Time * rand_outcome)) :
  0 < n < 2 ^ 48 ->
  let g0 := SetNode n g in
  GetNode g0 = n /\
  Forall (fun u => UUID_Node u = n) (fst (generate calls g0)) /\
  GetNode (snd (generate calls g0)) = n.
Proof.
  intros Hn. cbv zeta.
  destruct (generate_stored_node calls (SetNode n g)) as (H1 & H2 & _);
    [exact Hn|reflexivity|].
  repeat split; assumption.
Qed.

Lemma SetNode_pins_node_witness :
  let g := AlwaysRandomizeNode (init None [] None) in
  let calls := [(mkTime 1600000000 0, Some [1; 2; 3; 4; 5; 6; 7; 8]);
                (mkTime 1600000000 0, None)] in
  Forall (fun u => UUID_Node u = 123) (fst (generate calls (SetNode 123 g))).
Proof.
  cbv zeta.
  apply (SetNode_pins_node 123 (AlwaysRandomizeNode (init None [] None))
           [(mkTime 1600000000 0, Some [1; 2; 3; 4; 5; 6; 7; 8]);
            (mkTime 1600000000 0, None)]).
  lia.
Defined.

Lemma NewFromTime_always_random t r g :
  alwaysRandomizeNode g = true ->
  UUID_Node (fst (NewFromTime t r g)) = getRandomNode r.
Proof.
  intros Hf. rewrite NewFromTime_unfold. cbn [fst].
  rewrite Hf. cbn [orb]. cbv zeta.
  pose proof (getRandomNode_range r) as Hr.
  rewrite lo_word_arith by lia.
  set (cs := if lastts g >=? tstime t then uint32 (clockseq g + 1)
             else clockseq g).
  assert (0 <= cs mod 2 ^ 14 < 2 ^ 14) by (apply Z.mod_pos_bound; lia).
  rewrite UUID_Node_of_words by (reflexivity || lia).
  Z.div_mod_to_equations; lia.
Qed.

Lemma generate_always_random calls :
  forall g, alwaysRandomizeNode g = true ->
  map UUID_Node (fst (generate calls g)) =
    map (fun c => getRandomNode (snd c)) calls /\
  node (snd (generate calls g)) = node g.
Proof.
  induction calls as [|[t r] calls IH]; intros g Hf; cbn [generate].
  - now split.
  - pose proof (NewFromTime_always_random t r g Hf) as Hu.
    destruct (NewFromTime_keeps_node t r g) as [Hn1 Hf1].
    destruct (NewFromTime t r g) as [u g1]. cbn [fst snd] in *.
    destruct (IH g1) as (Hus & Hn2); [congruence|].
    destruct (generate calls g1) as [us g2]. cbn [fst snd map] in *.
    split; [now rewrite Hu, Hus|congruence].
Qed.

(** X3: after [AlwaysRandomizeNode()] every identifier carries the node
    drawn in its own call, whatever node is stored, and the stored node
    that [GetNode] returns does not change; a failed read of the random
    source gives the node zero, not the stored one. *)
Theorem AlwaysRandomizeNode_draws_per_call (g : Generator)
    (calls : list (time_Time * rand_outcome)) :
  let g0 := AlwaysRandomizeNode g in
  map UUID_Node (fst (generate calls g0)) =
    map (fun c => getRandomNode (snd c)) calls /\
  GetNode (snd (generate calls g0)) = GetNode g /\
  (forall t, UUID_Node (fst (NewFromTime t None g0)) = 0).
Proof.
  cbv zeta.
  destruct (generate_always_random calls (AlwaysRandomizeNode g) eq_refl)
    as [H1 H2].
  repeat split; try assumption.
  intros t. now rewrite NewFromTime_always_random.
Qed.
(** ** Generated identifiers and time *)

Lemma NewFromTime_wf t r g : wf_UUID (fst (NewFromTime t r g)).
Proof.
  rewrite NewFromTime_unfold. cbn [fst]. split; [reflexivity|].
  apply Forall_app. split; apply Forall_is_byte_PutUint64.
Qed.

Lemma NewFromTime_conforming t r g :
  0 <= node g < 2 ^ 48 -> conforming (fst (NewFromTime t r g)).
Proof.
  intros Hn. destruct (NewFromTime_wf t r g) as [_ Hb].
  apply conforming_check; [assumption|].
  destruct (NewFromTime_version_and_not_nil t r g) as [Hv _].
  cbv zeta in Hv. rewrite Hv, (NewFromTime_variant t r g Hn). reflexivity.
Qed.

Lemma NewFromTime_timestamp_word t r g :
  Uint64 (slice 0 8 (fst (NewFromTime t r g))) =
  tstime t / 2 ^ 12 * 2 ^ 16 + 6 * 2 ^ 12 + tstime t mod 2 ^ 12.
Proof.
  rewrite NewFromTime_unfold. cbn [fst].
  pose proof (hi_word_range t) as Hr. pose proof (tstime_range t) as Ht.
  match goal with
  | |- Uint64 (slice 0 8 (PutUint64 ?h ++ ?l)) = _ =>
      change (slice 0 8 (PutUint64 h ++ l)) with (PutUint64 h)
  end.
  rewrite Uint64_PutUint64 by lia.
  apply hi_word_arith. lia.
Qed.

(** The instant of a conforming identifier whose nanoseconds fit an
    [int64]. *)
Lemma UUID_Time_nanos u :
  wf_UUID u -> conforming u ->
  - 2 ^ 63 <= (timestamp_of_word (Uint64 (slice 0 8 u)) - tsoff) * 100 < 2 ^ 63 ->
  nanos_since_epoch (UUID_Time u) =
  (timestamp_of_word (Uint64 (slice 0 8 u)) - tsoff) * 100.
Proof.
  intros Hwf Hconf Hrange. pose proof Hwf as [Hlen Hb].
  unfold UUID_Time.
  replace (((idx u 6 .& 0xF0) =? 0x60) && ((idx u 8 .& 0xC0) =? 0x80))
    with true by (symmetry; now apply conforming_check).
  cbn [negb].
  destruct (wf_UUID_slice_0_8 u Hwf) as [L8 B8].
  pose proof (Uint64_range _ L8 B8) as Hhi.
  rewrite timestamp_word_arith by assumption.
  set (ts := timestamp_of_word (Uint64 (slice 0 8 u))) in *.
  assert (Hts : 0 <= ts < 2 ^ 60).
  { unfold ts, timestamp_of_word. Z.div_mod_to_equations; lia. }
  assert (E1 : int64 (uint64 (ts - tsoff)) = ts - tsoff).
  { unfold int64, uint64, tsoff. Z.div_mod_to_equations; lia. }
  rewrite E1. rewrite int64_small by lia.
  set (ut := (ts - tsoff) * 100) in *.
  pose proof (Z.quot_rem' ut 1000000000) as Hq.
  pose proof (Z.rem_bound_abs ut 1000000000) as Hr.
  destruct (time_Unix_nanos (Z.quot ut 1000000000) (Z.rem ut 1000000000))
    as [Hn _]; [lia|lia|]. lia.
Qed.

(** X4: the instant read back from a generated identifier is the instant
    it was generated for, cut towards the Unix epoch to a multiple of
    100 ns; it is less than 100 ns away. *)
Theorem Time_of_NewFromTime (t : time_Time) (r : rand_outcome) (g : Generator) :
  representable t -> 0 <= node g < 2 ^ 48 ->
  let t' := UUID_Time (fst (NewFromTime t r g)) in
  nanos_since_epoch t' = Z.quot (nanos_since_epoch t) 100 * 100 /\
  Z.abs (nanos_since_epoch t - nanos_since_epoch t') < 100.
Proof.
  intros Hrep Hn. cbv zeta.
  pose proof (NewFromTime_wf t r g) as Hwf.
  pose proof (NewFromTime_conforming t r g Hn) as Hconf.
  pose proof (NewFromTime_timestamp_word t r g) as Hw.
  pose proof (tstime_range t) as Hts.
  pose proof (tstime_eq t) as Ets.
  rewrite (UnixNano_representable t Hrep) in Ets.
  pose proof (Z.quot_rem' (nanos_since_epoch t) 100) as Hq.
  pose proof (Z.rem_bound_abs (nanos_since_epoch t) 100) as Hr.
  unfold representable in Hrep.
  assert (E : timestamp_of_word
                (Uint64 (slice 0 8 (fst (NewFromTime t r g)))) = tstime t).
  { rewrite Hw. unfold timestamp_of_word. Z.div_mod_to_equations; lia. }
  rewrite UUID_Time_nanos; try assumption; rewrite E, Ets.
  - specialize (Hr ltac:(lia)). change (Z.abs 100) with 100 in Hr.
    set (q := Z.quot (nanos_since_epoch t) 100) in *.
    set (m := Z.rem (nanos_since_epoch t) 100) in *.
    clearbody q m. split; lia.
  - specialize (Hr ltac:(lia)). change (Z.abs 100) with 100 in Hr.
    destruct (Z.le_ge_cases 0 (nanos_since_epoch t)) as [Hs|Hs].
    + pose proof (Z.rem_nonneg (nanos_since_epoch t) 100 ltac:(lia) Hs).
      lia.
    + pose proof (Z.rem_nonpos (nanos_since_epoch t) 100 ltac:(lia) Hs).
      lia.
Qed.

Lemma Time_of_NewFromTime_witness :
  let g := init None [] (Some [0; 0; 0; 0; 0; 0; 0; 7]) in
  nanos_since_epoch
    (UUID_Time (fst (NewFromTime (mkTime 1600000000 123456789) None g))) =
  1600000000123456700.
Proof.
  cbv zeta.
  destruct (Time_of_NewFromTime (mkTime 1600000000 123456789) None
              (init None [] (Some [0; 0; 0; 0; 0; 0; 0; 7]))) as [H _].
  - unfold representable, nanos_since_epoch; cbn; lia.
  - vm_compute. split; [discriminate|reflexivity].
  - rewrite H. reflexivity.
Defined.

(** X6: [Compare] on two generated identifiers is the order of the
    100 ns ticks they were generated for, whatever the generator states,
    clock sequences and nodes. *)
Theorem Compare_of_generated (t1 t2 : time_Time) (r1 r2 : rand_outcome)
    (g1 g2 : Generator) :
  UUID_Compare (fst (NewFromTime t1 r1 g1)) (fst (NewFromTime t2 r2 g2)) =
  (Z.quot (UnixNano t1) 100 <=? Z.quot (UnixNano t2) 100).
Proof.
  unfold UUID_Compare. rewrite !NewFromTime_timestamp_word.
  pose proof (tstime_range t1) as H1. pose proof (tstime_range t2) as H2.
  assert (E : (Z.quot (UnixNano t1) 100 <=? Z.quot (UnixNano t2) 100) =
              (tstime t1 <=? tstime t2)).
  { rewrite !tstime_eq.
    destruct (Z.leb_spec (Z.quot (UnixNano t1) 100) (Z.quot (UnixNano t2) 100));
      symmetry; [apply Z.leb_le|apply Z.leb_gt]; lia. }
  rewrite E.
  destruct (Z.leb_spec (tstime t1) (tstime t2));
    [apply Z.leb_le|apply Z.leb_gt]; Z.div_mod_to_equations; lia.
Qed.

Lemma conforming_word u :
  wf_UUID u -> conforming u ->
  Uint64 (slice 0 8 u) / 2 ^ 12 mod 2 ^ 4 = 6.
Proof.
  intros [Hl Hb] [Hv _]. unfold version_nibble in Hv.
  open_list u Hl. unfold idx in Hv. cbn [nth] in Hv.
  repeat (apply Forall_cons_iff in Hb; destruct Hb as [? Hb]).
  unfold slice. cbn [skipn firstn Nat.sub].
  rewrite Uint64_be_val by solve_Forall.
  unfold be_val, digits_val; cbn [fold_left]. unfold is_byte in *.
  Z.div_mod_to_equations; lia.
Qed.

(** X7: for identifiers of version 6 whose instants fit an [int64] of
    nanoseconds, the order of the raw bytes agrees with the order of the
    instants: [Compare] holds exactly when the first instant is not after
    the second, and an identifier that is not above another in byte order
    is not after it in time. *)
Theorem byte_order_is_time_order (a b : UUID) :
  wf_UUID a -> wf_UUID b -> conforming a -> conforming b ->
  - 2 ^ 63 <= (timestamp_of_word (Uint64 (slice 0 8 a)) - tsoff) * 100 < 2 ^ 63 ->
  - 2 ^ 63 <= (timestamp_of_word (Uint64 (slice 0 8 b)) - tsoff) * 100 < 2 ^ 63 ->
  (UUID_Compare a b = true <->
   time_le (UUID_Time a) (UUID_Time b)) /\
  (bytes_Compare a b <> Gt -> time_le (UUID_Time a) (UUID_Time b)).
Proof.
  intros Ha Hb Ca Cb Ra Rb.
  unfold time_le. rewrite !UUID_Time_nanos by assumption.
  pose proof (conforming_word a Ha Ca) as Wa.
  pose proof (conforming_word b Hb Cb) as Wb.
  destruct (wf_UUID_slice_0_8 a Ha) as [La Ba].
  destruct (wf_UUID_slice_0_8 b Hb) as [Lb Bb].
  pose proof (Uint64_range _ La Ba) as Hra.
  pose proof (Uint64_range _ Lb Bb) as Hrb.
  assert (Hord : Uint64 (slice 0 8 a) <= Uint64 (slice 0 8 b) <->
                 (timestamp_of_word (Uint64 (slice 0 8 a)) - tsoff) * 100 <=
                 (timestamp_of_word (Uint64 (slice 0 8 b)) - tsoff) * 100).
  { unfold timestamp_of_word. clear Ra Rb.
    set (x := Uint64 (slice 0 8 a)) in *. set (y := Uint64 (slice 0 8 b)) in *.
    split; intros H; Z.div_mod_to_equations; lia. }
  split.
  - unfold UUID_Compare. rewrite Z.leb_le. exact Hord.
  - intros Hc. apply Hord.
    rewrite (wf_UUID_halves a Ha), (wf_UUID_halves b Hb) in Hc.
    rewrite bytes_Compare_app in Hc by congruence.
    rewrite <- Uint64_compare_slices in Hc by assumption.
    destruct (Z.compare_spec (Uint64 (slice 0 8 a)) (Uint64 (slice 0 8 b)));
      [lia|lia|contradiction].
Qed.

Lemma byte_order_is_time_order_witness :
  let a := [30; 192; 69; 14; 90; 100; 108; 160; 128; 252; 171; 214; 165;
            205; 182; 22] in
  let b := [30; 192; 69; 14; 90; 100; 108; 161; 128; 0; 0; 0; 0; 0; 0; 1] in
  time_le (UUID_Time a) (UUID_Time b).
Proof.
  cbv zeta.
  destruct (byte_order_is_time_order
    [30; 192; 69; 14; 90; 100; 108; 160; 128; 252; 171; 214; 165; 205; 182; 22]
    [30; 192; 69; 14; 90; 100; 108; 161; 128; 0; 0; 0; 0; 0; 0; 1])
    as [_ H].
  - split; [reflexivity|]. repeat constructor; unfold is_byte; lia.
  - split; [reflexivity|]. repeat constructor; unfold is_byte; lia.
  - split; reflexivity.
  - split; reflexivity.
  - vm_compute. split; [discriminate|reflexivity].
  - vm_compute. split; [discriminate|reflexivity].
  - apply H. vm_compute. discriminate.
Defined.
(** ** No duplicates *)

Lemma PutUint64_inj x y :
  0 <= x < 2 ^ 64 -> 0 <= y < 2 ^ 64 -> PutUint64 x = PutUint64 y -> x = y.
Proof.
  intros Hx Hy E. apply (f_equal be_val) in E.
  now rewrite !be_val_PutUint64 in E.
Qed.

Lemma app_eq_length_inv {A} (a : list A) :
  forall b c d, length a = length c -> a ++ b = c ++ d -> a = c /\ b = d.
Proof.
  induction a as [|x a IH]; intros b [|y c] d Hl E; try discriminate Hl.
  - now split.
  - injection E as -> E. injection Hl as Hl.
    destruct (IH b c d Hl E) as [-> ->]. now split.
Qed.

(** Two identifiers generated with nodes of 48 bits are equal only if
    they have one timestamp and one clock sequence field. *)
Lemma NewFromTime_eq_inv t r g t' r' g' :
  0 <= node g < 2 ^ 48 -> 0 <= node g' < 2 ^ 48 ->
  fst (NewFromTime t r g) = fst (NewFromTime t' r' g') ->
  tstime t = tstime t' /\
  clockseq (snd (NewFromTime t r g)) mod 2 ^ 14 =
  clockseq (snd (NewFromTime t' r' g')) mod 2 ^ 14.
Proof.
  intros Hn Hn' E. rewrite !NewFromTime_unfold in *.
  cbn [fst snd clockseq] in *.
  pose proof (tstime_range t) as Ht. pose proof (tstime_range t') as Ht'.
  pose proof (hi_word_range t) as Hh. pose proof (hi_word_range t') as Hh'.
  pose proof (getRandomNode_range r) as Hr.
  pose proof (getRandomNode_range r') as Hr'.
  apply app_eq_length_inv in E; [|reflexivity]. destruct E as [E1 E2].
  apply PutUint64_inj in E1; [|lia|lia].
  rewrite !hi_word_arith in E1 by lia.
  split; [Z.div_mod_to_equations; lia|].
  set (cs := if lastts g >=? tstime t then uint32 (clockseq g + 1)
             else clockseq g) in *.
  set (cs' := if lastts g' >=? tstime t' then uint32 (clockseq g' + 1)
              else clockseq g') in *.
  assert (Hc : 0 <= cs mod 2 ^ 14 < 2 ^ 14) by (apply Z.mod_pos_bound; lia).
  assert (Hc' : 0 <= cs' mod 2 ^ 14 < 2 ^ 14) by (apply Z.mod_pos_bound; lia).
  cbv zeta in E2.
  destruct (alwaysRandomizeNode g || (node g =? 0));
    destruct (alwaysRandomizeNode g' || (node g' =? 0));
    rewrite !lo_word_arith in E2 by lia;
    apply PutUint64_inj in E2; lia.
Qed.

Lemma clockseq_step t r g :
  clockseq (snd (NewFromTime t r g)) mod 2 ^ 14 =
  (if lastts g >=? tstime t then clockseq g + 1 else clockseq g) mod 2 ^ 14 /\
  lastts (snd (NewFromTime t r g)) = tstime t.
Proof.
  rewrite NewFromTime_unfold. cbn [snd clockseq lastts]. split; [|reflexivity].
  destruct (lastts g >=? tstime t); [|reflexivity].
  unfold uint32. Z.div_mod_to_equations; lia.
Qed.

(** After an identifier with timestamp [T] and clock sequence [c0], the
    clock sequence has moved by [d] steps; it has moved at least once
    before the timestamp [T] is used again. *)
Lemma later_identifiers_differ calls :
  forall h T c0 d u0 t0 r0 g0,
  0 <= node h < 2 ^ 48 -> 0 <= node g0 < 2 ^ 48 ->
  u0 = fst (NewFromTime t0 r0 g0) -> tstime t0 = T ->
  clockseq (snd (NewFromTime t0 r0 g0)) mod 2 ^ 14 = c0 mod 2 ^ 14 ->
  clockseq h mod 2 ^ 14 = (c0 + d) mod 2 ^ 14 ->
  0 <= d -> (1 <= d \/ T <= lastts h) ->
  d + Z.of_nat (length calls) < 2 ^ 14 ->
  ~ In u0 (fst (generate calls h)).
Proof.
  induction calls as [|[t r] calls IH];
    intros h T c0 d u0 t0 r0 g0 Hn Hn0 Eu ET Ec0 Ech Hd Hinv Hlen;
    cbn [generate].
  - intros [].
  - destruct (clockseq_step t r h) as [Hcs Hlt].
    destruct (NewFromTime_keeps_node t r h) as [Hn1 _].
    pose proof (NewFromTime_eq_inv t0 r0 g0 t r h Hn0 Hn) as Hinj.
    destruct (NewFromTime t r h) as [u h1]. cbn [fst snd] in *.
    cbn [length] in Hlen. rewrite Nat2Z.inj_succ in Hlen.
    assert (Hd' : exists d', clockseq h1 mod 2 ^ 14 = (c0 + d') mod 2 ^ 14 /\
                             d <= d' <= d + 1 /\
                             (1 <= d' \/ T <= lastts h1) /\
                             (tstime t = T -> 1 <= d')).
    { destruct (Z.geb_spec (lastts h) (tstime t)) as [Hge|Hlt'].
      - exists (d + 1). split; [|lia].
        rewrite Hcs. rewrite <- Zplus_mod_idemp_l, Ech, Zplus_mod_idemp_l.
        f_equal. lia.
      - exists d. split; [now rewrite Hcs|].
        split; [lia|]. split; [destruct Hinv; [now left|right; lia]|].
        intros E. destruct Hinv; lia. }
    destruct Hd' as (d' & Hc1 & Hdd & Hinv1 & Hsame).
    destruct (generate calls h1) as [us h2] eqn:Eg. cbn [fst].
    intros [Hin|Hin].
    + subst u0. destruct (Hinj (eq_sym Hin)) as [Ets Ecs].
      specialize (Hsame ltac:(congruence)).
      rewrite Ec0, Hc1 in Ecs.
      assert (0 < d' < 2 ^ 14) by lia.
      clear - Ecs H. Z.div_mod_to_equations; lia.
    + revert Hin. change us with (fst (us, h2)). rewrite <- Eg.
      apply (IH h1 T c0 d' u0 t0 r0 g0); try assumption; try lia.
Qed.

Lemma generate_keeps_node calls :
  forall g, node (snd (generate calls g)) = node g.
Proof.
  induction calls as [|[t r] calls IH]; intros g; cbn [generate];
    [reflexivity|].
  destruct (NewFromTime_keeps_node t r g) as [Hn _].
  destruct (NewFromTime t r g) as [u g1]. cbn [snd] in Hn.
  specialize (IH g1). destruct (generate calls g1) as [us g2].
  cbn [snd] in *. congruence.
Qed.

(** X5: up to 16384 identifiers generated one after another with a node
    of 48 bits are pairwise distinct, whatever the instants passed (equal
    or going backwards) and whether the node is stored or drawn. *)
Theorem generate_NoDup (calls : list (time_Time * rand_outcome)) (g : Generator) :
  Z.of_nat (length calls) <= 16384 -> 0 <= node g < 2 ^ 48 ->
  NoDup (fst (generate calls g)).
Proof.
  revert g. induction calls as [|[t r] calls IH]; intros g Hlen Hn;
    cbn [generate].
  - constructor.
  - destruct (clockseq_step t r g) as [_ Hlt].
    destruct (NewFromTime_keeps_node t r g) as [Hn1 _].
    pose proof (later_identifiers_differ calls (snd (NewFromTime t r g))
                  (tstime t) (clockseq (snd (NewFromTime t r g))) 0
                  (fst (NewFromTime t r g)) t r g) as Hfresh.
    destruct (NewFromTime t r g) as [u g1]. cbn [fst snd] in *.
    cbn [length] in Hlen. rewrite Nat2Z.inj_succ in Hlen.
    specialize (IH g1 ltac:(lia) ltac:(lia)).
    destruct (generate calls g1) as [us g2]. cbn [fst] in *.
    constructor; [|exact IH].
    apply Hfresh; try reflexivity; try lia.
    all: try (now rewrite Z.add_0_r).
Qed.

Lemma generate_NoDup_witness :
  let g := init None [] (Some [0; 0; 0; 0; 0; 0; 0; 7]) in
  let t := mkTime 1600000000 0 in
  NoDup (fst (generate [(t, None); (t, None); (mkTime 1500000000 0, None);
                        (t, None)] g)).
Proof.
  cbv zeta. apply generate_NoDup.
  - cbn. lia.
  - vm_compute. split; [discriminate|reflexivity].
Defined.
(** ** What [ParseB64] takes *)

Lemma copy_zero_UUID b :
  copy zero_UUID b = firstn 16 b ++ repeat 0 (16 - length b).
Proof.
  unfold copy, zero_UUID. rewrite repeat_length. f_equal.
  generalize (length b) as n. intros n.
  do 17 (destruct n as [|n]; [reflexivity|]). reflexivity.
Qed.

(** X8: [ParseB64] makes no check of the decoded length.  The text that
    encodes any bytes is taken: fewer than 16 bytes come back followed by
    zeros, of more the first 16 come back; the empty text gives the nil
    identifier. *)
Theorem ParseB64_any_length (bs : list Z) :
  Forall is_byte bs ->
  ParseB64 (string_of_bytes (Encode bs)) =
  Ok (firstn 16 bs ++ repeat 0 (16 - length bs)).
Proof.
  intros Hb. unfold ParseB64, DecodeString.
  rewrite bytes_of_string_of_bytes by apply Encode_is_byte.
  rewrite Decode_Encode by assumption. cbn [bind].
  now rewrite copy_zero_UUID.
Qed.

Lemma ParseB64_any_length_witness :
  ParseB64 EmptyString = Ok zero_UUID /\
  ParseB64 "-F" = Ok [1; 0; 0; 0; 0; 0; 0; 0; 0; 0; 0; 0; 0; 0; 0; 0].
Proof.
  split.
  - apply (ParseB64_any_length []). constructor.
  - apply (ParseB64_any_length [1]). repeat constructor; unfold is_byte; lia.
Defined.

Lemma in_alphabet_decodeMap c :
  in_alphabet c = true -> negb (enc_decodeMap c =? 0xFF) = true.
Proof. trivial. Qed.

Lemma line_break_not_in_alphabet c :
  (c =? newline) || (c =? carriage_return) = true -> in_alphabet c = false.
Proof.
  rewrite orb_true_iff, !Z.eqb_eq. intros [->| ->]; reflexivity.
Qed.

(** The decoder on text without a corrupt byte, and on text with one. *)
Lemma Decode_spec s : forall si dbuf,
  (length dbuf < 4)%nat ->
  match first_corrupt s si with
  | Some i => Decode s si dbuf = Err (ErrCorruptInput i)
  | None =>
      if ((length dbuf + count_alphabet s) mod 4 =? 1)%nat
      then Decode s si dbuf = Err (ErrCorruptInput (si + Z.of_nat (length s) - 1))
      else exists b, Decode s si dbuf = Ok b
  end.
Proof.
  induction s as [|c s IH]; intros si dbuf Hd.
  - cbn [first_corrupt Decode count_alphabet filter length].
    rewrite Nat.add_0_r, Z.add_0_r.
    destruct dbuf as [|d0 [|d1 [|d2 [|d3 dbuf]]]]; cbn [length] in *;
      try lia; cbn; eauto.
  - cbn [first_corrupt Decode]. cbv zeta. fold (in_alphabet c).
    unfold count_alphabet. cbn [filter length].
    replace (si + Z.of_nat (S (length s)) - 1)
      with (si + 1 + Z.of_nat (length s) - 1) by lia.
    destruct (in_alphabet c) eqn:Ha; cbn [orb].
    + change (length (c :: filter in_alphabet s)) with (S (count_alphabet s)).
      destruct (Nat.eqb_spec (length (dbuf ++ [enc_decodeMap c])) 4) as [E|E];
        rewrite length_app in E; cbn [length] in E.
      * specialize (IH (si + 1) [] (Nat.lt_0_succ 3)).
        destruct (first_corrupt s (si + 1)) as [i|].
        -- now rewrite IH.
        -- cbn [length Nat.add] in IH. fold (count_alphabet s) in *.
           replace ((length dbuf + S (count_alphabet s)) mod 4)%nat
             with (count_alphabet s mod 4)%nat.
           2:{ replace (length dbuf + S (count_alphabet s))%nat
                 with (count_alphabet s + 1 * 4)%nat by lia.
               now rewrite Nat.Div0.mod_add. }
           destruct ((count_alphabet s mod 4 =? 1)%nat).
           ++ now rewrite IH.
           ++ destruct IH as [b ->]. cbn [bind]. eauto.
      * assert (Hd' : (length (dbuf ++ [enc_decodeMap c]) < 4)%nat)
          by (rewrite length_app; cbn [length]; lia).
        specialize (IH (si + 1) (dbuf ++ [enc_decodeMap c]) Hd').
        rewrite length_app in IH. cbn [length] in IH.
        fold (count_alphabet s) in *.
        replace (length dbuf + S (count_alphabet s))%nat
          with (length dbuf + 1 + count_alphabet s)%nat by lia.
        exact IH.
    + destruct ((c =? newline) || (c =? carriage_return)) eqn:Hnl.
      * fold (count_alphabet s). apply IH. exact Hd.
      * reflexivity.
Qed.

Lemma ParseB64_corrupt (text : list Z) (i : Z) :
  Forall is_byte text -> first_corrupt text 0 = Some i ->
  ParseB64 (string_of_bytes text) = Err (ErrCorruptInput i).
Proof.
  intros Hb Hc. unfold ParseB64, DecodeString.
  rewrite bytes_of_string_of_bytes by assumption.
  pose proof (Decode_spec text 0 [] (Nat.lt_0_succ 3)) as H.
  cbn [length Nat.add] in H. rewrite Z.add_0_l in H.
  rewrite Hc in H. now rewrite H.
Qed.

(** X9: [ParseB64] returns an error exactly for text with a byte that is
    neither in the alphabet nor a line break (the error names the offset
    of the first such byte) and for text whose characters of the alphabet
    leave a single one over after groups of four; line breaks are passed
    over wherever they stand. *)
Theorem ParseB64_errors (text : list Z) :
  Forall is_byte text ->
  match first_corrupt text 0 with
  | Some i => ParseB64 (string_of_bytes text) = Err (ErrCorruptInput i)
  | None =>
      if (count_alphabet text mod 4 =? 1)%nat
      then ParseB64 (string_of_bytes text) =
           Err (ErrCorruptInput (Z.of_nat (length text) - 1))
      else exists u, ParseB64 (string_of_bytes text) = Ok u
  end.
Proof.
  intros Hb. unfold ParseB64, DecodeString.
  rewrite bytes_of_string_of_bytes by assumption.
  pose proof (Decode_spec text 0 [] (Nat.lt_0_succ 3)) as H.
  cbn [length Nat.add] in H. rewrite Z.add_0_l in H.
  destruct (first_corrupt text 0) as [i|].
  - now rewrite H.
  - destruct ((count_alphabet text mod 4 =? 1)%nat).
    + now rewrite H.
    + destruct H as [b ->]. cbn [bind]. eauto.
Qed.

Lemma ParseB64_errors_witness :
  ParseB64 "6g042_dZQ91-z9jLdRqq4=" = Err (ErrCorruptInput 21) /\
  ParseB64 "6g042" = Err (ErrCorruptInput 4).
Proof.
  split.
  - apply (ParseB64_errors (bytes_of_string "6g042_dZQ91-z9jLdRqq4=")).
    vm_compute. repeat constructor; discriminate.
  - apply (ParseB64_errors (bytes_of_string "6g042")).
    vm_compute. repeat constructor; discriminate.
Defined.
(** ** The shape of the two text forms *)

Lemma length_string_of_bytes l : String.length (string_of_bytes l) = length l.
Proof.
  unfold string_of_bytes. induction l as [|b l IH]; cbn; [reflexivity|].
  now rewrite IH.
Qed.

Lemma length_Encode_16 u : length u = 16%nat -> length (Encode u) = 22%nat.
Proof. intros H. open_list u H. reflexivity. Qed.

Lemma enc_encode_in_alphabet i : 0 <= i < 64 -> in_alphabet (enc_encode i) = true.
Proof.
  intros Hi. unfold in_alphabet.
  destruct (enc_encode_props i Hi) as (-> & _).
  apply negb_true_iff, Z.eqb_neq. lia.
Qed.

Lemma Encode_in_alphabet a : Forall (fun c => in_alphabet c = true) (Encode a).
Proof.
  induction a as [|a0|a0 a1|a0 a1 a2 ra IH] using list_ind3;
    cbn [Encode]; cbv zeta; rewrite ?sextet_arith, ?sextet_arith_0 by lia;
    repeat (apply Forall_cons;
            [apply enc_encode_in_alphabet;
             (apply sextet_range || apply sextet_range_0)|]);
    (assumption || apply Forall_nil).
Qed.

Lemma UUID_String_bytes_exact u : wf_UUID u -> exact_shape (UUID_String_bytes u).
Proof.
  intros [Hl Hb]. open_list u Hl.
  repeat (apply Forall_cons_iff in Hb; destruct Hb as [? Hb]).
  unfold UUID_String_bytes, slice, slice_from. cbn [skipn firstn Nat.sub].
  eexists _, _, _, _, _. split; [reflexivity|].
  repeat split;
    try (apply (fmtSbx_hex _); solve_Forall);
    match goal with
    | |- length (fmtSbx ?bs) = _ =>
        let H := fresh in
        assert (H : Forall is_byte bs) by solve_Forall;
        destruct (fmtSbx_hex bs H) as (_ & -> & _); reflexivity
    end.
Qed.

Lemma ldigits_lower d :
  0 <= d < 16 -> is_lower_hex (char_at ldigits d) = true.
Proof. revert d. apply (forallb_below 16). vm_compute. reflexivity. Qed.

Lemma fmtSbx_lower bs :
  Forall is_byte bs -> Forall (fun r => is_lower_hex r = true) (fmtSbx bs).
Proof.
  induction 1 as [|c bs Hc Hbs IH]; [constructor|].
  change (fmtSbx (c :: bs))
    with ([char_at ldigits (c >> 4); char_at ldigits (c .& 0xF)] ++ fmtSbx bs).
  destruct (nibbles_arith c Hc) as [-> ->].
  unfold is_byte in Hc.
  repeat (apply Forall_cons;
          [apply ldigits_lower; Z.div_mod_to_equations; lia|]).
  exact IH.
Qed.

Lemma UUID_String_bytes_canonical u :
  wf_UUID u -> canonical_shape (UUID_String_bytes u).
Proof.
  intros [Hl Hb]. open_list u Hl.
  repeat (apply Forall_cons_iff in Hb; destruct Hb as [? Hb]).
  unfold UUID_String_bytes, slice, slice_from. cbn [skipn firstn Nat.sub].
  eexists _, _, _, _, _. split; [reflexivity|].
  repeat split;
    try (apply fmtSbx_lower; solve_Forall);
    match goal with
    | |- length (fmtSbx ?bs) = _ =>
        let H := fresh in
        assert (H : Forall is_byte bs) by solve_Forall;
        destruct (fmtSbx_hex bs H) as (_ & -> & _); reflexivity
    end.
Qed.

(** X10: the canonical form of an identifier is 36 characters of the
    exact shape 8-4-4-4-12, its groups of lower-case hexadecimal digits
    (of [0-9a-f], no upper-case letter); its compact form is 22
    characters, all of the alphabet, so without padding. *)
Theorem String_shapes (u : UUID) :
  wf_UUID u ->
  canonical_shape (bytes_of_string (UUID_String u)) /\
  exact_shape (bytes_of_string (UUID_String u)) /\
  String.length (UUID_String u) = 36%nat /\
  String.length (UUIDB64_String u) = 22%nat /\
  Forall (fun c => in_alphabet c = true) (bytes_of_string (UUIDB64_String u)).
Proof.
  intros Hwf. pose proof (UUID_String_bytes_exact u Hwf) as He.
  pose proof (UUID_String_bytes_canonical u Hwf) as Hcan.
  pose proof (UUID_String_bytes_is_byte u Hwf) as Ha.
  unfold UUID_String, UUIDB64_String.
  rewrite !bytes_of_string_of_bytes
    by (apply Encode_is_byte || now apply is_ascii_is_byte).
  rewrite !length_string_of_bytes.
  split; [exact Hcan|].
  split; [exact He|split; [now apply exact_shape_length|split]].
  - apply length_Encode_16. apply Hwf.
  - apply Encode_in_alphabet.
Qed.

Lemma String_shapes_witness :
  canonical_shape (bytes_of_string (UUID_String (repeat 171 16))) /\
  String.length (UUID_String (repeat 171 16)) = 36%nat /\
  String.length (UUIDB64_String (repeat 171 16)) = 22%nat.
Proof.
  destruct (String_shapes (repeat 171 16)) as (H0 & _ & H1 & H2 & _).
  - split; [reflexivity|]. repeat constructor; unfold is_byte; lia.
  - split; [exact H0|now split].
Defined.

(** ** Parsing, then printing *)

Lemma hex_runes_lower :
  Forall (fun c => char_at ldigits (hex_digit_value c) = to_lower_hex c)
         hex_runes.
Proof.
  unfold hex_runes. vm_compute bytes_of_string.
  repeat (apply Forall_cons; [vm_compute; reflexivity|]). apply Forall_nil.
Qed.

Lemma is_hex_lower c :
  is_hex c = true -> char_at ldigits (hex_digit_value c) = to_lower_hex c.
Proof.
  intros H. apply is_hex_In in H.
  pose proof hex_runes_lower as P. rewrite Forall_forall in P. now apply P.
Qed.

(** The bytes that an even number of hexadecimal digits denote. *)
Lemma hex_field_bytes n : forall g,
  hex_field (2 * n) g ->
  exists bs, length bs = n /\ Forall is_byte bs /\
             fmtSbx bs = map to_lower_hex g /\ be_val bs = hex_value g.
Proof.
  induction n as [|n IH]; intros g [Hl Hg].
  - destruct g; [|discriminate Hl]. exists []. repeat split. constructor.
  - destruct g as [|h [|l g]]; try (cbn in Hl; lia).
    apply Forall_cons_iff in Hg. destruct Hg as [Hh Hg].
    apply Forall_cons_iff in Hg. destruct Hg as [Hlo Hg].
    destruct (IH g) as (bs & Lbs & Bbs & Fbs & Vbs).
    { split; [cbn in Hl; lia|assumption]. }
    destruct (is_hex_props h Hh) as (_ & _ & _ & _ & _ & Dh & _).
    destruct (is_hex_props l Hlo) as (_ & _ & _ & _ & _ & Dl & _).
    set (b := hex_digit_value h * 16 + hex_digit_value l).
    assert (Hb : is_byte b) by (unfold is_byte, b; lia).
    exists (b :: bs). split; [cbn; lia|]. split; [now constructor|]. split.
    + change (fmtSbx (b :: bs))
        with ([char_at ldigits (b >> 4); char_at ldigits (b .& 0xF)] ++ fmtSbx bs).
      destruct (nibbles_arith b Hb) as [-> ->].
      replace (b / 16) with (hex_digit_value h)
        by (unfold b; Z.div_mod_to_equations; lia).
      replace (b mod 16) with (hex_digit_value l)
        by (unfold b; Z.div_mod_to_equations; lia).
      rewrite !is_hex_lower by assumption. rewrite Fbs. reflexivity.
    + change (h :: l :: g) with ([h; l] ++ g).
      rewrite hex_value_app, <- Vbs.
      unfold be_val. rewrite digits_val_cons by lia.
      assert (El : length g = (2 * length bs)%nat) by (cbn in Hl; lia).
      rewrite El.
      replace (Z.of_nat (2 * length bs)) with (2 * Z.of_nat (length bs)) by lia.
      rewrite Z.pow_mul_r by lia. change (16 ^ 2) with 256.
      replace (hex_value [h; l]) with b
        by (unfold hex_value, digits_val, b; cbn [map fold_left]; lia).
      reflexivity.
Qed.

Lemma to_lower_hex_hyphen : to_lower_hex hyphen = hyphen.
Proof. reflexivity. Qed.

(** X11: on text of the exact shape [Parse] returns a well-formed
    identifier whose canonical form is the text in lower case; with the
    round trip of C4, [Parse] and [String] are inverse to each other
    between identifiers and lower-case canonical text. *)
Theorem String_of_Parse (us : String.string) :
  exact_shape (bytes_of_string us) ->
  exists u, Parse us = Ok u /\ wf_UUID u /\
            bytes_of_string (UUID_String u) =
            map to_lower_hex (bytes_of_string us).
Proof.
  intros He. pose proof (exact_shape_ascii _ He) as Ha.
  unfold Parse. rewrite runes_ascii by assumption.
  destruct He as (g1 & g2 & g3 & g4 & g5 & -> & F1 & F2 & F3 & F4 & F5).
  rewrite Parse_runes_exact by assumption.
  destruct (hex_field_bytes 4 g1 F1) as (b1 & L1 & B1 & E1 & V1).
  destruct (hex_field_bytes 2 g2 F2) as (b2 & L2 & B2 & E2 & V2).
  destruct (hex_field_bytes 2 g3 F3) as (b3 & L3 & B3 & E3 & V3).
  destruct (hex_field_bytes 2 g4 F4) as (b4 & L4 & B4 & E4 & V4).
  destruct (hex_field_bytes 6 g5 F5) as (b5 & L5 & B5 & E5 & V5).
  rewrite <- V1, <- V2, <- V3, <- V4, <- V5.
  rewrite PutUint32_be_val, !PutUint16_be_val, PutUint64_be_val_6
    by assumption.
  eexists. split; [reflexivity|].
  open_list b1 L1. open_list b2 L2. open_list b3 L3. open_list b4 L4.
  open_list b5 L5.
  cbn [store zero_UUID repeat firstn skipn app length Nat.add].
  match goal with |- wf_UUID ?u /\ _ => set (v := u) end.
  assert (Hwf : wf_UUID v).
  { split; [reflexivity|].
    repeat (apply Forall_cons_iff in B1; destruct B1 as [? B1]).
    repeat (apply Forall_cons_iff in B2; destruct B2 as [? B2]).
    repeat (apply Forall_cons_iff in B3; destruct B3 as [? B3]).
    repeat (apply Forall_cons_iff in B4; destruct B4 as [? B4]).
    repeat (apply Forall_cons_iff in B5; destruct B5 as [? B5]).
    unfold v. solve_Forall. }
  split; [exact Hwf|].
  unfold UUID_String.
  pose proof (is_ascii_is_byte _ (UUID_String_bytes_is_byte v Hwf)) as Hbv.
  rewrite (bytes_of_string_of_bytes _ Hbv).
  unfold UUID_String_bytes, v, slice, slice_from. cbn [skipn firstn Nat.sub].
  rewrite E1, E2, E3, E4, E5.
  repeat (rewrite map_app; cbn [map]).
  rewrite !to_lower_hex_hyphen. reflexivity.
Qed.

Lemma String_of_Parse_witness :
  exists u, Parse "1EC0450E-5A64-6CA0-80FC-ABD6A5CDB616" = Ok u /\
            UUID_String u = "1ec0450e-5a64-6ca0-80fc-abd6a5cdb616"%string.
Proof.
  destruct (String_of_Parse "1EC0450E-5A64-6CA0-80FC-ABD6A5CDB616")
    as (u & Hp & Hwf & Hs).
  - exists (bytes_of_string "1EC0450E"), (bytes_of_string "5A64"),
      (bytes_of_string "6CA0"), (bytes_of_string "80FC"),
      (bytes_of_string "ABD6A5CDB616").
    split; [reflexivity|].
    repeat split; vm_compute; repeat constructor.
  - exists u. split; [exact Hp|].
    vm_compute in Hp. injection Hp as <-. reflexivity.
Defined.
(** ** The adapters *)

Lemma string_of_bytes_of_string s : string_of_bytes (bytes_of_string s) = s.
Proof.
  unfold string_of_bytes, bytes_of_string. rewrite map_map.
  rewrite <- (string_of_list_ascii_of_string s) at 2. f_equal.
  induction (list_ascii_of_string s) as [|c l IH]; cbn [map]; [reflexivity|].
  now rewrite N2Z.id, ascii_N_embedding, IH.
Qed.

Lemma copy_same_length dst src : length dst = length src -> copy dst src = src.
Proof.
  intros H. unfold copy. rewrite H, firstn_all, <- H, skipn_all.
  apply app_nil_r.
Qed.

Lemma ParseB64_no_panic us : no_panic (ParseB64 us).
Proof.
  unfold ParseB64, DecodeString. apply bind_no_panic; [|discriminate].
  generalize (bytes_of_string us) as s, 0 as si, (@nil Z) as dbuf.
  induction s as [|c s IH]; intros si dbuf; cbn [Decode].
  - destruct dbuf as [|? [|? ?]]; discriminate.
  - cbv zeta. destruct (negb (enc_decodeMap c =? 0xFF)).
    + destruct (length (dbuf ++ [enc_decodeMap c]) =? 4)%nat; [|apply IH].
      apply bind_no_panic; [apply IH|discriminate].
    + destruct ((c =? newline) || (c =? carriage_return)); [apply IH|discriminate].
Qed.

(** X12: text marshalling goes round for both types: [UnmarshalText] of
    what [MarshalText] gives sets the receiver to the identifier, without
    error, whatever the receiver held. *)
Theorem UnmarshalText_MarshalText (u v : UUID) :
  wf_UUID u ->
  UUID_UnmarshalText (fst (UUID_MarshalText u)) v = (u, None) /\
  UUIDB64_UnmarshalText (fst (UUIDB64_MarshalText u)) v = (u, None).
Proof.
  intros Hwf.
  unfold UUID_UnmarshalText, UUID_MarshalText, UUIDB64_UnmarshalText,
    UUIDB64_MarshalText. cbn [fst].
  rewrite !string_of_bytes_of_string.
  now rewrite Parse_String, ParseB64_String.
Qed.

Lemma UnmarshalText_MarshalText_witness :
  UUID_UnmarshalText (fst (UUID_MarshalText zero_UUID)) (repeat 255 16) =
    (zero_UUID, None).
Proof.
  apply (UnmarshalText_MarshalText zero_UUID (repeat 255 16)).
  split; [reflexivity|]. repeat constructor; unfold is_byte; lia.
Defined.

(** X13: a failed [UnmarshalText] does not leave the receiver as it was:
    it is set to the nil identifier, for [UUID] on any text that is not of
    the shape [Parse] takes and for [UUIDB64] on any text with a byte
    outside the alphabet.  A failed [UUIDB64.Scan] of the same bytes
    leaves the receiver untouched. *)
Theorem failed_UnmarshalText_zeroes_receiver (text : list Z) (v : UUID) :
  Forall is_byte text ->
  (~ loose_shape (runes text) ->
   fst (UUID_UnmarshalText text v) = zero_UUID /\
   snd (UUID_UnmarshalText text v) <> None) /\
  (first_corrupt text 0 <> None ->
   fst (UUIDB64_UnmarshalText text v) = zero_UUID /\
   snd (UUIDB64_UnmarshalText text v) <> None /\
   fst (UUIDB64_Scan (VBytes text) v) = v /\
   snd (UUIDB64_Scan (VBytes text) v) <> None).
Proof.
  intros Hb. split.
  - intros Hn. unfold UUID_UnmarshalText, Parse.
    rewrite bytes_of_string_of_bytes by assumption.
    destruct (Parse_runes_Err _ Hn) as [e ->]. cbn. split; [reflexivity|discriminate].
  - intros Hc.
    destruct (first_corrupt text 0) as [i|] eqn:E; [|contradiction].
    pose proof (ParseB64_corrupt text i Hb E) as H.
    unfold UUIDB64_UnmarshalText, UUIDB64_Scan. rewrite H. cbn.
    repeat split; discriminate.
Qed.

Lemma failed_UnmarshalText_zeroes_receiver_witness :
  let v := repeat 255 16 in
  fst (UUID_UnmarshalText (bytes_of_string "not-a-uuid") v) = zero_UUID /\
  fst (UUIDB64_UnmarshalText (bytes_of_string "6g04 2") v) = zero_UUID /\
  fst (UUIDB64_Scan (VBytes (bytes_of_string "6g04 2")) v) = v.
Proof.
  cbv zeta.
  assert (B1 : Forall is_byte (bytes_of_string "not-a-uuid"))
    by (vm_compute; repeat constructor; discriminate).
  assert (B2 : Forall is_byte (bytes_of_string "6g04 2"))
    by (vm_compute; repeat constructor; discriminate).
  destruct (failed_UnmarshalText_zeroes_receiver
              (bytes_of_string "not-a-uuid") (repeat 255 16) B1) as [H1 _].
  destruct (failed_UnmarshalText_zeroes_receiver
              (bytes_of_string "6g04 2") (repeat 255 16) B2) as [_ H2].
  split; [|split].
  - apply H1. intros Hs. apply Parse_runes_Ok_iff in Hs.
    destruct Hs as [u Hu]. vm_compute in Hu. discriminate Hu.
  - apply H2. vm_compute. discriminate.
  - apply H2. vm_compute. discriminate.
Defined.

(** X14: the SQL adapters go round: [Scan] of what [Value] gives sets
    the receiver to the identifier for both types, and [UUIDB64.Scan]
    takes the compact text as a string as well.  [UUID.Scan] takes raw
    bytes only: handed its own canonical text as a string it returns an
    error and leaves the receiver as it was. *)
Theorem Scan_Value (u v : UUID) :
  wf_UUID u -> length v = 16%nat ->
  UUID_Scan (fst (UUID_Value u)) v = (u, None) /\
  UUIDB64_Scan (fst (UUIDB64_Value u)) v = (u, None) /\
  UUIDB64_Scan (VString (UUIDB64_String u)) v = (u, None) /\
  fst (UUID_Scan (VString (UUID_String u)) v) = v /\
  snd (UUID_Scan (VString (UUID_String u)) v) <> None.
Proof.
  intros Hwf Hv. pose proof Hwf as [Hl _].
  unfold UUID_Scan, UUID_Value, UUIDB64_Scan, UUIDB64_Value. cbn [fst snd].
  rewrite string_of_bytes_of_string, ParseB64_String by assumption.
  rewrite copy_same_length by congruence.
  repeat split. discriminate.
Qed.

Lemma Scan_Value_witness :
  UUID_Scan (fst (UUID_Value zero_UUID)) (repeat 255 16) = (zero_UUID, None).
Proof.
  apply (Scan_Value zero_UUID (repeat 255 16)); [|reflexivity].
  split; [reflexivity|]. repeat constructor; unfold is_byte; lia.
Defined.

Lemma copy_nth_error dst src i :
  nth_error (copy dst src) i =
  if (i <? Nat.min (length dst) (length src))%nat then nth_error src i
  else nth_error dst i.
Proof.
  unfold copy. rewrite nth_error_app, length_firstn, nth_error_firstn.
  destruct (Nat.ltb_spec i (Nat.min (length dst) (length src))) as [Hlt|Hge].
  - replace (i <? length dst)%nat with true
      by (symmetry; apply Nat.ltb_lt; lia). reflexivity.
  - rewrite nth_error_skipn.
    destruct (Nat.le_ge_cases (length src) (length dst)).
    + f_equal. lia.
    + rewrite !(proj2 (nth_error_None _ _)); [reflexivity|lia|lia].
Qed.

Lemma length_copy dst src : length (copy dst src) = length dst.
Proof.
  unfold copy. rewrite length_app, length_firstn, length_skipn. lia.
Qed.

(** X15: binary marshalling makes no length check and returns no error:
    [UnmarshalBinary] overwrites the first [min(16, len(data))] bytes of
    the receiver with those of [data] and keeps the others, so 16 bytes
    replace the receiver (the round trip with [MarshalBinary]) and a
    shorter slice leaves its tail in place; the msgpack
    [MarshalBinaryTo] writes the identifier over the first [Len()] bytes
    of a buffer that has them. *)
Theorem UnmarshalBinary_overwrites_prefix (data : list Z) (u v : UUID) :
  length u = 16%nat -> length v = 16%nat ->
  let v' := fst (UUID_UnmarshalBinary data v) in
  snd (UUID_UnmarshalBinary data v) = None /\
  length v' = 16%nat /\
  (forall i, (i < 16)%nat ->
     nth_error v' i =
     if (i <? length data)%nat then nth_error data i else nth_error v i) /\
  fst (UUID_UnmarshalBinary (fst (UUID_MarshalBinary u)) v) = u /\
  fst (UUIDB64_UnmarshalBinary (fst (UUIDB64_MarshalBinary u)) v) = u /\
  (forall b, (UUID_Len u <= length b)%nat ->
     firstn (UUID_Len u) (fst (UUID_MarshalBinaryTo b u)) = u /\
     skipn (UUID_Len u) (fst (UUID_MarshalBinaryTo b u)) = skipn (UUID_Len u) b).
Proof.
  intros Hu Hv. cbv zeta.
  unfold UUID_UnmarshalBinary, UUID_MarshalBinary, UUIDB64_UnmarshalBinary,
    UUIDB64_MarshalBinary, UUID_MarshalBinaryTo, UUID_Len. cbn [fst snd].
  split; [reflexivity|]. split; [now rewrite length_copy|]. split.
  - intros i Hi. rewrite copy_nth_error, Hv.
    destruct (Nat.ltb_spec i (Nat.min 16 (length data)));
      destruct (Nat.ltb_spec i (length data)); try reflexivity; lia.
  - rewrite !copy_same_length by congruence. split; [reflexivity|].
    split; [reflexivity|].
    intros b Hb. unfold copy.
    assert (E : firstn (length b) u = u)
      by (apply firstn_all2; lia).
    rewrite E. split.
    + rewrite firstn_app, firstn_all, Nat.sub_diag. cbn [firstn].
      apply app_nil_r.
    + rewrite skipn_app, skipn_all, Nat.sub_diag. reflexivity.
Qed.

Lemma UnmarshalBinary_overwrites_prefix_witness :
  fst (UUID_UnmarshalBinary [1; 2; 3] (repeat 255 16)) =
  [1; 2; 3; 255; 255; 255; 255; 255; 255; 255; 255; 255; 255; 255; 255; 255] /\
  length (fst (UUID_UnmarshalBinary [1; 2; 3] (repeat 255 16))) = 16%nat.
Proof.
  split; [reflexivity|].
  apply (UnmarshalBinary_overwrites_prefix [1; 2; 3] zero_UUID (repeat 255 16));
    reflexivity.
Defined.
(** ** The node from a hardware address *)

Lemma mac_node_be_val hw :
  (6 <= length hw)%nat -> Forall is_byte hw ->
  uint64 (Uint16 (slice 0 2 hw) << 32) .| Uint32 (slice 2 6 hw) =
  be_val (firstn 6 hw).
Proof.
  intros Hl Hb.
  do 6 (destruct hw as [|? hw]; [cbn in Hl; lia|]).
  repeat (apply Forall_cons_iff in Hb; destruct Hb as [? Hb]).
  unfold slice. cbn [skipn firstn Nat.sub].
  rewrite Uint16_be_val, Uint32_be_val by solve_Forall.
  unfold be_val, digits_val, uint64; cbn [fold_left]. unfold is_byte in *.
  rewrite Z.shiftl_mul_pow2 by lia. rewrite Z.mod_small by lia.
  rewrite lor_hi_lo by lia. lia.
Qed.

Lemma mac_node_upstream_eq ifs : mac_node_upstream ifs 0 = getMacNode ifs.
Proof.
  induction ifs as [|hw ifs IH]; cbn [getMacNode mac_node_upstream];
    [reflexivity|].
  destruct (6 <=? length hw)%nat; [reflexivity|exact IH].
Qed.

(** X16: [getMacNode] returns the big-endian value of the first 6 bytes
    of the first hardware address that has at least 6, below [2^48], and
    0 when there is none.  This revision's [init] then draws a random
    node whatever that value is, so the hardware address never becomes
    the node; the upstream [init] keeps it when it is not zero. *)
Theorem getMacNode_first_address (ifs : list (list Z)) :
  Forall (Forall is_byte) ifs ->
  getMacNode ifs =
    match find (fun hw => (6 <=? length hw)%nat) ifs with
    | Some hw => be_val (firstn 6 hw)
    | None => 0
    end /\
  0 <= getMacNode ifs < 2 ^ 48 /\
  (forall r1 r2, GetNode (init r1 ifs r2) = getRandomNode r2) /\
  (forall b1 b2, getMacNode ifs <> 0 ->
     node_upstream (init_upstream b1 ifs b2) = getMacNode ifs).
Proof.
  intros Hifs.
  assert (E : getMacNode ifs =
              match find (fun hw => (6 <=? length hw)%nat) ifs with
              | Some hw => be_val (firstn 6 hw)
              | None => 0
              end /\ 0 <= getMacNode ifs < 2 ^ 48).
  { induction Hifs as [|hw ifs Hhw _ IH]; cbn [getMacNode find]; [split; lia|].
    destruct (Nat.leb_spec 6 (length hw)) as [Hl|Hl]; [|exact IH].
    rewrite mac_node_be_val by assumption.
    split; [reflexivity|].
    pose proof (be_val_bound (firstn 6 hw) (Forall_firstn _ 6 _ Hhw)) as Hr.
    rewrite length_firstn in Hr.
    replace (Nat.min 6 (length hw)) with 6%nat in Hr by lia.
    change (256 ^ Z.of_nat 6) with (2 ^ 48) in Hr. exact Hr. }
  destruct E as [E1 E2]. split; [exact E1|split; [exact E2|split]].
  - reflexivity.
  - intros b1 b2 Hne. unfold init_upstream. rewrite mac_node_upstream_eq.
    replace (getMacNode ifs =? 0) with false
      by (symmetry; now apply Z.eqb_neq).
    reflexivity.
Qed.

Lemma getMacNode_first_address_witness :
  getMacNode [[1; 2; 3]; [0x02; 0x42; 0xac; 0x11; 0x00; 0x02; 0xff]; [9; 9; 9; 9; 9; 9]] =
  0x0242ac110002.
Proof.
  destruct (getMacNode_first_address
    [[1; 2; 3]; [0x02; 0x42; 0xac; 0x11; 0x00; 0x02; 0xff]; [9; 9; 9; 9; 9; 9]])
    as [H _].
  - repeat constructor; unfold is_byte; lia.
  - rewrite H. reflexivity.
Defined.

(** ** The two revisions *)

Lemma scan_verb_bitSize wid bitSize s :
  (wid <= 16)%nat -> 4 * Z.of_nat wid <= bitSize <= 64 ->
  scan_verb wid bitSize s = scan_verb wid 64 s.
Proof.
  intros Hw Hbits. unfold scan_verb, scanUint.
  destruct (SkipSpace s) as [s1| |]; try reflexivity. cbn [bind].
  destruct (SkipSpace s1) as [s2| |]; try reflexivity. cbn [bind].
  destruct (notEOF s2) as [[]| |]; try reflexivity. cbn [bind].
  unfold scanNumber.
  destruct (notEOF s2) as [[]| |]; try reflexivity. cbn [bind].
  destruct (accept_while hexadecimalDigits wid s2) as [tok rest] eqn:E.
  destruct (accept_while_spec _ _ _ _ E) as (_ & Htok & Hlen).
  destruct tok as [|r tok]; [reflexivity|]. cbn [bind fst snd].
  rewrite ParseUint_hex by (assumption || discriminate || lia).
  cbn [bind].
  pose proof (hex_value_bound (r :: tok) Htok) as Hb.
  assert (Hpos : (1 <= length (r :: tok))%nat) by (cbn [length]; lia).
  assert (Hpow : 16 ^ Z.of_nat (length (r :: tok)) <= 2 ^ bitSize).
  { change 16 with (2 ^ 4). rewrite <- Z.pow_mul_r by lia.
    apply Z.pow_le_mono_r; lia. }
  assert (Hpow' : 2 ^ bitSize <= 2 ^ 64) by (apply Z.pow_le_mono_r; lia).
  rewrite (overflow_check_passes _ bitSize) by lia.
  rewrite (overflow_check_passes _ 64) by lia.
  reflexivity.
Qed.

Lemma uint32_idem z : uint32 (uint32 z) = uint32 z.
Proof. unfold uint32. apply Z.mod_mod. lia. Qed.

Lemma uint16_idem z : uint16 (uint16 z) = uint16 z.
Proof. unfold uint16. apply Z.mod_mod. lia. Qed.

(** X17: the upstream [Parse], which scans every group into a [uint64]
    and narrows afterwards, and this revision's [Parse], which scans
    into [uint32] and [uint16], return the same result on every text. *)
Theorem Parse_upstream_agrees (us : String.string) :
  Parse_upstream us = Parse us.
Proof.
  unfold Parse_upstream, Parse, Parse_runes_upstream, Parse_runes.
  generalize (runes (bytes_of_string us)) as s. intros s.
  rewrite (scan_verb_bitSize 8 32) by lia.
  destruct (scan_verb 8 64 s) as [[v1 r1]| |]; try reflexivity.
  cbn [bind fst snd].
  destruct (advance hyphen r1) as [s1| |]; try reflexivity. cbn [bind].
  rewrite (scan_verb_bitSize 4 16) by lia.
  destruct (scan_verb 4 64 s1) as [[v2 r2]| |]; try reflexivity.
  cbn [bind fst snd].
  destruct (advance hyphen r2) as [s2| |]; try reflexivity. cbn [bind].
  rewrite (scan_verb_bitSize 4 16) by lia.
  destruct (scan_verb 4 64 s2) as [[v3 r3]| |]; try reflexivity.
  cbn [bind fst snd].
  destruct (advance hyphen r3) as [s3| |]; try reflexivity. cbn [bind].
  rewrite (scan_verb_bitSize 4 16) by lia.
  destruct (scan_verb 4 64 s3) as [[v4 r4]| |]; try reflexivity.
  cbn [bind fst snd].
  destruct (advance hyphen r4) as [s4| |]; try reflexivity. cbn [bind].
  destruct (scan_verb 12 64 s4) as [[v5 r5]| |]; try reflexivity.
  cbn [bind fst snd].
  now rewrite uint32_idem, !uint16_idem.
Qed.

(** X18: with a stored node that is not zero and always-randomize off,
    [NewFromTime] returns the identifier and leaves the clock state that
    the upstream [NewFromTime] does; with a stored node of zero the
    upstream revision puts the node 0 into the identifier, where this one
    draws a random node. *)
Theorem NewFromTime_upstream_agrees (t : time_Time) (r : rand_outcome)
    (g : Generator) :
  (node g <> 0 -> alwaysRandomizeNode g = false ->
   NewFromTime_upstream t (to_upstream g) =
   (fst (NewFromTime t r g), to_upstream (snd (NewFromTime t r g)))) /\
  (node g = 0 ->
   UUID_Node (fst (NewFromTime_upstream t (to_upstream g))) = 0 /\
   UUID_Node (fst (NewFromTime t r g)) = getRandomNode r).
Proof.
  split.
  - intros Hn Hf. rewrite NewFromTime_unfold.
    unfold NewFromTime_upstream, to_upstream.
    cbn [fst snd lastts clockseq node lastts_upstream clockseq_upstream
         node_upstream].
    rewrite Hf. cbn [orb].
    replace (node g =? 0) with false by (symmetry; now apply Z.eqb_neq).
    reflexivity.
  - intros Hn. split; [|now apply NewFromTime_zero_node].
    unfold NewFromTime_upstream, to_upstream.
    cbn [fst lastts_upstream clockseq_upstream node_upstream]. rewrite Hn.
    set (cs := if lastts g >=? tstime t then uint32 (clockseq g + 1)
               else clockseq g).
    change (store (store zero_UUID 0 (PutUint64 ?h)) 8 (PutUint64 ?l))
      with (PutUint64 h ++ PutUint64 l).
    rewrite lo_word_arith by lia.
    assert (0 <= cs mod 2 ^ 14 < 2 ^ 14) by (apply Z.mod_pos_bound; lia).
    rewrite UUID_Node_of_words by (reflexivity || lia).
    Z.div_mod_to_equations; lia.
Qed.

Lemma NewFromTime_upstream_agrees_witness :
  let g := SetNode 123 (init None [] None) in
  fst (NewFromTime_upstream (mkTime 1600000000 0) (to_upstream g)) =
  fst (NewFromTime (mkTime 1600000000 0) None g).
Proof.
  cbv zeta.
  destruct (NewFromTime_upstream_agrees (mkTime 1600000000 0) None
              (SetNode 123 (init None [] None))) as [H _].
  rewrite H; [reflexivity|discriminate|reflexivity].
Defined.
(** ** sort.Interface *)

Lemma UUIDB64Slice_Less_be_val s i j a b :
  nth_error s i = Some a -> nth_error s j = Some b ->
  wf_UUID a -> wf_UUID b ->
  UUIDB64Slice_Less s i j = Ok (be_val a <? be_val b).
Proof.
  intros Hi Hj [La Ba] [Lb Bb]. unfold UUIDB64Slice_Less. rewrite Hi, Hj.
  rewrite bytes_Compare_be_val by (assumption || congruence).
  unfold Z.ltb. now destruct (be_val a ?= be_val b).
Qed.

Lemma Ok_inj {A} (x y : A) : @Ok A x = Ok y -> x = y.
Proof. now intros [= ->]. Qed.

(** X19: on a slice of 16-byte identifiers [UUIDB64Slice.Less] is a
    strict total order on the values: irreflexive, transitive,
    asymmetric, and two elements neither of which is less than the other
    are equal.  The legacy [UUIDSlice.Less] is a strict weak order:
    irreflexive, transitive, asymmetric, with transitive
    incomparability. *)
Theorem Less_orders (s : list UUID) (i j k : nat) (a b c : UUID) :
  Forall wf_UUID s ->
  nth_error s i = Some a -> nth_error s j = Some b ->
  nth_error s k = Some c ->
  (UUIDB64Slice_Less s i i = Ok false /\
   (UUIDB64Slice_Less s i j = Ok true -> UUIDB64Slice_Less s j k = Ok true ->
    UUIDB64Slice_Less s i k = Ok true) /\
   (UUIDB64Slice_Less s i j = Ok true -> UUIDB64Slice_Less s j i = Ok false) /\
   (UUIDB64Slice_Less s i j = Ok false -> UUIDB64Slice_Less s j i = Ok false ->
    a = b)) /\
  (UUIDSlice_Less s i i = Ok false /\
   (UUIDSlice_Less s i j = Ok true -> UUIDSlice_Less s j k = Ok true ->
    UUIDSlice_Less s i k = Ok true) /\
   (UUIDSlice_Less s i j = Ok true -> UUIDSlice_Less s j i = Ok false) /\
   (UUIDSlice_Less s i j = Ok false -> UUIDSlice_Less s j i = Ok false ->
    UUIDSlice_Less s j k = Ok false -> UUIDSlice_Less s k j = Ok false ->
    UUIDSlice_Less s i k = Ok false /\ UUIDSlice_Less s k i = Ok false)).
Proof.
  intros Hs Hi Hj Hk.
  rewrite Forall_forall in Hs.
  assert (Ha : wf_UUID a) by (apply Hs; eapply nth_error_In; eauto).
  assert (Hb : wf_UUID b) by (apply Hs; eapply nth_error_In; eauto).
  assert (Hc : wf_UUID c) by (apply Hs; eapply nth_error_In; eauto).
  split.
  - rewrite (UUIDB64Slice_Less_be_val s i i a a),
      (UUIDB64Slice_Less_be_val s i j a b),
      (UUIDB64Slice_Less_be_val s j k b c),
      (UUIDB64Slice_Less_be_val s i k a c),
      (UUIDB64Slice_Less_be_val s j i b a) by assumption.
    split; [|split; [|split]].
    + now rewrite Z.ltb_irrefl.
    + intros H1 H2. apply Ok_inj in H1, H2. f_equal.
      apply Z.ltb_lt in H1, H2. apply Z.ltb_lt. lia.
    + intros H1. apply Ok_inj in H1. f_equal.
      apply Z.ltb_lt in H1. apply Z.ltb_ge. lia.
    + intros H1 H2. apply Ok_inj in H1, H2.
      apply Z.ltb_ge in H1, H2. destruct Ha, Hb.
      apply be_val_inj; try assumption; [congruence|lia].
  - unfold UUIDSlice_Less. rewrite Hi, Hj, Hk.
    split; [|split; [|split]].
    + now rewrite Z.ltb_irrefl.
    + intros H1 H2. apply Ok_inj in H1, H2. f_equal.
      apply Z.ltb_lt in H1, H2. apply Z.ltb_lt. lia.
    + intros H1. apply Ok_inj in H1. f_equal.
      apply Z.ltb_lt in H1. apply Z.ltb_ge. lia.
    + intros H1 H2 H3 H4. apply Ok_inj in H1, H2, H3, H4.
      apply Z.ltb_ge in H1, H2, H3, H4.
      split; f_equal; apply Z.ltb_ge; lia.
Qed.

Lemma Less_orders_witness :
  UUIDB64Slice_Less [zero_UUID; repeat 1 16; repeat 2 16] 0 2 = Ok true.
Proof.
  destruct (Less_orders [zero_UUID; repeat 1 16; repeat 2 16] 0 1 2
              zero_UUID (repeat 1 16) (repeat 2 16)) as [(_ & H & _) _].
  - repeat constructor; unfold is_byte; lia.
  - reflexivity.
  - reflexivity.
  - reflexivity.
  - apply H; reflexivity.
Defined.

Lemma nth_error_set (A : Type) (l : list A) (i : nat) (x : A) (k : nat) :
  (i < length l)%nat ->
  nth_error (firstn i l ++ x :: skipn (S i) l) k =
  if (k =? i)%nat then Some x else nth_error l k.
Proof.
  intros Hi.
  assert (Hf : length (firstn i l) = i) by (rewrite length_firstn; lia).
  destruct (Nat.eqb_spec k i) as [->|Hne].
  - rewrite nth_error_app2 by lia. rewrite Hf, Nat.sub_diag. reflexivity.
  - destruct (Nat.lt_ge_cases k i) as [Hlt|Hge].
    + rewrite nth_error_app1 by lia. rewrite nth_error_firstn.
      destruct (Nat.ltb_spec k i); [reflexivity|lia].
    + rewrite nth_error_app2 by lia. rewrite Hf.
      destruct (k - i)%nat as [|m] eqn:E; [lia|]. cbn [nth_error].
      rewrite nth_error_skipn. f_equal. lia.
Qed.

Lemma length_set (A : Type) (l : list A) (i : nat) (x : A) :
  (i < length l)%nat ->
  length (firstn i l ++ x :: skipn (S i) l) = length l.
Proof.
  intros Hi. rewrite length_app, length_firstn. cbn [length].
  rewrite length_skipn. lia.
Qed.

Lemma UUIDSlice_Swap_nth_error s i j s' k :
  UUIDSlice_Swap s i j = Ok s' ->
  length s' = length s /\
  nth_error s' k =
    if (k =? j)%nat then nth_error s i
    else if (k =? i)%nat then nth_error s j else nth_error s k.
Proof.
  unfold UUIDSlice_Swap.
  destruct (nth_error s i) as [a|] eqn:Hi; [|discriminate].
  destruct (nth_error s j) as [b|] eqn:Hj; [|discriminate].
  cbv zeta. intros E. apply Ok_inj in E. subst s'.
  assert (Li : (i < length s)%nat) by (apply nth_error_Some; congruence).
  assert (Lj : (j < length s)%nat) by (apply nth_error_Some; congruence).
  pose proof (length_set _ s i b Li) as L1.
  assert (Lj1 : (j < length (firstn i s ++ b :: skipn (S i) s))%nat)
    by (rewrite L1; exact Lj).
  split.
  - rewrite (length_set _ _ j a Lj1). exact L1.
  - rewrite (nth_error_set _ _ j a k Lj1).
    destruct (k =? j)%nat; [reflexivity|].
    rewrite (nth_error_set _ s i b k Li).
    destruct (k =? i)%nat; reflexivity.
Qed.

(** X20: [Swap] on either slice type, with both indices inside the
    slice, keeps the length, exchanges the elements at the two indices
    and leaves every other element in place, so that swapping again gives
    the slice back; with an index outside the slice the call panics. *)
Theorem UUIDSlice_Swap_exchanges (s : list UUID) (i j : nat) :
  ((i < length s)%nat -> (j < length s)%nat ->
   exists s',
     UUIDSlice_Swap s i j = Ok s' /\
     UUIDSlice_Len s' = UUIDSlice_Len s /\
     nth_error s' i = nth_error s j /\
     nth_error s' j = nth_error s i /\
     (forall k, k <> i -> k <> j -> nth_error s' k = nth_error s k) /\
     UUIDSlice_Swap s' i j = Ok s) /\
  ((length s <= i)%nat \/ (length s <= j)%nat ->
   UUIDSlice_Swap s i j = Panic).
Proof.
  split.
  - intros Li Lj.
    destruct (UUIDSlice_Swap s i j) as [s'| |] eqn:E.
    2,3: unfold UUIDSlice_Swap in E;
      destruct (nth_error s i) eqn:Hi;
      [destruct (nth_error s j) eqn:Hj;
       [discriminate|apply nth_error_None in Hj; lia]
      |apply nth_error_None in Hi; lia].
    exists s'. split; [reflexivity|].
    pose proof (fun k => proj2 (UUIDSlice_Swap_nth_error s i j s' k E)) as Hn.
    destruct (UUIDSlice_Swap_nth_error s i j s' 0 E) as [Hl _].
    split; [exact Hl|]. split; [|split; [|split]].
    + rewrite Hn. destruct (Nat.eqb_spec i j) as [->|]; [reflexivity|].
      now rewrite Nat.eqb_refl.
    + rewrite Hn. now rewrite Nat.eqb_refl.
    + intros k Hki Hkj. rewrite Hn.
      destruct (Nat.eqb_spec k j); [contradiction|].
      destruct (Nat.eqb_spec k i); [contradiction|reflexivity].
    + destruct (UUIDSlice_Swap s' i j) as [s''| |] eqn:E'.
      2,3: unfold UUIDSlice_Swap in E';
        destruct (nth_error s' i) eqn:Hi;
        [destruct (nth_error s' j) eqn:Hj;
         [discriminate|apply nth_error_None in Hj; lia]
        |apply nth_error_None in Hi; lia].
      f_equal. apply nth_error_ext. intros k.
      rewrite (proj2 (UUIDSlice_Swap_nth_error s' i j s'' k E')), !Hn.
      rewrite !Nat.eqb_refl.
      destruct (Nat.eqb_spec i j) as [->|Hij].
      * destruct (Nat.eqb_spec k j) as [->|]; reflexivity.
      * destruct (Nat.eqb_spec j i) as [->|_]; [contradiction|].
        destruct (Nat.eqb_spec k j) as [->|]; [reflexivity|].
        destruct (Nat.eqb_spec k i) as [->|]; reflexivity.
  - intros H. unfold UUIDSlice_Swap.
    destruct (nth_error s i) eqn:Hi.
    + destruct (nth_error s j) eqn:Hj; [|reflexivity].
      assert (j < length s)%nat by (apply nth_error_Some; congruence).
      assert (i < length s)%nat by (apply nth_error_Some; congruence).
      lia.
    + reflexivity.
Qed.

Lemma UUIDSlice_Swap_exchanges_witness :
  UUIDSlice_Swap [zero_UUID; repeat 1 16; repeat 2 16] 0 2 =
    Ok [repeat 2 16; repeat 1 16; zero_UUID] /\
  UUIDSlice_Swap [zero_UUID] 0 1 = Panic.
Proof.
  split; [reflexivity|].
  apply (UUIDSlice_Swap_exchanges [zero_UUID] 0 1). right. cbn. lia.
Defined.
(** ** The random node *)

Lemma getRandomNode_bits b i :
  0 <= i ->
  Z.testbit (getRandomNode (Some b)) i =
  if i =? 40 then true
  else if i <? 48 then Z.testbit (Uint64 (slice 0 8 b)) i else false.
Proof.
  intros Hi. cbn [getRandomNode]. cbv zeta.
  rewrite Z.lor_spec, Z.land_spec.
  change 0x0000FFFFFFFFFFFF with (Z.ones 48).
  change 0x0000010000000000 with (2 ^ 40).
  destruct (Z.eqb_spec i 40) as [->|Hne].
  - rewrite Z.pow2_bits_true by lia. apply orb_true_r.
  - rewrite Z.pow2_bits_false by lia. rewrite orb_false_r.
    destruct (Z.ltb_spec i 48).
    + rewrite Z.ones_spec_low by lia. apply andb_true_r.
    + rewrite Z.ones_spec_high by lia. apply andb_false_r.
Qed.

(** X21: a successful [RandomizeNode] stores a node below [2^48] whose
    multicast bit (bit 40) is set and whose other 47 bits are those of the
    bytes read, so it is never zero; with always-randomize off every
    identifier generated afterwards carries that node.  The same holds of
    a freshly initialised package whose read succeeded, whatever the
    hardware addresses are. *)
Theorem RandomizeNode_pins_random_node (b : list Z) (g : Generator)
    (calls : list (time_Time * rand_outcome)) :
  alwaysRandomizeNode g = false ->
  let n := getRandomNode (Some b) in
  0 < n < 2 ^ 48 /\
  Z.testbit n 40 = true /\
  (forall i, 0 <= i < 48 -> i <> 40 ->
     Z.testbit n i = Z.testbit (Uint64 (slice 0 8 b)) i) /\
  GetNode (RandomizeNode (Some b) g) = n /\
  Forall (fun u => UUID_Node u = n)
    (fst (generate calls (RandomizeNode (Some b) g))) /\
  (forall r1 ifs,
     Forall (fun u => UUID_Node u = n)
       (fst (generate calls (init r1 ifs (Some b))))).
Proof.
  intros Hf. cbv zeta.
  pose proof (getRandomNode_range (Some b)) as Hr.
  assert (H40 : Z.testbit (getRandomNode (Some b)) 40 = true)
    by (now rewrite getRandomNode_bits by lia).
  assert (Hpos : 0 < getRandomNode (Some b) < 2 ^ 48).
  { split; [|lia].
    destruct (Z.eq_dec (getRandomNode (Some b)) 0) as [E|]; [|lia].
    rewrite E in H40. discriminate. }
  split; [exact Hpos|]. split; [exact H40|]. split; [|split; [reflexivity|split]].
  - intros i Hi Hne. rewrite getRandomNode_bits by lia.
    replace (i =? 40) with false by (symmetry; now apply Z.eqb_neq).
    replace (i <? 48) with true by (symmetry; apply Z.ltb_lt; lia).
    reflexivity.
  - destruct (generate_stored_node calls (RandomizeNode (Some b) g))
      as (H & _); [exact Hpos|exact Hf|exact H].
  - intros r1 ifs.
    destruct (generate_stored_node calls (init r1 ifs (Some b)))
      as (H & _); [exact Hpos|reflexivity|exact H].
Qed.

Lemma RandomizeNode_pins_random_node_witness :
  Forall (fun u => UUID_Node u = 0x010405060708)
    (fst (generate [(mkTime 1600000000 0, None); (mkTime 1600000001 5, None)]
            (RandomizeNode (Some [0; 0; 0; 4; 5; 6; 7; 8])
               (SetNode 77 (init None [] None))))).
Proof.
  destruct (RandomizeNode_pins_random_node [0; 0; 0; 4; 5; 6; 7; 8]
              (SetNode 77 (init None [] None))
              [(mkTime 1600000000 0, None); (mkTime 1600000001 5, None)])
    as (_ & _ & _ & _ & H & _).
  - reflexivity.
  - exact H.
Defined.
